(** * btcscript: the script engine of script.go, embedded in Rocq

    The development follows script.go function by function.  Go values are
    modelled as follows:

    - [int] and [uint] are [Z] (all quantities that occur stay far below the
      64-bit range, so no wrap-around is written out except for the explicit
      [byte(..)] conversions);
    - [[]byte] is [list byte], a nil slice and an empty slice are both [[]]
      (the code only ever compares them with [bytes.Equal] and [len]);
    - a slice has capacity equal to its length;
    - a function returning an [error] returns a [result]; a Go runtime panic
      (index or slice bounds out of range) is the outcome [Panic];
    - [*btcwire.TxIn] and [*btcwire.TxOut] are locations in a [heap], so that
      the aliasing between the caller's transaction and the engine's copy of
      it is visible. *)

From Stdlib Require Import ZArith Lia Bool.
From Stdlib Require Import Strings.Byte.
From stdpp Require Import base list.

Local Open Scope Z_scope.

(** ** Errors and results *)

Inductive error : Type :=
| StackErrShortScript
| StackErrUnderflow
| StackErrInvalidArgs
| StackErrOpDisabled
| StackErrVerifyFailed
| StackErrNumberTooBig
| StackErrInvalidOpcode
| StackErrReservedOpcode
| StackErrEarlyReturn
| StackErrNoIf
| StackErrMissingEndif
| StackErrTooManyPubkeys
| StackErrTooManyOperations
| StackErrElementTooBig
| StackErrUnknownAddress
| StackErrScriptFailed
| ErrInvalidOpcodeLength   (* fmt.Errorf("invalid opcode length %d", ..) *)
| ErrPayToScriptHashNonPushOnly
                           (* errors.New("pay to script hash with non pushonly input") *)
| ErrPastInputScripts      (* fmt.Errorf("Past input scripts ..") *)
| ErrStackEmptyAtEnd.      (* fmt.Errorf("stack empty at end of execution") *)

Inductive result (A : Type) : Type :=
| Ok (a : A)
| Err (e : error)
| Panic        (* Go runtime panic *)
| OutOfFuel.   (* the bound of a modelled loop was reached *)

Arguments Ok {A} a.
Arguments Err {A} e.
Arguments Panic {A}.
Arguments OutOfFuel {A}.

#[global] Instance result_ret : MRet result := fun A a => Ok a.

#[global] Instance result_bind : MBind result := fun A B k r =>
  match r with
  | Ok a => k a
  | Err e => Err e
  | Panic => Panic
  | OutOfFuel => OutOfFuel
  end.

(** An outcome that is a value or a typed error: no panic, and the loop
    bound was not reached. *)
Definition returns {A} (r : result A) : Prop :=
  match r with
  | Ok _ | Err _ => True
  | Panic | OutOfFuel => False
  end.

(** ** Bytes and slices *)

(** [uint(b)] / [int(b)] of a byte. *)
Definition bval (b : byte) : Z := Z.of_N (Byte.to_N b).

(** [byte(z)]: conversion of an integer to a byte keeps the low 8 bits. *)
Definition byteOf (z : Z) : byte :=
  match Byte.of_N (Z.to_N (z mod 256)) with
  | Some b => b
  | None => x00
  end.

(** [len(s)] *)
Definition len {A} (s : list A) : Z := Z.of_nat (length s).

(** [s[i]] *)
Definition index {A} (s : list A) (i : Z) : result A :=
  if 0 <=? i then
    match s !! Z.to_nat i with
    | Some x => Ok x
    | None => Panic
    end
  else Panic.

(** [s[lo:]] *)
Definition sliceFrom {A} (s : list A) (lo : Z) : result (list A) :=
  if (0 <=? lo) && (lo <=? len s) then Ok (drop (Z.to_nat lo) s) else Panic.

(** [s[lo:hi]] *)
Definition slice {A} (s : list A) (lo hi : Z) : result (list A) :=
  if (0 <=? lo) && (lo <=? hi) && (hi <=? len s)
  then Ok (take (Z.to_nat (hi - lo)) (drop (Z.to_nat lo) s))
  else Panic.

(** [bytes.Equal] *)
Fixpoint bytesEqual (a b : list byte) : bool :=
  match a, b with
  | [], [] => true
  | x :: a', y :: b' => Byte.eqb x y && bytesEqual a' b'
  | _, _ => false
  end.

(** ** Constants of script.go *)

Definition SigHashOld : Z := 0.
Definition SigHashAll : Z := 1.
Definition SigHashNone : Z := 2.
Definition SigHashSingle : Z := 3.
Definition SigHashAnyOneCanPay : Z := 128.

Definition MaxOpsPerScript : Z := 201.
Definition MaxPubKeysPerMultiSig : Z := 20.
Definition MaxScriptElementSize : Z := 520.

(** ** The opcode table

    opcode.go is not part of the sources at hand; script.go uses its
    [opcode] descriptor, the table [opcodemap] and the opcode constants. *)

(** Modelled from the spec: the opcode descriptor of opcode.go, with the two
    fields script.go reads, the byte value and the encoded length.  (The Go
    field [length] is [op_length] here, [length] being the list function;
    the executor of a descriptor is [opfunc] below, by value.) *)
Record opcode : Type := mkOpcode {
  op_value : byte;
  op_length : Z
}.

(** Modelled from the spec: a parsed opcode of opcode.go, a descriptor and
    the immediate data. *)
Record parsedOpcode : Type := mkPop {
  pop_opcode : opcode;
  data : list byte
}.

(** Modelled from the spec: the opcode constants of opcode.go that the
    claims and script.go name; the values are those of the Bitcoin consensus
    assignment. *)
Definition OP_0 : byte := x00.
Definition OP_FALSE : byte := x00.
Definition OP_DATA_1 : byte := x01.
Definition OP_DATA_20 : byte := x14.
Definition OP_DATA_75 : byte := x4b.
Definition OP_PUSHDATA1 : byte := x4c.
Definition OP_PUSHDATA2 : byte := x4d.
Definition OP_PUSHDATA4 : byte := x4e.
Definition OP_1NEGATE : byte := x4f.
Definition OP_RESERVED : byte := x50.
Definition OP_1 : byte := x51.
Definition OP_TRUE : byte := x51.
Definition OP_16 : byte := x60.
Definition OP_NOP : byte := x61.
Definition OP_VER : byte := x62.
Definition OP_IF : byte := x63.
Definition OP_NOTIF : byte := x64.
Definition OP_VERIF : byte := x65.
Definition OP_VERNOTIF : byte := x66.
Definition OP_ELSE : byte := x67.
Definition OP_ENDIF : byte := x68.
Definition OP_VERIFY : byte := x69.
Definition OP_RETURN : byte := x6a.
Definition OP_DUP : byte := x76.
Definition OP_CAT : byte := x7e.
Definition OP_SUBSTR : byte := x7f.
Definition OP_LEFT : byte := x80.
Definition OP_RIGHT : byte := x81.
Definition OP_INVERT : byte := x83.
Definition OP_AND : byte := x84.
Definition OP_OR : byte := x85.
Definition OP_XOR : byte := x86.
Definition OP_EQUAL : byte := x87.
Definition OP_EQUALVERIFY : byte := x88.
Definition OP_RESERVED1 : byte := x89.
Definition OP_RESERVED2 : byte := x8a.
Definition OP_2MUL : byte := x8d.
Definition OP_2DIV : byte := x8e.
Definition OP_MUL : byte := x95.
Definition OP_DIV : byte := x96.
Definition OP_MOD : byte := x97.
Definition OP_LSHIFT : byte := x98.
Definition OP_RSHIFT : byte := x99.
Definition OP_HASH160 : byte := xa9.
Definition OP_CODESEPARATOR : byte := xab.
Definition OP_CHECKSIG : byte := xac.
Definition OP_CHECK_MULTISIG : byte := xae.
Definition OP_NOP1 : byte := xb0.
Definition OP_NOP10 : byte := xb9.

(** Modelled from the spec: the encoded length of the descriptor of the byte
    value [b] in opcode.go's table, which is not at hand.  The spec gives
    1 for an opcode without immediate data, N > 1 for a fixed N-byte
    instruction including the opcode byte (OP_DATA_n is n+1), and -1, -2, -4
    for OP_PUSHDATA1, OP_PUSHDATA2, OP_PUSHDATA4. *)
Definition opcodeLength (b : byte) : Z :=
  let v := bval b in
  if (1 <=? v) && (v <=? 75) then v + 1
  else if v =? 76 then -1
  else if v =? 77 then -2
  else if v =? 78 then -4
  else 1.

(** Modelled from the spec: the table [opcodemap] of opcode.go, keyed by the
    byte value; all 256 values are assigned. *)
Definition opcodemap (b : byte) : option opcode :=
  Some {| op_value := b; op_length := opcodeLength b |}.

(** ** Length prefixes *)

(** The number a byte string holds in little-endian order. *)
Fixpoint leValue (bs : list byte) : Z :=
  match bs with
  | [] => 0
  | b :: rest => bval b + 256 * leValue rest
  end.

Definition scriptUInt8 (script : list byte) : result Z :=
  if len script <=? 1 then Err StackErrShortScript
  else b0 ← index script 0; Ok (bval b0).

Definition scriptUInt16 (script : list byte) : result Z :=
  if len script <=? 2 then Err StackErrShortScript
  else
    b1 ← index script 1;
    b0 ← index script 0;
    Ok (Z.lor (Z.shiftl (bval b1) 8) (bval b0)).

Definition scriptUInt32 (script : list byte) : result Z :=
  if len script <=? 4 then Err StackErrShortScript
  else
    b3 ← index script 3;
    b2 ← index script 2;
    b1 ← index script 1;
    b0 ← index script 0;
    Ok (Z.lor (Z.lor (Z.lor (Z.shiftl (bval b3) 24) (Z.shiftl (bval b2) 16))
                     (Z.shiftl (bval b1) 8))
              (bval b0)).

(** ** parseScript *)

(** One iteration of the loop of [parseScript] at offset [i]: the parsed
    opcode and the next offset.  A descriptor of length 0 matches no case of
    the Go [switch] and leaves [i] where it is. *)
Definition parseInstr (script : list byte) (i : Z) : result (parsedOpcode * Z) :=
  instr ← index script i;
  match opcodemap instr with
  | None => Err StackErrInvalidOpcode
  | Some op =>
      if op_length op =? 1 then
        Ok ({| pop_opcode := op; data := [] |}, i + 1)
      else if op_length op >? 1 then
        rest ← sliceFrom script i;
        if len rest <? op_length op then Err StackErrShortScript
        else
          d ← slice script (i + 1) (i + op_length op);
          Ok ({| pop_opcode := op; data := d |}, i + op_length op)
      else if op_length op <? 0 then
        let off := i + 1 in
        tl ← sliceFrom script off;
        l ← (if op_length op =? -1 then scriptUInt8 tl
             else if op_length op =? -2 then scriptUInt16 tl
             else if op_length op =? -4 then scriptUInt32 tl
             else Err ErrInvalidOpcodeLength);
        let off := i + 1 - op_length op in
        rest ← sliceFrom script off;
        if l >? len rest then Err StackErrShortScript
        else if l >? MaxScriptElementSize then Err StackErrElementTooBig
        else
          d ← slice script off (off + l);
          Ok ({| pop_opcode := op; data := d |}, i + 1 - op_length op + l)
      else
        Ok ({| pop_opcode := op; data := [] |}, i)
  end.

(** The loop [for i := 0; i < len(script); { .. }]; every iteration of a
    script that parses moves [i] forward, so [length script] iterations
    suffice (lemma [parseScript_returns]). *)
Fixpoint parseLoop (fuel : nat) (script : list byte) (i : Z)
    (retScript : list parsedOpcode) : result (list parsedOpcode) :=
  if i <? len script then
    match fuel with
    | O => OutOfFuel
    | S fuel' =>
        '(pop, i') ← parseInstr script i;
        parseLoop fuel' script i' (retScript ++ [pop])
    end
  else Ok retScript.

Definition parseScript (script : list byte) : result (list parsedOpcode) :=
  parseLoop (length script) script 0 [].

(** ** unparseScript *)

(** The [k] low bytes of [l], least significant first. *)
Definition leBytes (k : nat) (l : Z) : list byte :=
  map (fun j => byteOf (Z.shiftr l (8 * Z.of_nat j))) (seq 0 k).

(** Modelled from the spec: [parsedOpcode.bytes] of opcode.go, which is not
    at hand.  The opcode's byte value is emitted, followed by nothing for
    encoded length 1, by the data for encoded length N > 1, and by the K-byte
    little-endian length of the data and the data for encoded length -K. *)
Definition bytes (pop : parsedOpcode) : list byte :=
  let op := pop_opcode pop in
  if op_length op =? 1 then [op_value op]
  else if op_length op >? 1 then op_value op :: data pop
  else op_value op :: leBytes (Z.to_nat (- op_length op)) (len (data pop)) ++ data pop.

(** Modelled from the spec: the contract of serialization.  A parsed opcode
    serializes only if its data is empty for encoded length 1, has exactly
    N-1 bytes for encoded length N > 1, and has a length that fits in K
    bytes for encoded length -K; otherwise [InvalidOpcode]. *)
Definition bytesChecked (pop : parsedOpcode) : result (list byte) :=
  let op := pop_opcode pop in
  let ok :=
    if op_length op =? 1 then len (data pop) =? 0
    else if op_length op >? 1 then len (data pop) =? op_length op - 1
    else len (data pop) <? 2 ^ (8 * - op_length op) in
  if ok then Ok (bytes pop) else Err StackErrInvalidOpcode.

(** [for _, pop := range pops { script = append(script, pop.bytes()...) }] *)
Definition unparseScript (pops : list parsedOpcode) : list byte :=
  fold_left (fun script pop => script ++ bytes pop) pops [].

(** ** Script patterns *)

Definition valueAt (pops : list parsedOpcode) (i : nat) : option Z :=
  (fun pop => bval (op_value (pop_opcode pop))) <$> pops !! i.

(** [len(pops) == 3 && pops[0].opcode.value == OP_HASH160 && ..]; the
    indexing is guarded by the length test. *)
Definition isScriptHash (pops : list parsedOpcode) : bool :=
  (len pops =? 3) &&
  bool_decide (valueAt pops 0 = Some (bval OP_HASH160)) &&
  bool_decide (valueAt pops 1 = Some (bval OP_DATA_20)) &&
  bool_decide (valueAt pops 2 = Some (bval OP_EQUAL)).

(** The loop of [isPushOnly]: [false] at the first opcode outside
    OP_FALSE .. OP_16. *)
Fixpoint isPushOnly (pops : list parsedOpcode) : bool :=
  match pops with
  | [] => true
  | pop :: rest =>
      if (bval (op_value (pop_opcode pop)) <? bval OP_FALSE)
         || (bval (op_value (pop_opcode pop)) >? bval OP_16)
      then false
      else isPushOnly rest
  end.

(** ** Removing opcodes *)

Definition removeOpcode (pkscript : list parsedOpcode) (opcode : byte)
    : list parsedOpcode :=
  fold_left
    (fun retScript pop =>
       if negb (Byte.eqb (op_value (pop_opcode pop)) opcode)
       then retScript ++ [pop] else retScript)
    pkscript [].

Definition removeOpcodeByData (pkscript : list parsedOpcode) (d : list byte)
    : list parsedOpcode :=
  fold_left
    (fun retScript pop =>
       if negb (bytesEqual (data pop) d)
       then retScript ++ [pop] else retScript)
    pkscript [].

(** ** Numbers and booleans on the stack *)

(** Modelled from the spec: the boolean reading of a stack element (the
    numeric codec is in stack.go, which is not at hand).  False is the empty
    string or a string of zero bytes whose last byte may be 0x80; anything
    else is true. *)
Fixpoint asBool (t : list byte) : bool :=
  match t with
  | [] => false
  | [b] => negb (Byte.eqb b x00 || Byte.eqb b x80)
  | b :: t' => if Byte.eqb b x00 then asBool t' else true
  end.

(** Modelled from the spec: a produced boolean is 0x01 or the empty string. *)
Definition fromBool (v : bool) : list byte := if v then [x01] else [].

(** Modelled from the spec: the encoding of a script integer, little-endian
    sign-magnitude without redundant high bytes; zero is the empty string;
    when the top bit of the magnitude is taken, a byte 0x00 (0x80 for a
    negative number) is appended, otherwise the sign is the top bit of the
    last byte. *)
Definition fromInt (v : Z) : list byte :=
  if v =? 0 then []
  else
    let a := Z.abs v in
    let k := Z.log2 a / 8 + 1 in
    let sign := if v <? 0 then 128 else 0 in
    if Z.testbit a (8 * k - 1)
    then leBytes (Z.to_nat k) a ++ [byteOf sign]
    else leBytes (Z.to_nat k) (a + sign * 2 ^ (8 * (k - 1))).

(** ** The stack *)

(** Modelled from the spec: [Stack] of stack.go, which is not at hand, as the
    sequence of its elements, bottom first (the order of [GetStack]); the
    top is the element pushed last. *)
Definition Stack : Type := list (list byte).

(** Modelled from the spec: the number of elements. *)
Definition Depth (s : Stack) : Z := len s.

(** Modelled from the spec: a push fails with [ElementTooBig] when the
    element exceeds [MaxScriptElementSize] bytes. *)
Definition PushByteArray (s : Stack) (so : list byte) : result Stack :=
  if len so >? MaxScriptElementSize then Err StackErrElementTooBig
  else Ok (s ++ [so]).

(** Modelled from the spec: push of an encoded integer. *)
Definition PushInt (s : Stack) (v : Z) : result Stack := PushByteArray s (fromInt v).

(** Modelled from the spec: push of an encoded boolean. *)
Definition PushBool (s : Stack) (v : bool) : result Stack := PushByteArray s (fromBool v).

(** Modelled from the spec: pop of the top element, [Underflow] on an empty
    stack. *)
Definition PopByteArray (s : Stack) : result (list byte * Stack) :=
  match last s with
  | Some so => Ok (so, take (length s - 1)%nat s)
  | None => Err StackErrUnderflow
  end.

(** Modelled from the spec: pop of the top element read as a boolean. *)
Definition PopBool (s : Stack) : result (bool * Stack) :=
  '(so, s') ← PopByteArray s; Ok (asBool so, s').

(** Modelled from the spec: [PeekByteArray(i)], the element at depth [i],
    [i = 0] being the top; [Underflow] when there is none. *)
Definition PeekByteArray (s : Stack) (i : Z) : result (list byte) :=
  if (0 <=? i) && (i <? len s) then
    match s !! Z.to_nat (len s - 1 - i) with
    | Some so => Ok so
    | None => Err StackErrUnderflow
    end
  else Err StackErrUnderflow.

(** [array[len(array)-i-1], _ = stack.PeekByteArray(i)] for every [i]: the
    elements bottom up. *)
Definition getStack (stack : Stack) : list (list byte) :=
  rev (omap (fun i => match PeekByteArray stack (Z.of_nat i) with
                      | Ok so => Some so
                      | _ => None
                      end)
            (seq 0 (length stack))).

(** [DropN(Depth())] empties the stack, then every element of [d] is
    pushed; the result of a push is not looked at. *)
Definition setStack (stack : Stack) (d : list (list byte)) : Stack :=
  fold_left (fun st so => match PushByteArray st so with
                          | Ok st' => st'
                          | _ => st
                          end)
            d [].

(** ** Transactions

    btcwire is an external package; these are the fields of its types that
    script.go reads and writes.  A [MsgTx] holds pointers to its inputs and
    outputs: [TxIn []*TxIn] and [TxOut []*TxOut] are lists of locations in
    the heap. *)

Record OutPoint : Type := mkOutPoint {
  Hash : list byte;
  Index : Z
}.

Record TxIn : Type := mkTxIn {
  PreviousOutpoint : OutPoint;
  SignatureScript : list byte;
  Sequence : Z
}.

Record TxOut : Type := mkTxOut {
  Value : Z;
  PkScript : list byte
}.

Record MsgTx : Type := mkMsgTx {
  Version : Z;
  tx_TxIn : list nat;
  tx_TxOut : list nat;
  LockTime : Z
}.

(** The cells the pointers refer to; a location is an index, allocation
    appends a cell. *)
Record heap : Type := mkHeap {
  txins : list TxIn;
  txouts : list TxOut
}.

(** [*p]: a nil or dangling pointer panics. *)
Definition deref {A} (cells : list A) (p : nat) : result A :=
  match cells !! p with
  | Some c => Ok c
  | None => Panic
  end.

Definition setSignatureScript (c : TxIn) (sig : list byte) : TxIn :=
  {| PreviousOutpoint := PreviousOutpoint c; SignatureScript := sig;
     Sequence := Sequence c |}.

Definition setSequence (c : TxIn) (n : Z) : TxIn :=
  {| PreviousOutpoint := PreviousOutpoint c;
     SignatureScript := SignatureScript c; Sequence := n |}.

(** ** The engine *)

(** Modelled from the spec: the marks of the conditional stack (the
    constants are in opcode.go). *)
Inductive condMark : Type := OpCondFalse | OpCondTrue | OpCondSkip.

Record Script : Type := mkScript {
  scripts : list (list parsedOpcode);
  scriptidx : Z;
  scriptoff : Z;
  lastcodesep : Z;
  dstack : Stack;
  astack : Stack;
  tx : MsgTx;
  txidx : Z;
  pver : Z;
  condStack : list condMark;
  numOps : Z;
  bip16 : bool;
  savedFirstStack : list (list byte)
}.

Definition set_scripts (v : list (list parsedOpcode)) (m : Script) : Script :=
  mkScript v (scriptidx m) (scriptoff m) (lastcodesep m) (dstack m) (astack m)
    (tx m) (txidx m) (pver m) (condStack m) (numOps m) (bip16 m)
    (savedFirstStack m).
Definition set_scriptidx (v : Z) (m : Script) : Script :=
  mkScript (scripts m) v (scriptoff m) (lastcodesep m) (dstack m) (astack m)
    (tx m) (txidx m) (pver m) (condStack m) (numOps m) (bip16 m)
    (savedFirstStack m).
Definition set_scriptoff (v : Z) (m : Script) : Script :=
  mkScript (scripts m) (scriptidx m) v (lastcodesep m) (dstack m) (astack m)
    (tx m) (txidx m) (pver m) (condStack m) (numOps m) (bip16 m)
    (savedFirstStack m).
Definition set_lastcodesep (v : Z) (m : Script) : Script :=
  mkScript (scripts m) (scriptidx m) (scriptoff m) v (dstack m) (astack m)
    (tx m) (txidx m) (pver m) (condStack m) (numOps m) (bip16 m)
    (savedFirstStack m).
Definition set_dstack (v : Stack) (m : Script) : Script :=
  mkScript (scripts m) (scriptidx m) (scriptoff m) (lastcodesep m) v (astack m)
    (tx m) (txidx m) (pver m) (condStack m) (numOps m) (bip16 m)
    (savedFirstStack m).
Definition set_condStack (v : list condMark) (m : Script) : Script :=
  mkScript (scripts m) (scriptidx m) (scriptoff m) (lastcodesep m) (dstack m)
    (astack m) (tx m) (txidx m) (pver m) v (numOps m) (bip16 m)
    (savedFirstStack m).
Definition set_numOps (v : Z) (m : Script) : Script :=
  mkScript (scripts m) (scriptidx m) (scriptoff m) (lastcodesep m) (dstack m)
    (astack m) (tx m) (txidx m) (pver m) (condStack m) v (bip16 m)
    (savedFirstStack m).
Definition set_bip16 (v : bool) (m : Script) : Script :=
  mkScript (scripts m) (scriptidx m) (scriptoff m) (lastcodesep m) (dstack m)
    (astack m) (tx m) (txidx m) (pver m) (condStack m) (numOps m) v
    (savedFirstStack m).
Definition set_savedFirstStack (v : list (list byte)) (m : Script) : Script :=
  mkScript (scripts m) (scriptidx m) (scriptoff m) (lastcodesep m) (dstack m)
    (astack m) (tx m) (txidx m) (pver m) (condStack m) (numOps m) (bip16 m) v.

(** [GetStack] and [SetStack] *)
Definition GetStack (s : Script) : list (list byte) := getStack (dstack s).
Definition SetStack (s : Script) (d : list (list byte)) : Script :=
  set_dstack (setStack (dstack s) d) s.

(** [validPC] *)
Definition validPC (m : Script) : result unit :=
  if scriptidx m >=? len (scripts m) then Err ErrPastInputScripts
  else
    scr ← index (scripts m) (scriptidx m);
    if scriptoff m >=? len scr then Err ErrPastInputScripts else Ok tt.

(** [subScript] *)
Definition subScript (s : Script) : result (list parsedOpcode) :=
  scr ← index (scripts s) (scriptidx s);
  sliceFrom scr (lastcodesep s).

Section Engine.

(** The executors of the opcodes that are neither pushes, flow control,
    reserved, disabled, NOPs nor invalid: stack manipulation, OP_SIZE,
    comparison and arithmetic, hashing, OP_CODESEPARATOR and the signature
    opcodes.  They live in opcode.go, which is not at hand, and the hashing
    and signature opcodes rest on external hash and ECDSA primitives; the
    engine is stated for any such executors. *)
Variable opfuncOther : parsedOpcode -> Script -> result Script.

Definition opValue (pop : parsedOpcode) : Z := bval (op_value (pop_opcode pop)).

(** Modelled from the spec: the conditional flag, true exactly for OP_IF,
    OP_NOTIF, OP_ELSE and OP_ENDIF. *)
Definition conditional (pop : parsedOpcode) : bool :=
  let v := opValue pop in
  (v =? bval OP_IF) || (v =? bval OP_NOTIF) || (v =? bval OP_ELSE)
  || (v =? bval OP_ENDIF).

(** Modelled from the spec: the fifteen disabled opcodes. *)
Definition disabledOpcodes : list byte :=
  [OP_CAT; OP_SUBSTR; OP_LEFT; OP_RIGHT; OP_INVERT; OP_AND; OP_OR; OP_XOR;
   OP_2MUL; OP_2DIV; OP_MUL; OP_DIV; OP_MOD; OP_LSHIFT; OP_RSHIFT].

(** Is the opcode one of the disabled ones? *)
Definition isDisabled (pop : parsedOpcode) : bool :=
  existsb (fun b => opValue pop =? bval b) disabledOpcodes.

(** Modelled from the spec: the push opcodes push their element onto the
    data stack. *)
Definition push (so : list byte) (s : Script) : result Script :=
  ds ← PushByteArray (dstack s) so; Ok (set_dstack ds s).

(** Modelled from the spec: OP_IF and OP_NOTIF.  Under a True innermost mark
    a boolean is popped (inverted by OP_NOTIF) and the mark True or False is
    pushed; under a False or Skip mark Skip is pushed and nothing is popped.
    The innermost mark is the one at index 0. *)
Definition opcodeIf (invert : bool) (s : Script) : result Script :=
  c0 ← index (condStack s) 0;
  match c0 with
  | OpCondTrue =>
      '(v, ds) ← PopBool (dstack s);
      let mark := if xorb v invert then OpCondTrue else OpCondFalse in
      Ok (set_condStack (mark :: condStack s) (set_dstack ds s))
  | _ => Ok (set_condStack (OpCondSkip :: condStack s) s)
  end.

(** Modelled from the spec: OP_ELSE flips True and False of the innermost
    mark, Skip stays; [NoIf] on an empty conditional stack. *)
Definition opcodeElse (s : Script) : result Script :=
  match condStack s with
  | [] => Err StackErrNoIf
  | c0 :: rest =>
      let c := match c0 with
               | OpCondTrue => OpCondFalse
               | OpCondFalse => OpCondTrue
               | OpCondSkip => OpCondSkip
               end in
      Ok (set_condStack (c :: rest) s)
  end.

(** Modelled from the spec: OP_ENDIF pops the innermost mark; [NoIf] on an
    empty conditional stack. *)
Definition opcodeEndif (s : Script) : result Script :=
  match condStack s with
  | [] => Err StackErrNoIf
  | _ :: rest => Ok (set_condStack rest s)
  end.

(** Modelled from the spec: OP_VERIFY pops a boolean and fails with
    [VerifyFailed] when it is false. *)
Definition opcodeVerify (s : Script) : result Script :=
  '(v, ds) ← PopBool (dstack s);
  if negb v then Err StackErrVerifyFailed else Ok (set_dstack ds s).

(** Modelled from the spec: the executor of an opcode, by its value (the
    catalogue of opcode executors; the function fields of the table are in
    opcode.go). *)
Definition opfunc (pop : parsedOpcode) (s : Script) : result Script :=
  let v := opValue pop in
  if v =? bval OP_0 then push [] s
  else if v <=? bval OP_PUSHDATA4 then push (data pop) s
  else if v =? bval OP_1NEGATE then
    ds ← PushInt (dstack s) (-1); Ok (set_dstack ds s)
  else if v =? bval OP_RESERVED then Err StackErrReservedOpcode
  else if v <=? bval OP_16 then
    ds ← PushInt (dstack s) (v - (bval OP_1 - 1)); Ok (set_dstack ds s)
  else if v =? bval OP_NOP then Ok s
  else if v =? bval OP_VER then Err StackErrReservedOpcode
  else if v =? bval OP_IF then opcodeIf false s
  else if v =? bval OP_NOTIF then opcodeIf true s
  else if (v =? bval OP_VERIF) || (v =? bval OP_VERNOTIF) then
    Err StackErrReservedOpcode
  else if v =? bval OP_ELSE then opcodeElse s
  else if v =? bval OP_ENDIF then opcodeEndif s
  else if v =? bval OP_VERIFY then opcodeVerify s
  else if v =? bval OP_RETURN then Err StackErrEarlyReturn
  else if isDisabled pop then Err StackErrOpDisabled
  else if (v =? bval OP_RESERVED1) || (v =? bval OP_RESERVED2) then
    Err StackErrReservedOpcode
  else if (bval OP_NOP1 <=? v) && (v <=? bval OP_NOP10) then Ok s
  else if v >? bval OP_NOP10 then Err StackErrInvalidOpcode
  else opfuncOther pop s.

(** Modelled from the spec: [parsedOpcode.exec].  An executed opcode with a
    value above OP_16 counts as an operation, and more than
    [MaxOpsPerScript] of them fail with [TooManyOperations]; then the
    executor runs. *)
Definition exec (pop : parsedOpcode) (s : Script) : result Script :=
  s ← (if opValue pop >? bval OP_16 then
         let s := set_numOps (numOps s + 1) s in
         if numOps s >? MaxOpsPerScript then Err StackErrTooManyOperations
         else Ok s
       else Ok s);
  opfunc pop s.

(** The second half of [Step], from "prepare for next instruction" on: the
    offset moves on, and at the end of a script the engine moves to the
    next script (with the pay-to-script-hash hand-over), skipping one
    zero-length script. *)
Definition nextInstruction (m : Script) : result (bool * Script) :=
  let m := set_scriptoff (scriptoff m + 1) m in
  scr ← index (scripts m) (scriptidx m);
  if scriptoff m >=? len scr then
    (* should only be == from checks before *)
    let m := set_scriptoff 0 m in
    m ← (if (scriptidx m =? 0) && bip16 m then
           Ok (set_savedFirstStack (GetStack m) m)
         else if (scriptidx m =? 1) && bip16 m then
           (* Check for successful completion of script *)
           '(v, ds) ← PopBool (dstack m);
           let m := set_dstack ds m in
           if negb v then Err StackErrScriptFailed
           else
             script ← index (savedFirstStack m) (len (savedFirstStack m) - 1);
             pops ← parseScript script;
             let m := set_scripts (scripts m ++ [pops]) m in
             (* Set stack to be the stack from first script minus the script
                itself *)
             rest ← slice (savedFirstStack m) 0 (len (savedFirstStack m) - 1);
             Ok (SetStack m rest)
         else Ok m);
    let m := set_scriptidx (scriptidx m + 1) m in
    (* there are zero length scripts in the wild *)
    m ← (if scriptidx m <? len (scripts m) then
           scr' ← index (scripts m) (scriptidx m);
           if scriptoff m >=? len scr'
           then Ok (set_scriptidx (scriptidx m + 1) m)
           else Ok m
         else Ok m);
    let m := set_lastcodesep 0 m in
    Ok (bool_decide (scriptidx m >= len (scripts m)), m)
  else Ok (false, m).

(** [Step] *)
Definition Step (m : Script) : result (bool * Script) :=
  (* verify that it is pointing to a valid script address *)
  _ ← validPC m;
  scr ← index (scripts m) (scriptidx m);
  opcode ← index scr (scriptoff m);
  c0 ← index (condStack m) 0;
  let executeInstr :=
    match c0 with
    | OpCondTrue => true
    | _ =>
        (* some opcodes still 'activate' if on the non-executing side of
           conditional execution *)
        if conditional opcode then true else false
    end in
  m ← (if executeInstr then exec opcode m else Ok m);
  nextInstruction m.

(** The loop [for done != true { done, err = s.Step() .. }] of [Execute],
    run for at most [fuel] steps. *)
Fixpoint stepLoop (fuel : nat) (s : Script) : result Script :=
  match fuel with
  | O => OutOfFuel
  | S fuel' =>
      '(done, s') ← Step s;
      if negb done then stepLoop fuel' s' else Ok s'
  end.

(** What [Execute] does once the loop is left. *)
Definition finish (s : Script) : result Script :=
  if Depth (dstack s) <? 1 then Err ErrStackEmptyAtEnd
  else
    '(v, ds) ← PopBool (dstack s);
    let s := set_dstack ds s in
    if negb v then Err StackErrScriptFailed
    else if negb (len (condStack s) =? 1) then Err StackErrMissingEndif
    else Ok s.

(** [Execute]: [Ok] is the nil error. *)
Definition Execute (fuel : nat) (s : Script) : result Script :=
  s' ← stepLoop fuel s; finish s'.

End Engine.

(** ** NewScript *)

(** The loop over [scripts] in [NewScript]. *)
Fixpoint parseScripts (i : Z) (scrs : list (list byte)) (m : Script)
    : result Script :=
  match scrs with
  | [] => Ok m
  | scr :: rest =>
      pops ← parseScript scr;
      let m := set_scripts (<[Z.to_nat i := pops]> (scripts m)) m in
      (* if the first scripts(s) are empty, must set the PC to the next script *)
      let m := if len scr =? 0 then set_scriptidx (i + 1) m else m in
      parseScripts (i + 1) rest m
  end.

(** [for i, _ := range tx.TxIn { tx.TxIn[i].SignatureScript = []byte{} }]:
    a write through every input pointer of the transaction passed in. *)
Fixpoint blankSignatureScripts (ptrs : list nat) (cells : list TxIn)
    : result (list TxIn) :=
  match ptrs with
  | [] => Ok cells
  | p :: rest =>
      c ← deref cells p;
      blankSignatureScripts rest (<[p := setSignatureScript c []]> cells)
  end.

Definition NewScript (scriptSig scriptPubKey : list byte) (txidx' : Z)
    (tx' : MsgTx) (pver' : Z) (bip16' : bool) (h : heap)
    : result (Script * heap) :=
  let scrs := [scriptSig; scriptPubKey] in
  let m := mkScript (replicate (length scrs) []) 0 0 0 [] []
             (mkMsgTx 0 [] [] 0) 0 0 [] 0 false [] in
  m ← parseScripts 0 scrs m;
  pk ← index (scripts m) 1;
  m ← (if bip16' && isScriptHash pk then
         (* if we are pay to scripthash then we only accept input scripts
            that push data *)
         sg ← index (scripts m) 0;
         if negb (isPushOnly sg) then Err ErrPayToScriptHashNonPushOnly
         else Ok (set_bip16 true m)
       else Ok m);
  cells ← blankSignatureScripts (tx_TxIn tx') (txins h);
  let h := mkHeap cells (txouts h) in
  Ok (mkScript (scripts m) (scriptidx m) (scriptoff m) (lastcodesep m)
        (dstack m) (astack m) tx' txidx' pver' [OpCondTrue] (numOps m)
        (bip16 m) (savedFirstStack m),
      h).

(** ** calcScriptHash *)

(** A copy of every cell behind [ptrs] into a newly allocated cell, and the
    pointers to the new cells: [var c T; c = *p; .. &c] for each [p]. *)
Fixpoint copyCells {A} (ptrs : list nat) (cells : list A)
    : result (list nat * list A) :=
  match ptrs with
  | [] => Ok ([], cells)
  | p :: rest =>
      c ← deref cells p;
      '(ps, cells') ← copyCells rest (cells ++ [c]);
      Ok (length cells :: ps, cells')
  end.

(** Modelled from the spec: [MsgTx.Copy] of btcwire makes a deep copy; every
    input and output of the copy is a newly allocated cell with the contents
    of the original. *)
Definition Copy (t : MsgTx) (h : heap) : result (MsgTx * heap) :=
  '(ins, icells) ← copyCells (tx_TxIn t) (txins h);
  '(outs, ocells) ← copyCells (tx_TxOut t) (txouts h);
  Ok (mkMsgTx (Version t) ins outs (LockTime t), mkHeap icells ocells).

(** The first loop of [calcScriptHash], from index [i] on: the input is
    copied into a new cell [txIn], the slot is pointed at that cell, and the
    signature script of the cell is set to [sig] at index [txidx] and
    blanked elsewhere (the write goes through the slot just redirected, so
    it lands in the new cell). *)
Fixpoint resetInputs (i : nat) (txidx : Z) (sig : list byte)
    (ptrs : list nat) (cells : list TxIn) : result (list nat * list TxIn) :=
  match ptrs with
  | [] => Ok ([], cells)
  | p :: rest =>
      txIn ← deref cells p;
      let txIn := setSignatureScript txIn
                    (if Z.of_nat i =? txidx then sig else []) in
      '(ps, cells') ← resetInputs (S i) txidx sig rest (cells ++ [txIn]);
      Ok (length cells :: ps, cells')
  end.

(** [for i := range txCopy.TxIn { if i != txidx { txCopy.TxIn[i].Sequence = 0 } }] *)
Fixpoint zeroSequences (i : nat) (txidx : Z) (ptrs : list nat)
    (cells : list TxIn) : result (list TxIn) :=
  match ptrs with
  | [] => Ok cells
  | p :: rest =>
      if negb (Z.of_nat i =? txidx) then
        c ← deref cells p;
        zeroSequences (S i) txidx rest (<[p := setSequence c 0]> cells)
      else zeroSequences (S i) txidx rest cells
  end.

(** [for i := 0; i < txidx; i++ { txCopy.TxOut[i].Value = -1;
    txCopy.TxOut[i].PkScript = []byte{} }], from index [i] on. *)
Fixpoint blankOutputs (i : nat) (txidx : Z) (ptrs : list nat)
    (cells : list TxOut) : result (list TxOut) :=
  if Z.of_nat i <? txidx then
    match ptrs with
    | [] => Panic
    | p :: rest =>
        _ ← deref cells p;
        blankOutputs (S i) txidx rest (<[p := mkTxOut (-1) []]> cells)
    end
  else Ok cells.

(** The transaction as the wire encoder sees it: the cells behind the
    pointers. *)
Record wireTx : Type := mkWireTx {
  w_Version : Z;
  w_TxIn : list TxIn;
  w_TxOut : list TxOut;
  w_LockTime : Z
}.

Fixpoint derefAll {A} (cells : list A) (ptrs : list nat) : result (list A) :=
  match ptrs with
  | [] => Ok []
  | p :: rest => c ← deref cells p; cs ← derefAll cells rest; Ok (c :: cs)
  end.

Definition readTx (h : heap) (t : MsgTx) : result wireTx :=
  ins ← derefAll (txins h) (tx_TxIn t);
  outs ← derefAll (txouts h) (tx_TxOut t);
  Ok (mkWireTx (Version t) ins outs (LockTime t)).

(** [calcScriptHash] up to the serialization: the transaction copy that is
    hashed, and the memory after the call. *)
Definition calcScriptHashCopy (s : Script) (script : list parsedOpcode)
    (hashType : byte) (h : heap) : result (MsgTx * heap) :=
  (* remove all instances of OP_CODESEPARATOR still left in the script *)
  let script := removeOpcode script OP_CODESEPARATOR in
  (* Make a deep copy of the transaction, zeroing out the script for all
     inputs that are not currently being processed. *)
  '(txCopy, h) ← Copy (tx s) h;
  let txidx := txidx s in
  '(ins, icells) ← resetInputs 0 txidx (unparseScript script)
                     (tx_TxIn txCopy) (txins h);
  (* Default behaviour has all outputs set up. *)
  '(outs, ocells) ← copyCells (tx_TxOut txCopy) (txouts h);
  '(ins, icells, outs, ocells) ←
    (if Z.land (bval hashType) 31 =? SigHashNone then
       outs ← slice outs 0 0;
       icells ← zeroSequences 0 txidx ins icells;
       Ok (ins, icells, outs, ocells)
     else if Z.land (bval hashType) 31 =? SigHashSingle then
       (* resize output array to up to and including current output *)
       outs ← slice outs 0 (txidx + 1);
       ocells ← blankOutputs 0 txidx outs ocells;
       icells ← zeroSequences 0 txidx ins icells;
       Ok (ins, icells, outs, ocells)
     else Ok (ins, icells, outs, ocells));
  ins ← (if negb (Z.land (bval hashType) SigHashAnyOneCanPay =? 0)
         then slice ins txidx (txidx + 1) else Ok ins);
  Ok (mkMsgTx (Version txCopy) ins outs (LockTime txCopy),
      mkHeap icells ocells).

Section SigHash.

(** The wire encoding of a transaction at a protocol version (btcwire's
    [BtcEncode]) and the double SHA-256, both external. *)
Variable BtcEncode : wireTx -> Z -> list byte.
Variable DoubleSha256 : list byte -> list byte.

Definition calcScriptHash (s : Script) (script : list parsedOpcode)
    (hashType : byte) (h : heap) : result (list byte * heap) :=
  '(txCopy, h') ← calcScriptHashCopy s script hashType h;
  w ← readTx h' txCopy;
  (* Append LE 4 bytes hash type *)
  Ok (DoubleSha256 (BtcEncode w (pver s) ++ leBytes 4 (bval hashType)), h').

End SigHash.

(** Every pointer refers to a cell. *)
Definition validPtrs {A} (cells : list A) (ptrs : list nat) : Prop :=
  Forall (fun p => (p < length cells)%nat) ptrs.

(** The cells behind a list of pointers. *)
Definition cellsAt {A} (cells : list A) (ptrs : list nat) : list A :=
  omap (fun p => cells !! p) ptrs.

(** The inputs after the first loop of [calcScriptHash], as values. *)
Fixpoint resetCells (i : nat) (txidx' : Z) (sig : list byte)
    (cs : list TxIn) : list TxIn :=
  match cs with
  | [] => []
  | c :: rest =>
      setSignatureScript c (if Z.of_nat i =? txidx' then sig else [])
      :: resetCells (S i) txidx' sig rest
  end.

(** The inputs after the sequence numbers of all but input [txidx'] are set
    to 0, as values. *)
Fixpoint zeroCells (i : nat) (txidx' : Z) (cs : list TxIn) : list TxIn :=
  match cs with
  | [] => []
  | c :: rest =>
      (if Z.of_nat i =? txidx' then c else setSequence c 0)
      :: zeroCells (S i) txidx' rest
  end.

(** Input [i] of the transaction copy in the None mode, from the input
    [c] of the engine's transaction: input [txidx'] gets the signature
    script [sig], every other input an empty signature script and sequence
    number 0. *)
Definition noneInput (txidx' : Z) (sig : list byte) (i : nat) (c : TxIn) : TxIn :=
  if Z.of_nat i =? txidx' then setSignatureScript c sig
  else setSequence (setSignatureScript c []) 0.

(** ** Sample data *)

(** A transaction with two inputs and two outputs, and the memory holding
    them. *)
Definition exampleHeap : heap :=
  mkHeap [mkTxIn (mkOutPoint [x01] 0) [OP_1] 4294967295;
          mkTxIn (mkOutPoint [x02] 1) [OP_1; OP_1] 4294967295]
         [mkTxOut 5000 [OP_1]; mkTxOut 7000 [OP_DUP]].

Definition exampleTx : MsgTx := mkMsgTx 1 [0%nat; 1%nat] [0%nat; 1%nat] 0.

(** Executors that know no opcode beyond the modelled ones, for running
    sample scripts. *)
Definition opfuncNone : parsedOpcode -> Script -> result Script :=
  fun _ _ => Err StackErrInvalidOpcode.

(** The same two inputs with the first output only. *)
Definition singleOutputTx : MsgTx := mkMsgTx 1 [0%nat; 1%nat] [0%nat] 0.

(** The pay-to-script-hash pubkey script OP_HASH160 <20 bytes> OP_EQUAL. *)
Definition p2shPkScript : list byte :=
  [OP_HASH160; OP_DATA_20] ++ replicate 20 x00 ++ [OP_EQUAL].

(** ** More of script.go *)

(** The standard types of script. *)
Inductive scriptType : Type :=
| pubKeyTy        (* Pay pubkey. *)
| pubKeyHashTy    (* Pay pubkey hash. *)
| scriptHashTy    (* Pay to script hash. *)
| multiSigTy      (* Multi signature. *)
| nonStandardTy.  (* None of the above. *)

(** [f(pops[i].opcode.value)]; every use below sits behind a length test
    that keeps [i] in range. *)
Definition valueTest (pops : list parsedOpcode) (i : nat) (f : Z -> bool) : bool :=
  match valueAt pops i with
  | Some v => f v
  | None => false
  end.

(** [isPubkey] *)
Definition isPubkey (pops : list parsedOpcode) : bool :=
  (len pops =? 2) &&
  valueTest pops 0 (fun v => v >? bval OP_FALSE) &&
  valueTest pops 0 (fun v => v <=? bval OP_DATA_75) &&
  valueTest pops 1 (fun v => v =? bval OP_CHECKSIG).

(** [isPubkeyHash] *)
Definition isPubkeyHash (pops : list parsedOpcode) : bool :=
  (len pops =? 5) &&
  valueTest pops 0 (fun v => v =? bval OP_DUP) &&
  valueTest pops 1 (fun v => v =? bval OP_HASH160) &&
  valueTest pops 2 (fun v => v =? bval OP_DATA_20) &&
  valueTest pops 3 (fun v => v =? bval OP_EQUALVERIFY) &&
  valueTest pops 4 (fun v => v =? bval OP_CHECKSIG).

(** The loop of [isMultiSig] over [pops[1 : l-2]]: valid pubkeys are either
    65 or 33 bytes. *)
Fixpoint pubkeysSized (pops : list parsedOpcode) : bool :=
  match pops with
  | [] => true
  | pop :: rest =>
      if negb (len (data pop) =? 33) && negb (len (data pop) =? 65)
      then false
      else pubkeysSized rest
  end.

(** [isMultiSig]; the indices [0], [l-2], [l-1] and the slice [1 : l-2] are
    in range once [l < 4] is excluded. *)
Definition isMultiSig (pops : list parsedOpcode) : bool :=
  let l := len pops in
  (* absolute minimum is 1 pubkey so OP_1-16, pubkey, OP_1, OP_CHECK_MULTISIG *)
  if l <? 4 then false
  else if valueTest pops 0 (fun v => (v <? bval OP_1) || (v >? bval OP_16))
  then false
  else if valueTest pops (Z.to_nat (l - 2))
            (fun v => (v <? bval OP_1) || (v >? bval OP_16))
  then false
  else if valueTest pops (Z.to_nat (l - 1))
            (fun v => negb (v =? bval OP_CHECK_MULTISIG))
  then false
  else pubkeysSized (take (Z.to_nat (l - 2 - 1)) (drop 1 pops)).

(** [typeOfScript] *)
Definition typeOfScript (pops : list parsedOpcode) : scriptType :=
  if isPubkey pops then pubKeyTy
  else if isPubkeyHash pops then pubKeyHashTy
  else if isScriptHash pops then scriptHashTy
  else if isMultiSig pops then multiSigTy
  else nonStandardTy.

(** [curPC] *)
Definition curPC (m : Script) : result (Z * Z) :=
  _ ← validPC m; Ok (scriptidx m, scriptoff m).

Definition set_astack (v : Stack) (m : Script) : Script :=
  mkScript (scripts m) (scriptidx m) (scriptoff m) (lastcodesep m) (dstack m) v
    (tx m) (txidx m) (pver m) (condStack m) (numOps m) (bip16 m)
    (savedFirstStack m).

(** [GetAltStack] and [SetAltStack] *)
Definition GetAltStack (s : Script) : list (list byte) := getStack (astack s).
Definition SetAltStack (s : Script) (d : list (list byte)) : Script :=
  set_astack (setStack (astack s) d) s.

(** [TstSetPC] of the test file. *)
Definition TstSetPC (script off : Z) (s : Script) : Script :=
  set_scriptoff off (set_scriptidx script s).

(** [TstRemoveOpcode] and [TstRemoveOpcodeByData] of the test file: parse,
    remove, serialize.  (The test file passes on an error of
    [unparseScript]; the [unparseScript] of script.go has none.) *)
Definition TstRemoveOpcode (pkscript : list byte) (opcode' : byte)
    : result (list byte) :=
  pops ← parseScript pkscript;
  Ok (unparseScript (removeOpcode pops opcode')).

Definition TstRemoveOpcodeByData (pkscript : list byte) (d : list byte)
    : result (list byte) :=
  pops ← parseScript pkscript;
  Ok (unparseScript (removeOpcodeByData pops d)).

(** What [parseScript] promises of a parsed opcode: its descriptor is the
    table's for its byte value, and its data is empty for encoded length 1,
    has N-1 bytes for encoded length N > 1, and at most
    [MaxScriptElementSize] bytes for a negative encoded length. *)
Definition parsedShape (pop : parsedOpcode) : Prop :=
  opcodemap (op_value (pop_opcode pop)) = Some (pop_opcode pop)
  /\ (op_length (pop_opcode pop) = 1 -> data pop = [])
  /\ (op_length (pop_opcode pop) > 1 ->
      len (data pop) = op_length (pop_opcode pop) - 1)
  /\ (op_length (pop_opcode pop) < 0 ->
      len (data pop) <= MaxScriptElementSize).

(** A parsed opcode that [parseScript] gives back from its serialization:
    the table's descriptor for its byte value, and data of the length the
    descriptor calls for, which behind a K-byte length prefix is a length of
    at most [MaxScriptElementSize] that fits in K bytes. *)
Definition reparsable (pop : parsedOpcode) : Prop :=
  opcodemap (op_value (pop_opcode pop)) = Some (pop_opcode pop)
  /\ (op_length (pop_opcode pop) = 1 -> data pop = [])
  /\ (op_length (pop_opcode pop) > 1 ->
      len (data pop) = op_length (pop_opcode pop) - 1)
  /\ (op_length (pop_opcode pop) < 0 ->
      len (data pop) <= MaxScriptElementSize
      /\ len (data pop) < 256 ^ (- op_length (pop_opcode pop))).

(** The last opcode of the sequence is not a length-prefixed push of the
    empty string. *)
Definition endsInData (pops : list parsedOpcode) : Prop :=
  match last pops with
  | Some pop => op_length (pop_opcode pop) < 0 -> data pop <> []
  | None => True
  end.


(** The scripts, the program counter and the pay-to-script-hash flag of two
    engine states agree. *)
Definition samePC (s s' : Script) : Prop :=
  scripts s' = scripts s /\ scriptidx s' = scriptidx s
  /\ scriptoff s' = scriptoff s /\ bip16 s' = bip16 s.

(** Executors that leave the scripts, the program counter and the
    pay-to-script-hash flag alone: [Step] is the only one to move them. *)
Definition keepsPC (f : parsedOpcode -> Script -> result Script) : Prop :=
  forall pop s s', f pop s = Ok s' -> samePC s s'.

(** The opcodes from the program counter to the end of the last script. *)
Definition remaining (m : Script) : Z :=
  len (concat (drop (Z.to_nat (scriptidx m)) (scripts m))) - scriptoff m.

(** No script is appended any more: the engine is not in pay-to-script-hash
    mode, or it is beyond the pubkey script. *)
Definition pastHandOver (m : Script) : Prop :=
  bip16 m = false \/ 2 <= scriptidx m.


(** The outputs after the loop of the Single mode, as values: the outputs
    before index [txidx'] hold the value -1 and an empty script. *)
Fixpoint blankCells (i : nat) (txidx' : Z) (cs : list TxOut) : list TxOut :=
  match cs with
  | [] => []
  | c :: rest =>
      (if Z.of_nat i <? txidx' then mkTxOut (-1) [] else c)
      :: blankCells (S i) txidx' rest
  end.

(** The transaction that [calcScriptHash] serializes, on values: from the
    inputs [I0] and outputs [O0] of the engine's transaction and the
    serialized script [sig], by hash type. *)
Definition hashedTx (version lockTime txidx' : Z) (sig : list byte)
    (hashType : byte) (I0 : list TxIn) (O0 : list TxOut) : result wireTx :=
  '(outs, ins) ←
    (if Z.land (bval hashType) 31 =? SigHashNone then
       Ok ([], zeroCells 0 txidx' (resetCells 0 txidx' sig I0))
     else if Z.land (bval hashType) 31 =? SigHashSingle then
       outs ← slice (blankCells 0 txidx' O0) 0 (txidx' + 1);
       Ok (outs, zeroCells 0 txidx' (resetCells 0 txidx' sig I0))
     else Ok (O0, resetCells 0 txidx' sig I0));
  ins ← (if negb (Z.land (bval hashType) SigHashAnyOneCanPay =? 0)
         then slice ins txidx' (txidx' + 1) else Ok ins);
  Ok (mkWireTx version ins outs lockTime).

(** The digest alone. *)
Definition digestOf (r : result (list byte * heap)) : result (list byte) :=
  '(d, _) ← r; Ok d.


(** Input [i] of the transaction copy in the All mode, from the input [c]
    of the engine's transaction: input [txidx'] gets the signature script
    [sig], every other input an empty one; nothing else changes. *)
Definition allInput (txidx' : Z) (sig : list byte) (i : nat) (c : TxIn) : TxIn :=
  setSignatureScript c (if Z.of_nat i =? txidx' then sig else []).


(** * Properties *)

(** ** Bytes *)

Lemma bval_range (b : byte) : 0 <= bval b < 256.
Proof.
  unfold bval. pose proof (Byte.to_N_bounded b). lia.
Qed.

Lemma byteOf_bval (b : byte) : byteOf (bval b) = b.
Proof.
  unfold byteOf. pose proof (bval_range b) as Hb.
  rewrite Z.mod_small by lia. unfold bval.
  rewrite N2Z.id, Byte.of_to_N. reflexivity.
Qed.

Lemma bval_byteOf (z : Z) : bval (byteOf z) = z mod 256.
Proof.
  unfold byteOf. pose proof (Z.mod_pos_bound z 256 ltac:(lia)) as Hm.
  destruct (Byte.of_N (Z.to_N (z mod 256))) as [b|] eqn:Hb.
  - apply Byte.to_of_N in Hb. unfold bval. rewrite Hb. lia.
  - apply Byte.of_N_None_iff in Hb. lia.
Qed.

Lemma bval_inj (a b : byte) : bval a = bval b -> a = b.
Proof.
  intros H. rewrite <- (byteOf_bval a), <- (byteOf_bval b). congruence.
Qed.

Lemma bytesEqual_spec (a b : list byte) : bytesEqual a b = true <-> a = b.
Proof.
  revert b. induction a as [|x a IH]; intros [|y b]; simpl; try easy.
  rewrite andb_true_iff, IH. split.
  - intros [Hxy ->]. apply Byte.byte_dec_bl in Hxy. congruence.
  - intros [= -> ->]. split; [apply Byte.byte_dec_lb|]; reflexivity.
Qed.

(** ** Slices *)

Lemma len_nonneg {A} (s : list A) : 0 <= len s.
Proof. unfold len. lia. Qed.

Lemma index_Ok {A} (s : list A) i x :
  index s i = Ok x <-> 0 <= i /\ s !! Z.to_nat i = Some x.
Proof.
  unfold index. destruct (Z.leb_spec 0 i).
  - destruct (s !! Z.to_nat i); split; intros; try easy; intuition congruence.
  - split; [easy | lia].
Qed.

Lemma index_in_range {A} (s : list A) i :
  0 <= i < len s -> exists x, index s i = Ok x /\ s !! Z.to_nat i = Some x.
Proof.
  intros Hi. unfold len in Hi.
  destruct (lookup_lt_is_Some_2 s (Z.to_nat i)) as [x Hx]; [lia|].
  exists x. split; [|exact Hx]. apply index_Ok. split; [lia | exact Hx].
Qed.

Lemma sliceFrom_in_range {A} (s : list A) lo :
  0 <= lo <= len s -> sliceFrom s lo = Ok (drop (Z.to_nat lo) s).
Proof.
  intros H. unfold sliceFrom.
  destruct (Z.leb_spec 0 lo); [|lia]. destruct (Z.leb_spec lo (len s)); [|lia].
  reflexivity.
Qed.

Lemma slice_in_range {A} (s : list A) lo hi :
  0 <= lo <= hi -> hi <= len s ->
  slice s lo hi = Ok (take (Z.to_nat (hi - lo)) (drop (Z.to_nat lo) s)).
Proof.
  intros H1 H2. unfold slice.
  destruct (Z.leb_spec 0 lo); [|lia]. destruct (Z.leb_spec lo hi); [|lia].
  destruct (Z.leb_spec hi (len s)); [|lia]. reflexivity.
Qed.

Lemma slice_0_0 {A} (s : list A) : slice s 0 0 = Ok [].
Proof.
  rewrite slice_in_range by (pose proof (len_nonneg s); lia). reflexivity.
Qed.

Lemma len_drop {A} (s : list A) (n : Z) :
  0 <= n <= len s -> len (drop (Z.to_nat n) s) = len s - n.
Proof. unfold len. rewrite length_drop. lia. Qed.

Lemma len_take {A} (s : list A) (n : Z) :
  0 <= n <= len s -> len (take (Z.to_nat n) s) = n.
Proof. unfold len. rewrite length_take. lia. Qed.

Lemma len_app {A} (s t : list A) : len (s ++ t) = len s + len t.
Proof. unfold len. rewrite length_app. lia. Qed.

(** ** Length prefixes *)

Lemma lor_add_low (a lo n : Z) :
  0 <= n -> 0 <= lo < 2 ^ n -> a mod 2 ^ n = 0 -> Z.lor a lo = a + lo.
Proof.
  intros Hn Hlo Ha. symmetry. apply Z.add_nocarry_lor.
  assert (H2 : 0 < 2 ^ n) by (apply Z.pow_pos_nonneg; lia).
  rewrite (Z.div_mod a (2 ^ n)) by lia. rewrite Ha, Z.add_0_r, Z.mul_comm.
  apply Z.bits_inj'. intros k Hk. rewrite Z.land_spec, Z.bits_0.
  destruct (Z.ltb_spec k n).
  - rewrite Z.mul_pow2_bits_low by lia. reflexivity.
  - destruct (Z.eq_dec lo 0) as [->|Hne].
    + rewrite Z.bits_0. apply andb_false_r.
    + rewrite (Z.bits_above_log2 lo k); [apply andb_false_r | lia |].
      assert (Z.log2 lo < n) by (apply Z.log2_lt_pow2; lia). lia.
Qed.

Lemma byteOf_eq (z : Z) (b : byte) : z mod 256 = bval b -> byteOf z = b.
Proof.
  intros H. apply bval_inj. rewrite bval_byteOf. exact H.
Qed.

Ltac znat_consts :=
  change (Z.to_nat 0) with 0%nat in *; change (Z.to_nat 1) with 1%nat in *;
  change (Z.to_nat 2) with 2%nat in *; change (Z.to_nat 3) with 3%nat in *;
  change (Z.to_nat 4) with 4%nat in *.

Ltac pow2_consts :=
  change (2 ^ 8) with 256 in *; change (2 ^ 16) with 65536 in *;
  change (2 ^ 24) with 16777216 in *; change (2 ^ 32) with 4294967296 in *.

Lemma scriptUInt8_Ok (tl : list byte) (l : Z) :
  scriptUInt8 tl = Ok l ->
  1 < len tl /\ 0 <= l < 2 ^ 8 /\ leBytes 1 l = take 1 tl.
Proof.
  unfold scriptUInt8. destruct (Z.leb_spec (len tl) 1); [easy|].
  destruct tl as [|b0 tl]; [easy|]. cbn. intros [= <-].
  pose proof (bval_range b0). split; [lia|]. split; [lia|].
  unfold leBytes. cbn. rewrite Z.shiftr_0_r, byteOf_bval. reflexivity.
Qed.

Lemma scriptUInt16_Ok (tl : list byte) (l : Z) :
  scriptUInt16 tl = Ok l ->
  2 < len tl /\ 0 <= l < 2 ^ 16 /\ leBytes 2 l = take 2 tl.
Proof.
  unfold scriptUInt16. destruct (Z.leb_spec (len tl) 2); [easy|].
  destruct tl as [|b0 [|b1 tl]]; try easy. cbn. intros [= <-].
  pose proof (bval_range b0). pose proof (bval_range b1).
  rewrite Z.shiftl_mul_pow2 by lia. pow2_consts.
  rewrite (lor_add_low _ _ 8) by (pow2_consts; Z.div_mod_to_equations; lia).
  split; [lia|]. split; [lia|].
  unfold leBytes. cbn. rewrite Z.shiftr_0_r, Z.shiftr_div_pow2 by lia.
  pow2_consts.
  f_equal; [|f_equal]; apply byteOf_eq; Z.div_mod_to_equations; lia.
Qed.

Lemma scriptUInt32_Ok (tl : list byte) (l : Z) :
  scriptUInt32 tl = Ok l ->
  4 < len tl /\ 0 <= l < 2 ^ 32 /\ leBytes 4 l = take 4 tl.
Proof.
  unfold scriptUInt32. destruct (Z.leb_spec (len tl) 4); [easy|].
  destruct tl as [|b0 [|b1 [|b2 [|b3 tl]]]]; try easy. cbn. intros [= <-].
  pose proof (bval_range b0). pose proof (bval_range b1).
  pose proof (bval_range b2). pose proof (bval_range b3).
  rewrite !Z.shiftl_mul_pow2 by lia. pow2_consts.
  rewrite (lor_add_low (bval b3 * 16777216) _ 24)
    by (change (2 ^ 24) with 16777216; Z.div_mod_to_equations; lia).
  rewrite (lor_add_low _ (bval b1 * 256) 16)
    by (change (2 ^ 16) with 65536; Z.div_mod_to_equations; lia).
  rewrite (lor_add_low _ (bval b0) 8)
    by (change (2 ^ 8) with 256; Z.div_mod_to_equations; lia).
  split; [lia|]. split; [lia|].
  unfold leBytes. cbn. rewrite Z.shiftr_0_r, !Z.shiftr_div_pow2 by lia.
  pow2_consts.
  f_equal; [|f_equal; [|f_equal; [|f_equal]]]; apply byteOf_eq;
    Z.div_mod_to_equations; lia.
Qed.

(** ** parseScript *)

Lemma opcodeLength_cases (b : byte) :
  opcodeLength b = 1 \/ (1 < opcodeLength b <= 76) \/
  opcodeLength b = -1 \/ opcodeLength b = -2 \/ opcodeLength b = -4.
Proof.
  unfold opcodeLength. cbv zeta.
  destruct (Z.leb_spec 1 (bval b)), (Z.leb_spec (bval b) 75); cbn [andb];
    try lia;
    destruct (Z.eqb_spec (bval b) 76); try lia;
    destruct (Z.eqb_spec (bval b) 77); try lia;
    destruct (Z.eqb_spec (bval b) 78); lia.
Qed.

Lemma drop_lookup_cons {A} (s : list A) (n : nat) (x : A) :
  s !! n = Some x -> drop n s = x :: drop (S n) s.
Proof. intros H. apply drop_S. exact H. Qed.

Ltac rsimpl := cbn [mbind result_bind mret result_ret] in *.

Lemma take_S_cons {A} (x : A) (l : list A) (n : nat) :
  take (S n) (x :: l) = x :: take n l.
Proof. reflexivity. Qed.

(** The serialization of a length-prefixed push read back from the script. *)
Lemma pushdata_bytes (script : list byte) (i k l : Z) (instr : byte) :
  0 <= i -> 0 < k -> 0 <= l ->
  i + 1 + k + l <= len script ->
  script !! Z.to_nat i = Some instr ->
  leBytes (Z.to_nat k) l = take (Z.to_nat k) (drop (Z.to_nat (i + 1)) script) ->
  instr :: leBytes (Z.to_nat k) l
    ++ take (Z.to_nat l) (drop (Z.to_nat (i + 1 + k)) script)
  = take (Z.to_nat (1 + k + l)) (drop (Z.to_nat i) script).
Proof.
  intros Hi Hk Hl Hlen Hinstr Hle.
  rewrite (drop_lookup_cons _ _ _ Hinstr).
  replace (Z.to_nat (1 + k + l)) with (S (Z.to_nat k + Z.to_nat l)) by lia.
  rewrite take_S_cons. f_equal.
  replace (S (Z.to_nat i)) with (Z.to_nat (i + 1)) by lia.
  rewrite Hle.
  replace (Z.to_nat (i + 1 + k)) with (Z.to_nat (i + 1) + Z.to_nat k)%nat by lia.
  rewrite <- drop_drop.
  set (t := drop (Z.to_nat (i + 1)) script).
  rewrite <- (take_drop (Z.to_nat k) t) at 3.
  rewrite take_app_add'; [reflexivity|].
  rewrite length_take. subst t. rewrite length_drop.
  unfold len in Hlen. lia.
Qed.

Lemma parseInstr_Ok (script : list byte) (i i' : Z) (pop : parsedOpcode) :
  0 <= i < len script ->
  parseInstr script i = Ok (pop, i') ->
  i < i' <= len script /\
  bytes pop = take (Z.to_nat (i' - i)) (drop (Z.to_nat i) script) /\
  bytesChecked pop = Ok (bytes pop).
Proof.
  intros Hi. unfold parseInstr.
  destruct (index_in_range script i Hi) as (instr & -> & Hinstr).
  cbn [mbind result_bind opcodemap op_length op_value].
  pose proof (drop_lookup_cons _ _ _ Hinstr) as Hdrop.
  unfold bytesChecked, bytes.
  destruct (opcodeLength_cases instr) as [H1|[HN|HK]].
  - rewrite H1. cbn. intros [= <- <-]. cbn.
    split; [lia|]. split; [|reflexivity].
    replace (Z.to_nat (i + 1 - i)) with 1%nat by lia.
    rewrite Hdrop. reflexivity.
  - destruct (Z.eqb_spec (opcodeLength instr) 1); [lia|].
    destruct (Z.gtb_spec (opcodeLength instr) 1); [|lia].
    rewrite sliceFrom_in_range by lia. rsimpl.
    rewrite len_drop by lia.
    destruct (Z.ltb_spec (len script - i) (opcodeLength instr)); [easy|].
    rewrite slice_in_range by lia. rsimpl. intros [= <- <-].
    cbn [pop_opcode op_length op_value data].
    destruct (Z.eqb_spec (opcodeLength instr) 1); [lia|].
    destruct (Z.gtb_spec (opcodeLength instr) 1); [|lia].
    split; [lia|].
    assert (Hd : instr :: take (Z.to_nat (i + opcodeLength instr - (i + 1)))
                          (drop (Z.to_nat (i + 1)) script)
                 = take (Z.to_nat (i + opcodeLength instr - i))
                     (drop (Z.to_nat i) script)).
    { rewrite Hdrop.
      replace (Z.to_nat (i + opcodeLength instr - i))
        with (S (Z.to_nat (i + opcodeLength instr - (i + 1)))) by lia.
      rewrite take_S_cons.
      replace (S (Z.to_nat i)) with (Z.to_nat (i + 1)) by lia. reflexivity. }
    split; [exact Hd|].
    rewrite len_take by (rewrite len_drop; lia).
    rewrite (proj2 (Z.eqb_eq _ _)) by lia. reflexivity.
  - assert (Hk : exists k, (k = 1 \/ k = 2 \/ k = 4) /\ opcodeLength instr = - k)
      by (destruct HK as [HK|[HK|HK]]; rewrite HK;
          [exists 1|exists 2|exists 4]; lia).
    destruct Hk as (k & Hk & HL). rewrite HL.
    destruct (Z.eqb_spec (- k) 1); [lia|].
    destruct (Z.gtb_spec (- k) 1); [lia|].
    destruct (Z.ltb_spec (- k) 0); [|lia].
    rewrite (sliceFrom_in_range script (i + 1)) by lia. rsimpl.
    set (tl := drop (Z.to_nat (i + 1)) script).
    assert (Hl : forall l,
      (if - k =? -1 then scriptUInt8 tl
       else if - k =? -2 then scriptUInt16 tl
       else if - k =? -4 then scriptUInt32 tl
       else Err ErrInvalidOpcodeLength) = Ok l ->
      k < len tl /\ 0 <= l < 2 ^ (8 * k)
      /\ leBytes (Z.to_nat k) l = take (Z.to_nat k) tl).
    { intros l. destruct Hk as [-> | [-> | ->]]; cbn.
      - apply scriptUInt8_Ok.
      - apply scriptUInt16_Ok.
      - apply scriptUInt32_Ok. }
    destruct (if - k =? -1 then _ else _) as [l| | |]; try easy.
    destruct (Hl l eq_refl) as (Hlen & Hrange & Hle). clear Hl. rsimpl.
    subst tl. rewrite len_drop in Hlen by lia.
    rewrite sliceFrom_in_range by lia. rsimpl.
    rewrite len_drop by lia.
    destruct (Z.gtb_spec l (len script - (i + 1 - - k))); [easy|].
    destruct (Z.gtb_spec l MaxScriptElementSize); [easy|].
    rewrite slice_in_range by lia. rsimpl. intros [= <- <-].
    cbn [pop_opcode op_length op_value data].
    destruct (Z.eqb_spec (- k) 1); [lia|].
    destruct (Z.gtb_spec (- k) 1); [lia|].
    split; [lia|].
    replace (i + 1 - - k + l - (i + 1 - - k)) with l by lia.
    replace (i + 1 - - k) with (i + 1 + k) by lia.
    rewrite len_take by (rewrite len_drop; lia).
    replace (- - k) with k by lia.
    split.
    + replace (i + 1 + k + l - i) with (1 + k + l) by lia.
      apply pushdata_bytes; try lia; assumption.
    + rewrite (proj2 (Z.ltb_lt _ _)) by lia. reflexivity.
Qed.

Lemma scriptUInt_returns (tl : list byte) :
  returns (scriptUInt8 tl) /\ returns (scriptUInt16 tl)
  /\ returns (scriptUInt32 tl).
Proof.
  unfold scriptUInt8, scriptUInt16, scriptUInt32.
  repeat split.
  - destruct (Z.leb_spec (len tl) 1); [exact I|].
    destruct tl as [|b0 tl]; cbn; try exact I; unfold len in *; cbn in *; lia.
  - destruct (Z.leb_spec (len tl) 2); [exact I|].
    destruct tl as [|b0 [|b1 tl]]; cbn; try exact I;
      unfold len in *; cbn in *; lia.
  - destruct (Z.leb_spec (len tl) 4); [exact I|].
    destruct tl as [|b0 [|b1 [|b2 [|b3 tl]]]]; cbn; try exact I;
      unfold len in *; cbn in *; lia.
Qed.

Lemma parseInstr_returns (script : list byte) (i : Z) :
  0 <= i < len script -> returns (parseInstr script i).
Proof.
  intros Hi. unfold parseInstr.
  destruct (index_in_range script i Hi) as (instr & -> & Hinstr).
  cbn [mbind result_bind opcodemap op_length op_value].
  destruct (Z.eqb_spec (opcodeLength instr) 1); [exact I|].
  destruct (Z.gtb_spec (opcodeLength instr) 1).
  - rewrite sliceFrom_in_range by lia. rsimpl. rewrite len_drop by lia.
    destruct (Z.ltb_spec (len script - i) (opcodeLength instr)); [exact I|].
    rewrite slice_in_range by lia. exact I.
  - destruct (Z.ltb_spec (opcodeLength instr) 0); [|exact I].
    rewrite (sliceFrom_in_range script (i + 1)) by lia. rsimpl.
    set (tl := drop (Z.to_nat (i + 1)) script).
    destruct (scriptUInt_returns tl) as (R8 & R16 & R32).
    assert (Hl : forall l,
      (if opcodeLength instr =? -1 then scriptUInt8 tl
       else if opcodeLength instr =? -2 then scriptUInt16 tl
       else if opcodeLength instr =? -4 then scriptUInt32 tl
       else Err ErrInvalidOpcodeLength) = Ok l ->
      - opcodeLength instr < len tl /\ 0 <= l).
    { intros l.
      destruct (Z.eqb_spec (opcodeLength instr) (-1)) as [->|];
        [intros Hu; apply scriptUInt8_Ok in Hu; lia|].
      destruct (Z.eqb_spec (opcodeLength instr) (-2)) as [->|];
        [intros Hu; apply scriptUInt16_Ok in Hu; lia|].
      destruct (Z.eqb_spec (opcodeLength instr) (-4)) as [->|];
        [intros Hu; apply scriptUInt32_Ok in Hu; lia|easy]. }
    assert (Hr : returns
      (if opcodeLength instr =? -1 then scriptUInt8 tl
       else if opcodeLength instr =? -2 then scriptUInt16 tl
       else if opcodeLength instr =? -4 then scriptUInt32 tl
       else Err ErrInvalidOpcodeLength)).
    { repeat case_match; auto; exact I. }
    destruct (if opcodeLength instr =? -1 then _ else _) as [l| | |];
      try easy.
    destruct (Hl l eq_refl) as [Hlen Hl0]. clear Hl. rsimpl.
    subst tl. rewrite len_drop in Hlen by lia.
    rewrite sliceFrom_in_range by lia. rsimpl. rewrite len_drop by lia.
    destruct (Z.gtb_spec l (len script - (i + 1 - opcodeLength instr)));
      [exact I|].
    destruct (Z.gtb_spec l MaxScriptElementSize); [exact I|].
    rewrite slice_in_range by lia. exact I.
Qed.

Lemma unparseScript_acc (pops : list parsedOpcode) (acc : list byte) :
  fold_left (fun script pop => script ++ bytes pop) pops acc
  = acc ++ unparseScript pops.
Proof.
  unfold unparseScript. revert acc.
  induction pops as [|pop pops IH]; intros acc; cbn.
  - rewrite app_nil_r. reflexivity.
  - rewrite IH, (IH (bytes pop)), app_assoc. reflexivity.
Qed.

Lemma unparseScript_cons (pop : parsedOpcode) (pops : list parsedOpcode) :
  unparseScript (pop :: pops) = bytes pop ++ unparseScript pops.
Proof. unfold unparseScript at 1. cbn. apply unparseScript_acc. Qed.

Lemma unparseScript_app (a b : list parsedOpcode) :
  unparseScript (a ++ b) = unparseScript a ++ unparseScript b.
Proof.
  induction a as [|pop a IH]; [reflexivity|].
  rewrite <- app_comm_cons, !unparseScript_cons, IH, app_assoc. reflexivity.
Qed.

(** The invariant of the loop of [parseScript]: what has been parsed
    serializes to the bytes read so far, and every parsed opcode meets the
    contract of serialization. *)
Lemma parseLoop_Ok (fuel : nat) (script : list byte) (i : Z)
    (retScript pops : list parsedOpcode) :
  0 <= i <= len script ->
  parseLoop fuel script i retScript = Ok pops ->
  unparseScript pops = unparseScript retScript ++ drop (Z.to_nat i) script
  /\ (Forall (fun pop => bytesChecked pop = Ok (bytes pop)) retScript ->
      Forall (fun pop => bytesChecked pop = Ok (bytes pop)) pops).
Proof.
  revert i retScript. induction fuel as [|fuel IH]; intros i ret Hi; cbn.
  - destruct (Z.ltb_spec i (len script)); [easy|]. intros [= <-].
    rewrite drop_ge by (unfold len in *; lia). rewrite app_nil_r. auto.
  - destruct (Z.ltb_spec i (len script)).
    + destruct (parseInstr script i) as [[pop i']| | |] eqn:Hp; try easy.
      rsimpl. apply parseInstr_Ok in Hp as (Hi' & Hb & Hc); [|lia].
      intros Hloop. apply IH in Hloop as [Hu Hf]; [|lia]. split.
      * rewrite Hu, unparseScript_app, <- app_assoc. f_equal.
        unfold unparseScript at 1. cbn. rewrite Hb.
        replace (Z.to_nat i') with (Z.to_nat i + Z.to_nat (i' - i))%nat by lia.
        rewrite <- drop_drop. apply take_drop.
      * intros Hret. apply Hf. apply Forall_app. split; [exact Hret|].
        constructor; [exact Hc | constructor].
    + intros [= <-]. rewrite drop_ge by (unfold len in *; lia).
      rewrite app_nil_r. auto.
Qed.

(** [parseScript] always returns: every iteration moves forward, so the
    loop bound is not reached, and no index is out of range. *)
Lemma parseLoop_returns (fuel : nat) (script : list byte) (i : Z)
    (retScript : list parsedOpcode) :
  0 <= i -> len script - i <= Z.of_nat fuel ->
  returns (parseLoop fuel script i retScript).
Proof.
  revert i retScript. induction fuel as [|fuel IH]; intros i ret Hi Hf; cbn.
  - destruct (Z.ltb_spec i (len script)); [lia | exact I].
  - destruct (Z.ltb_spec i (len script)); [|exact I].
    pose proof (parseInstr_returns script i ltac:(lia)) as Hr.
    destruct (parseInstr script i) as [[pop i']| | |] eqn:Hp; try easy.
    rsimpl. apply parseInstr_Ok in Hp as (Hi' & _); [|lia].
    apply IH; lia.
Qed.

Lemma parseScript_returns (script : list byte) : returns (parseScript script).
Proof.
  apply parseLoop_returns; unfold len; lia.
Qed.

(** C5. Parse/unparse round trip: a byte string that [parseScript] accepts
    is given back by [unparseScript] applied to the parsed opcodes. *)
Theorem parseScript_unparseScript (S : list byte) (pops : list parsedOpcode) :
  parseScript S = Ok pops -> unparseScript pops = S.
Proof.
  intros H. apply parseLoop_Ok in H as [H _].
  - exact H.
  - pose proof (len_nonneg S). lia.
Qed.

Lemma parseScript_unparseScript_witness :
  parseScript [x02; x00; x51; x4d; x01; x00; x09; x4c; x00; x61]
  = Ok [mkPop (mkOpcode x02 3) [x00; x51]; mkPop (mkOpcode x4d (-2)) [x09];
        mkPop (mkOpcode x4c (-1)) []; mkPop (mkOpcode x61 1) []]
  /\ unparseScript
       [mkPop (mkOpcode x02 3) [x00; x51]; mkPop (mkOpcode x4d (-2)) [x09];
        mkPop (mkOpcode x4c (-1)) []; mkPop (mkOpcode x61 1) []]
     = [x02; x00; x51; x4d; x01; x00; x09; x4c; x00; x61].
Proof.
  split; [reflexivity|].
  apply (parseScript_unparseScript
           [x02; x00; x51; x4d; x01; x00; x09; x4c; x00; x61]).
  reflexivity.
Defined.

(** Every opcode [parseScript] produces meets the contract of
    serialization. *)
Lemma parseScript_bytesChecked (S : list byte) (pops : list parsedOpcode) :
  parseScript S = Ok pops ->
  Forall (fun pop => bytesChecked pop = Ok (bytes pop)) pops.
Proof.
  intros H. apply parseLoop_Ok in H as [_ H].
  - apply H. constructor.
  - pose proof (len_nonneg S). lia.
Qed.

(** What the readers of the length prefix return: the little-endian value
    of the first K bytes when more than K bytes are left, [ShortScript]
    otherwise. *)
Lemma scriptUInt_value (tl : list byte) (k : Z) :
  k = 1 \/ k = 2 \/ k = 4 ->
  (if - k =? -1 then scriptUInt8 tl
   else if - k =? -2 then scriptUInt16 tl
   else if - k =? -4 then scriptUInt32 tl
   else Err ErrInvalidOpcodeLength)
  = if len tl <=? k then Err StackErrShortScript
    else Ok (leValue (take (Z.to_nat k) tl)).
Proof.
  intros [-> | [-> | ->]]; cbv [Z.opp]; cbn [Z.eqb Pos.eqb].
  - unfold scriptUInt8. destruct (Z.leb_spec (len tl) 1); [reflexivity|].
    destruct tl as [|b0 tl]; [unfold len in *; cbn in *; lia|].
    unfold index; znat_consts; cbn -[bval Z.mul Z.add].
    rewrite take_0. cbn -[bval Z.mul Z.add]. f_equal. lia.
  - unfold scriptUInt16. destruct (Z.leb_spec (len tl) 2); [reflexivity|].
    destruct tl as [|b0 [|b1 tl]]; try (unfold len in *; cbn in *; lia).
    unfold index; znat_consts; cbn -[bval Z.mul Z.add Z.lor Z.shiftl].
    rewrite take_0. cbn -[bval Z.mul Z.add Z.lor Z.shiftl]. f_equal.
    pose proof (bval_range b0). pose proof (bval_range b1).
    rewrite Z.shiftl_mul_pow2 by lia. pow2_consts.
    rewrite (lor_add_low _ _ 8) by (pow2_consts; Z.div_mod_to_equations; lia).
    lia.
  - unfold scriptUInt32. destruct (Z.leb_spec (len tl) 4); [reflexivity|].
    destruct tl as [|b0 [|b1 [|b2 [|b3 tl]]]];
      try (unfold len in *; cbn in *; lia).
    unfold index; znat_consts; cbn -[bval Z.mul Z.add Z.lor Z.shiftl].
    rewrite take_0. cbn -[bval Z.mul Z.add Z.lor Z.shiftl]. f_equal.
    pose proof (bval_range b0). pose proof (bval_range b1).
    pose proof (bval_range b2). pose proof (bval_range b3).
    rewrite !Z.shiftl_mul_pow2 by lia. pow2_consts.
    rewrite (lor_add_low (bval b3 * 16777216) _ 24)
      by (change (2 ^ 24) with 16777216; Z.div_mod_to_equations; lia).
    rewrite (lor_add_low _ (bval b1 * 256) 16)
      by (change (2 ^ 16) with 65536; Z.div_mod_to_equations; lia).
    rewrite (lor_add_low _ (bval b0) 8)
      by (change (2 ^ 8) with 256; Z.div_mod_to_equations; lia).
    lia.
Qed.

(** C4, as the code has it.  At an opcode of encoded length -K whose K-byte
    length prefix is present, with L the little-endian value of the prefix:
    the loop of [parseScript] fails with [ShortScript] when fewer than
    1 + K + L bytes remain including the opcode byte; when at least
    1 + K + L and at least K + 2 bytes remain and L is at most
    [MaxScriptElementSize], the opcode is parsed as a push of the L bytes
    after the prefix and parsing goes on behind them. *)
Theorem parseScript_length_prefixed_push (script : list byte) (i K : Z)
    (instr : byte) :
  0 <= i ->
  script !! Z.to_nat i = Some instr ->
  opcodeLength instr = - K ->
  K = 1 \/ K = 2 \/ K = 4 ->
  K + 1 <= len script - i ->
  let L := leValue (take (Z.to_nat K) (drop (Z.to_nat (i + 1)) script)) in
  (len script - i < 1 + K + L ->
   parseInstr script i = Err StackErrShortScript
   /\ (forall fuel retScript,
         parseLoop (S fuel) script i retScript = Err StackErrShortScript)
   /\ (i = 0 -> parseScript script = Err StackErrShortScript))
  /\ (1 + K + L <= len script - i -> K + 2 <= len script - i ->
      L <= MaxScriptElementSize ->
      parseInstr script i
      = Ok (mkPop (mkOpcode instr (- K))
              (take (Z.to_nat L) (drop (Z.to_nat (i + 1 + K)) script)),
            i + 1 + K + L)).
Proof.
  intros Hi Hinstr HL HK Hr L.
  assert (Hbody : parseInstr script i =
            if len script - (i + 1) <=? K then Err StackErrShortScript
            else if L >? len script - (i + 1 + K) then Err StackErrShortScript
            else if L >? MaxScriptElementSize then Err StackErrElementTooBig
            else
              d ← slice script (i + 1 + K) (i + 1 + K + L);
              Ok (mkPop (mkOpcode instr (- K)) d, i + 1 + K + L)).
  { unfold parseInstr.
    rewrite (proj2 (index_Ok script i instr)) by auto.
    cbn [mbind result_bind opcodemap op_length op_value]. rewrite HL.
    destruct (Z.eqb_spec (- K) 1); [lia|].
    destruct (Z.gtb_spec (- K) 1); [lia|].
    destruct (Z.ltb_spec (- K) 0); [|lia].
    rewrite (sliceFrom_in_range script (i + 1)) by lia. rsimpl.
    rewrite (scriptUInt_value _ K HK). rewrite len_drop by lia.
    destruct (Z.leb_spec (len script - (i + 1)) K); [reflexivity|]. rsimpl.
    replace (i + 1 - - K) with (i + 1 + K) by lia.
    rewrite sliceFrom_in_range by lia. rsimpl. rewrite len_drop by lia.
    reflexivity. }
  assert (HL0 : 0 <= L).
  { subst L. generalize (take (Z.to_nat K) (drop (Z.to_nat (i + 1)) script)).
    intros bs. induction bs as [|b bs IH]; cbn -[Z.mul]; [lia|].
    pose proof (bval_range b). lia. }
  split.
  - intros Hshort.
    assert (Herr : parseInstr script i = Err StackErrShortScript).
    { rewrite Hbody.
      destruct (Z.leb_spec (len script - (i + 1)) K); [reflexivity|].
      destruct (Z.gtb_spec L (len script - (i + 1 + K))); [reflexivity | lia]. }
    split; [exact Herr|].
    assert (Hloop : forall fuel retScript,
               parseLoop (S fuel) script i retScript = Err StackErrShortScript).
    { intros fuel ret. cbn [parseLoop].
      destruct (Z.ltb_spec i (len script)); [|lia].
      rewrite Herr. reflexivity. }
    split; [exact Hloop|].
    intros ->. unfold parseScript.
    destruct (length script) as [|n] eqn:Hn;
      [unfold len in Hr; rewrite Hn in Hr; lia|].
    apply Hloop.
  - intros Hfit Hmin Hmax. rewrite Hbody.
    destruct (Z.leb_spec (len script - (i + 1)) K); [lia|].
    destruct (Z.gtb_spec L (len script - (i + 1 + K))); [lia|].
    destruct (Z.gtb_spec L MaxScriptElementSize); [lia|].
    rewrite slice_in_range by lia. rsimpl.
    replace (i + 1 + K + L - (i + 1 + K)) with L by lia. reflexivity.
Qed.

Lemma parseScript_length_prefixed_push_witness :
  parseScript [OP_PUSHDATA2; x02; x00; x07] = Err StackErrShortScript
  /\ parseInstr [OP_PUSHDATA2; x02; x00; x07; x09; x51] 0
     = Ok (mkPop (mkOpcode OP_PUSHDATA2 (-2)) [x07; x09], 5).
Proof.
  split.
  - destruct (parseScript_length_prefixed_push
                [OP_PUSHDATA2; x02; x00; x07] 0 2 OP_PUSHDATA2)
      as [Hshort _];
      [ lia | reflexivity | reflexivity | right; left; reflexivity
      | unfold len; cbn [length]; lia | ].
    apply Hshort; [vm_compute; reflexivity | reflexivity].
  - destruct (parseScript_length_prefixed_push
                [OP_PUSHDATA2; x02; x00; x07; x09; x51] 0 2 OP_PUSHDATA2)
      as [_ Hok];
      [ lia | reflexivity | reflexivity | right; left; reflexivity
      | unfold len; cbn [length]; lia | ].
    apply Hok; unfold len, MaxScriptElementSize; vm_compute; discriminate.
Defined.

(** The bound of the claim C4 is one short: OP_PUSHDATA1 with the length
    byte 0x01 and no data has K + L = 2 bytes, not fewer, and it is turned
    down with [ShortScript]. *)
Lemma parseScript_K_plus_L_bytes_short :
  parseScript [OP_PUSHDATA1; x01] = Err StackErrShortScript
  /\ opcodeLength OP_PUSHDATA1 = -1
  /\ leValue [x01] = 1
  /\ ~ (len [OP_PUSHDATA1; x01] < 1 + leValue [x01]).
Proof.
  repeat split. unfold len. cbn. lia.
Qed.

(** A length-prefixed push of no data at the very end of a script: the
    length prefix is there, and [scriptUInt8] turns it down. *)
Lemma parseInstr_trailing_empty_push (script : list byte) (i : Z) :
  0 <= i ->
  script !! Z.to_nat i = Some OP_PUSHDATA1 ->
  len script = i + 2 ->
  parseInstr script i = Err StackErrShortScript.
Proof.
  intros Hi Hop Hlen. unfold parseInstr.
  rewrite (proj2 (index_Ok script i OP_PUSHDATA1)) by auto.
  cbn [mbind result_bind opcodemap op_length op_value].
  change (opcodeLength OP_PUSHDATA1) with (-1).
  change (-1 =? 1) with false. change (-1 >? 1) with false.
  change (-1 <? 0) with true. change (-1 =? -1) with true. cbv iota.
  rewrite (sliceFrom_in_range script (i + 1)) by lia. rsimpl.
  unfold scriptUInt8. rewrite len_drop by lia.
  destruct (Z.leb_spec (len script - (i + 1)) 1); [reflexivity | lia].
Qed.

(** The same on whole scripts: OP_PUSHDATA1 0x00, a push of the empty string
    with its length prefix complete, is turned down with [ShortScript] at
    the end of a script, and so are the two-byte and four-byte forms; with
    one more byte behind it the push parses. *)
Lemma parseScript_trailing_empty_push :
  parseScript [OP_PUSHDATA1; x00] = Err StackErrShortScript
  /\ parseScript [OP_PUSHDATA2; x00; x00] = Err StackErrShortScript
  /\ parseScript [OP_PUSHDATA4; x00; x00; x00; x00] = Err StackErrShortScript
  /\ parseScript [OP_PUSHDATA1; x00; OP_1]
     = Ok [mkPop (mkOpcode OP_PUSHDATA1 (-1)) []; mkPop (mkOpcode OP_1 1) []].
Proof. repeat split. Qed.

(** ** removeOpcodeByData *)

Lemma removeOpcodeByData_acc (pkscript acc : list parsedOpcode) (d : list byte) :
  fold_left
    (fun retScript pop =>
       if negb (bytesEqual (data pop) d) then retScript ++ [pop] else retScript)
    pkscript acc
  = acc ++ List.filter (fun pop => negb (bytesEqual (data pop) d)) pkscript.
Proof.
  revert acc. induction pkscript as [|pop rest IH]; intros acc; cbn.
  - rewrite app_nil_r. reflexivity.
  - rewrite IH. destruct (negb (bytesEqual (data pop) d)).
    + rewrite <- app_assoc. reflexivity.
    + reflexivity.
Qed.

(** C10. [removeOpcodeByData] looks at the data field alone: it keeps, in
    order, exactly the parsed opcodes whose data differs from [D]; an opcode
    is in the result iff it is in the script and its data is not [D].  With
    the empty [D], every opcode without immediate data goes, OP_CODESEPARATOR
    and OP_CHECKSIG among them. *)
Theorem removeOpcodeByData_filters_on_data :
  (forall (pkscript : list parsedOpcode) (D : list byte),
      removeOpcodeByData pkscript D
      = List.filter (fun pop => negb (bytesEqual (data pop) D)) pkscript)
  /\ (forall (pkscript : list parsedOpcode) (D : list byte) (pop : parsedOpcode),
        In pop (removeOpcodeByData pkscript D) <-> In pop pkscript /\ data pop <> D)
  /\ (forall (pkscript : list parsedOpcode),
        Forall (fun pop => data pop <> []) (removeOpcodeByData pkscript []))
  /\ removeOpcodeByData
       [mkPop (mkOpcode OP_CODESEPARATOR 1) []; mkPop (mkOpcode OP_DATA_1 2) [x07];
        mkPop (mkOpcode OP_CHECKSIG 1) []; mkPop (mkOpcode OP_0 1) []] []
     = [mkPop (mkOpcode OP_DATA_1 2) [x07]].
Proof.
  assert (Hf : forall pkscript D,
             removeOpcodeByData pkscript D
             = List.filter (fun pop => negb (bytesEqual (data pop) D)) pkscript).
  { intros. unfold removeOpcodeByData. apply removeOpcodeByData_acc. }
  assert (Hin : forall pkscript D pop,
             In pop (removeOpcodeByData pkscript D)
             <-> In pop pkscript /\ data pop <> D).
  { intros. rewrite Hf, filter_In, negb_true_iff.
    rewrite <- not_true_iff_false, bytesEqual_spec. reflexivity. }
  split; [exact Hf|]. split; [exact Hin|]. split; [|reflexivity].
  intros pkscript. apply Forall_forall. intros pop Hp.
  apply list_elem_of_In, Hin in Hp. tauto.
Qed.

(** ** NewScript *)

Lemma NewScript_parsed (scriptSig scriptPubKey : list byte) (txidx' : Z)
    (tx' : MsgTx) (pver' : Z) (bip16' : bool) (h : heap)
    (pops0 pops1 : list parsedOpcode) :
  parseScript scriptSig = Ok pops0 ->
  parseScript scriptPubKey = Ok pops1 ->
  NewScript scriptSig scriptPubKey txidx' tx' pver' bip16' h =
  if bip16' && isScriptHash pops1 && negb (isPushOnly pops0)
  then Err ErrPayToScriptHashNonPushOnly
  else
    cells ← blankSignatureScripts (tx_TxIn tx') (txins h);
    Ok (mkScript [pops0; pops1]
          (if len scriptPubKey =? 0 then 2
           else if len scriptSig =? 0 then 1 else 0)
          0 0 [] [] tx' txidx' pver' [OpCondTrue] 0
          (bip16' && isScriptHash pops1) [],
        mkHeap cells (txouts h)).
Proof.
  intros H0 H1. unfold NewScript, parseScripts.
  rewrite H0. rsimpl. rewrite H1. rsimpl.
  change (Z.to_nat (0 + 1)) with 1%nat. change (Z.to_nat 0) with 0%nat.
  destruct (len scriptSig =? 0), (len scriptPubKey =? 0), bip16',
    (isScriptHash pops1) eqn:Hsh, (isPushOnly pops0) eqn:Hpo;
    cbn; change (Z.to_nat 1) with 1%nat; change (Z.to_nat 0) with 0%nat;
    cbn; rewrite ?Hsh; cbn; rewrite ?Hpo; cbn; reflexivity.
Qed.

Lemma NewScript_Ok_parsed (scriptSig scriptPubKey : list byte) (txidx' : Z)
    (tx' : MsgTx) (pver' : Z) (bip16' : bool) (h h' : heap) (m : Script) :
  NewScript scriptSig scriptPubKey txidx' tx' pver' bip16' h = Ok (m, h') ->
  exists pops0 pops1,
    parseScript scriptSig = Ok pops0 /\ parseScript scriptPubKey = Ok pops1.
Proof.
  unfold NewScript, parseScripts.
  destruct (parseScript scriptSig) as [pops0| | |]; try easy. rsimpl.
  destruct (parseScript scriptPubKey) as [pops1| | |]; try easy.
  intros _. eauto.
Qed.

Lemma blankSignatureScripts_spec (ptrs : list nat) (cells : list TxIn) :
  validPtrs cells ptrs ->
  exists cells',
    blankSignatureScripts ptrs cells = Ok cells'
    /\ length cells' = length cells
    /\ (forall p, p ∈ ptrs ->
          cells' !! p = (fun c => setSignatureScript c []) <$> cells !! p)
    /\ (forall p, p ∉ ptrs -> cells' !! p = cells !! p).
Proof.
  unfold validPtrs. revert cells.
  induction ptrs as [|q rest IH]; intros cells Hv; cbn.
  - exists cells. repeat split; auto. intros p Hp. inversion Hp.
  - apply Forall_cons in Hv as [Hq Hrest].
    destruct (lookup_lt_is_Some_2 cells q Hq) as [c Hc].
    unfold deref. rewrite Hc. rsimpl.
    destruct (IH (<[q := setSignatureScript c []]> cells)) as (cells' & Hb & Hl & Hin & Hout).
    { rewrite length_insert. exact Hrest. }
    exists cells'. split; [exact Hb|]. rewrite length_insert in Hl.
    split; [exact Hl|]. split.
    + intros p Hp. destruct (decide (p ∈ rest)) as [Hr|Hr].
      * rewrite (Hin p Hr). destruct (decide (q = p)) as [->|Hne].
        -- rewrite list_lookup_insert_eq by exact Hq. rewrite Hc. reflexivity.
        -- rewrite list_lookup_insert_ne by exact Hne.
           destruct (cells !! p); reflexivity.
      * rewrite (Hout p Hr). apply elem_of_cons in Hp as [->|Hp]; [|contradiction].
        rewrite list_lookup_insert_eq by exact Hq. rewrite Hc. reflexivity.
    + intros p Hp. apply not_elem_of_cons in Hp as [Hne Hr].
      rewrite (Hout p Hr). apply list_lookup_insert_ne. congruence.
Qed.

Lemma blankSignatureScripts_Ok_valid (ptrs : list nat) (cells cells' : list TxIn) :
  blankSignatureScripts ptrs cells = Ok cells' -> validPtrs cells ptrs.
Proof.
  unfold validPtrs. revert cells.
  induction ptrs as [|q rest IH]; intros cells; cbn; [constructor|].
  unfold deref. destruct (cells !! q) as [c|] eqn:Hc; [|easy]. rsimpl.
  intros Hb. apply IH in Hb. rewrite length_insert in Hb.
  constructor; [|exact Hb]. apply lookup_lt_Some in Hc. exact Hc.
Qed.

Lemma isPushOnly_Forall (pops : list parsedOpcode) :
  isPushOnly pops = true
  <-> Forall (fun pop => bval OP_0 <= opValue pop <= bval OP_16) pops.
Proof.
  induction pops as [|pop rest IH]; cbn.
  - split; [constructor | reflexivity].
  - rewrite Forall_cons, <- IH. unfold opValue.
    change (bval OP_FALSE) with 0. change (bval OP_0) with 0.
    change (bval OP_16) with 96.
    destruct (Z.ltb_spec (bval (op_value (pop_opcode pop))) 0),
      (Z.gtb_spec (bval (op_value (pop_opcode pop))) 96); cbn [orb];
      split; intros Hp; try discriminate; try (destruct Hp; lia);
      first [ split; [lia | exact Hp] | destruct Hp; assumption ].
Qed.

Lemma isPushOnly_false_Exists (pops : list parsedOpcode) :
  isPushOnly pops = false
  <-> Exists (fun pop => opValue pop < bval OP_0 \/ opValue pop > bval OP_16) pops.
Proof.
  induction pops as [|pop rest IH]; cbn.
  - split; [discriminate | intros H; inversion H].
  - rewrite Exists_cons, <- IH. unfold opValue.
    change (bval OP_FALSE) with 0. change (bval OP_0) with 0.
    change (bval OP_16) with 96.
    destruct (Z.ltb_spec (bval (op_value (pop_opcode pop))) 0),
      (Z.gtb_spec (bval (op_value (pop_opcode pop))) 96); cbn [orb];
      split; intros Hp; try reflexivity; try (left; lia);
      first [ right; exact Hp | destruct Hp as [Hp|Hp]; [lia | exact Hp] ].
Qed.

Lemma isScriptHash_pattern (pops : list parsedOpcode) :
  isScriptHash pops = true
  <-> exists p0 p1 p2,
        pops = [p0; p1; p2]
        /\ op_value (pop_opcode p0) = OP_HASH160
        /\ op_value (pop_opcode p1) = OP_DATA_20
        /\ op_value (pop_opcode p2) = OP_EQUAL.
Proof.
  unfold isScriptHash, valueAt. split.
  - destruct pops as [|p0 [|p1 [|p2 [|p3 rest]]]]; cbn; try discriminate.
    + rewrite !andb_true_iff, !bool_decide_eq_true.
      intros [[[_ H0] H1] H2]. exists p0, p1, p2.
      injection H0 as H0. injection H1 as H1. injection H2 as H2.
      repeat split; apply bval_inj; assumption.
    + unfold len. cbn [length]. intros H.
      apply andb_true_iff in H as [H _]. apply andb_true_iff in H as [H _].
      apply andb_true_iff in H as [H _]. apply Z.eqb_eq in H. lia.
  - intros (p0 & p1 & p2 & -> & H0 & H1 & H2). cbn.
    rewrite H0, H1, H2. reflexivity.
Qed.

(** C6. P2SH gating at construction.  With the flag set and a pubkey script
    that parses to exactly OP_HASH160, OP_DATA_20, OP_EQUAL, [NewScript]
    fails when the parsed signature script has an opcode below OP_0 or above
    OP_16, and otherwise returns an engine in P2SH mode.  (The scripts are
    taken to parse and the input pointers of the transaction to be valid.) *)
Theorem NewScript_p2sh_gating (scriptSig scriptPubKey : list byte)
    (txidx' : Z) (tx' : MsgTx) (pver' : Z) (h : heap)
    (pops0 : list parsedOpcode) (p0 p1 p2 : parsedOpcode) :
  parseScript scriptSig = Ok pops0 ->
  parseScript scriptPubKey = Ok [p0; p1; p2] ->
  op_value (pop_opcode p0) = OP_HASH160 ->
  op_value (pop_opcode p1) = OP_DATA_20 ->
  op_value (pop_opcode p2) = OP_EQUAL ->
  validPtrs (txins h) (tx_TxIn tx') ->
  (Exists (fun pop => opValue pop < bval OP_0 \/ opValue pop > bval OP_16) pops0 ->
     NewScript scriptSig scriptPubKey txidx' tx' pver' true h
     = Err ErrPayToScriptHashNonPushOnly)
  /\ (Forall (fun pop => bval OP_0 <= opValue pop <= bval OP_16) pops0 ->
      exists m h',
        NewScript scriptSig scriptPubKey txidx' tx' pver' true h = Ok (m, h')
        /\ bip16 m = true /\ scripts m = [pops0; [p0; p1; p2]]
        /\ condStack m = [OpCondTrue]).
Proof.
  intros Hsig Hpk H0 H1 H2 Hv.
  assert (Hsh : isScriptHash [p0; p1; p2] = true).
  { apply isScriptHash_pattern. exists p0, p1, p2. auto. }
  rewrite (NewScript_parsed _ _ _ _ _ _ _ _ _ Hsig Hpk), Hsh. cbn [andb].
  split.
  - intros Hex. apply isPushOnly_false_Exists in Hex. rewrite Hex. reflexivity.
  - intros Hall. apply isPushOnly_Forall in Hall. rewrite Hall. cbn [negb].
    destruct (blankSignatureScripts_spec _ _ Hv) as (cells & -> & _).
    rsimpl. eexists _, _. split; [reflexivity|]. cbn. auto.
Qed.

Lemma NewScript_p2sh_gating_witness :
  (Exists (fun pop => opValue pop < bval OP_0 \/ opValue pop > bval OP_16)
     [mkPop (mkOpcode OP_1 1) []] ->
   NewScript [OP_1] p2shPkScript 0 exampleTx 0 true exampleHeap
   = Err ErrPayToScriptHashNonPushOnly)
  /\ (Forall (fun pop => bval OP_0 <= opValue pop <= bval OP_16)
        [mkPop (mkOpcode OP_1 1) []] ->
      exists m h',
        NewScript [OP_1] p2shPkScript 0 exampleTx 0 true exampleHeap = Ok (m, h')
        /\ bip16 m = true
        /\ scripts m
           = [[mkPop (mkOpcode OP_1 1) []];
              [mkPop (mkOpcode OP_HASH160 1) [];
               mkPop (mkOpcode OP_DATA_20 21) (replicate 20 x00);
               mkPop (mkOpcode OP_EQUAL 1) []]]
        /\ condStack m = [OpCondTrue]).
Proof.
  apply (NewScript_p2sh_gating [OP_1] p2shPkScript 0 exampleTx 0 exampleHeap
           [mkPop (mkOpcode OP_1 1) []]
           (mkPop (mkOpcode OP_HASH160 1) [])
           (mkPop (mkOpcode OP_DATA_20 21) (replicate 20 x00))
           (mkPop (mkOpcode OP_EQUAL 1) [])); try reflexivity.
  unfold validPtrs. repeat constructor.
Defined.

(** What a successful [NewScript] leaves behind. *)
Lemma NewScript_Ok (scriptSig scriptPubKey : list byte) (txidx' : Z)
    (tx' : MsgTx) (pver' : Z) (bip16' : bool) (h h' : heap) (m : Script) :
  NewScript scriptSig scriptPubKey txidx' tx' pver' bip16' h = Ok (m, h') ->
  exists pops0 pops1,
    parseScript scriptSig = Ok pops0 /\ parseScript scriptPubKey = Ok pops1
    /\ m = mkScript [pops0; pops1]
             (if len scriptPubKey =? 0 then 2
              else if len scriptSig =? 0 then 1 else 0)
             0 0 [] [] tx' txidx' pver' [OpCondTrue] 0
             (bip16' && isScriptHash pops1) []
    /\ blankSignatureScripts (tx_TxIn tx') (txins h) = Ok (txins h')
    /\ txouts h' = txouts h.
Proof.
  intros H. destruct (NewScript_Ok_parsed _ _ _ _ _ _ _ _ _ H)
    as (pops0 & pops1 & H0 & H1).
  exists pops0, pops1. rewrite (NewScript_parsed _ _ _ _ _ _ _ _ _ H0 H1) in H.
  destruct (bip16' && isScriptHash pops1 && negb (isPushOnly pops0)); [easy|].
  destruct (blankSignatureScripts (tx_TxIn tx') (txins h)) as [cells| | |];
    try easy.
  rsimpl. injection H as <- <-. auto.
Qed.

(** C3. [NewScript] writes through the input pointers of the transaction it
    is given: after a successful call every input of the caller's
    transaction has an empty signature script, in the caller's memory, and
    the engine's transaction holds the very same pointers. *)
Theorem NewScript_blanks_callers_transaction
    (scriptSig scriptPubKey : list byte) (txidx' : Z) (tx' : MsgTx)
    (pver' : Z) (bip16' : bool) (h h' : heap) (m : Script) :
  NewScript scriptSig scriptPubKey txidx' tx' pver' bip16' h = Ok (m, h') ->
  tx_TxIn (tx m) = tx_TxIn tx'
  /\ forall p, p ∈ tx_TxIn tx' ->
       exists c, txins h !! p = Some c
                 /\ txins h' !! p = Some (setSignatureScript c []).
Proof.
  intros H. apply NewScript_Ok in H as (pops0 & pops1 & _ & _ & -> & Hb & _).
  split; [reflexivity|]. intros p Hp.
  pose proof (blankSignatureScripts_Ok_valid _ _ _ Hb) as Hv.
  destruct (blankSignatureScripts_spec _ _ Hv) as (cells & Hb' & _ & Hin & _).
  rewrite Hb in Hb'. injection Hb' as <-.
  specialize (Hin p Hp).
  unfold validPtrs in Hv. rewrite Forall_forall in Hv.
  destruct (lookup_lt_is_Some_2 (txins h) p (Hv p Hp)) as [c Hc].
  exists c. rewrite Hin, Hc. auto.
Qed.

Lemma NewScript_blanks_callers_transaction_witness :
  txins exampleHeap !! 0%nat
  = Some (mkTxIn (mkOutPoint [x01] 0) [OP_1] 4294967295)
  /\ exists m h',
       NewScript [OP_1] [OP_1] 0 exampleTx 0 false exampleHeap = Ok (m, h')
       /\ tx_TxIn (tx m) = tx_TxIn exampleTx
       /\ txins h' !! 0%nat = Some (mkTxIn (mkOutPoint [x01] 0) [] 4294967295).
Proof.
  split; [reflexivity|]. eexists _, _. split; [reflexivity|].
  destruct (NewScript_blanks_callers_transaction
              [OP_1] [OP_1] 0 exampleTx 0 false exampleHeap _ _ eq_refl)
    as [Htx Hcells].
  split; [exact Htx|].
  destruct (Hcells 0%nat) as (c & Hc & Hc').
  - unfold exampleTx. cbn. apply list_elem_of_here.
  - injection Hc as <-. exact Hc'.
Defined.

(** ** Step and Execute *)

Lemma index_Ok_range {A} (s : list A) (i : Z) (x : A) :
  index s i = Ok x -> 0 <= i < len s.
Proof.
  intros H. apply index_Ok in H as [H0 H]. apply lookup_lt_Some in H.
  unfold len. lia.
Qed.

Lemma validPC_Ok (m : Script) (scr : list parsedOpcode) (pop : parsedOpcode) :
  index (scripts m) (scriptidx m) = Ok scr ->
  index scr (scriptoff m) = Ok pop ->
  validPC m = Ok tt.
Proof.
  intros Hs Hp. unfold validPC.
  apply index_Ok_range in Hp. pose proof (index_Ok_range _ _ _ Hs).
  destruct (Z.geb_spec (scriptidx m) (len (scripts m))); [lia|].
  rewrite Hs. rsimpl.
  destruct (Z.geb_spec (scriptoff m) (len scr)); [lia | reflexivity].
Qed.

Lemma isDisabled_value (pop : parsedOpcode) :
  isDisabled pop = true ->
  In (opValue pop) (map bval disabledOpcodes).
Proof.
  unfold isDisabled. rewrite existsb_exists. intros (b & Hb & Hv).
  apply Z.eqb_eq in Hv. rewrite Hv. apply in_map. exact Hb.
Qed.

Lemma disabled_not_conditional (pop : parsedOpcode) :
  isDisabled pop = true -> conditional pop = false.
Proof.
  intros H. apply isDisabled_value in H. unfold conditional.
  cbn in H. repeat (destruct H as [H|H]; [rewrite <- H; reflexivity|]).
  destruct H.
Qed.

Lemma exec_disabled (other : parsedOpcode -> Script -> result Script)
    (pop : parsedOpcode) (m : Script) :
  isDisabled pop = true ->
  numOps m < MaxOpsPerScript ->
  exec other pop m = Err StackErrOpDisabled.
Proof.
  intros H Hn. pose proof (isDisabled_value pop H) as Hv.
  unfold exec, opfunc. rewrite H.
  assert (Hops : (numOps (set_numOps (numOps m + 1) m) >? MaxOpsPerScript) = false).
  { cbn. destruct (Z.gtb_spec (numOps m + 1) MaxOpsPerScript); [lia | reflexivity]. }
  cbn in Hv.
  repeat (destruct Hv as [Hv|Hv];
          [rewrite <- Hv; cbn -[set_numOps Z.gtb]; rewrite Hops; reflexivity|]).
  destruct Hv.
Qed.

(** Whatever the signature script, an empty pubkey script puts the initial
    program counter past both scripts, and [Execute] fails at once. *)
Lemma Execute_empty_pkScript
    (other : parsedOpcode -> Script -> result Script)
    (scriptSig : list byte) (txidx' : Z) (tx' : MsgTx) (pver' : Z)
    (bip16' : bool) (h h' : heap) (m : Script) (fuel : nat) :
  NewScript scriptSig [] txidx' tx' pver' bip16' h = Ok (m, h') ->
  scriptidx m = 2 /\ len (scripts m) = 2
  /\ Execute other (S fuel) m = Err ErrPastInputScripts.
Proof.
  intros H. apply NewScript_Ok in H as (pops0 & pops1 & H0 & H1 & -> & _).
  injection H1 as <-. repeat split.
Qed.

(** C1. With sigScript = OP_1 and an empty pkScript, [NewScript] leaves the
    program counter at script index 2, past both scripts, and [Execute]
    fails at its first step with the error of [validPC]: OP_1 is never
    executed. *)
Theorem Execute_OP_1_empty_pkScript
    (other : parsedOpcode -> Script -> result Script) (txidx' : Z)
    (tx' : MsgTx) (pver' : Z) (bip16' : bool) (h h' : heap) (m : Script)
    (fuel : nat) :
  NewScript [OP_1] [] txidx' tx' pver' bip16' h = Ok (m, h') ->
  scripts m = [[mkPop (mkOpcode OP_1 1) []]; []]
  /\ scriptidx m = 2
  /\ Execute other (S fuel) m = Err ErrPastInputScripts.
Proof.
  intros H. apply NewScript_Ok in H as (pops0 & pops1 & H0 & H1 & -> & _).
  injection H0 as <-. injection H1 as <-. repeat split.
Qed.

Lemma Execute_OP_1_empty_pkScript_witness :
  exists m h',
    NewScript [OP_1] [] 0 exampleTx 0 false exampleHeap = Ok (m, h')
    /\ scripts m = [[mkPop (mkOpcode OP_1 1) []]; []]
    /\ scriptidx m = 2
    /\ Execute opfuncNone 100 m = Err ErrPastInputScripts.
Proof.
  eexists _, _. split; [reflexivity|].
  apply (Execute_OP_1_empty_pkScript opfuncNone 0 exampleTx 0 false
           exampleHeap _ _ 99 eq_refl).
Defined.

(** C2, as the code has it.  A disabled opcode at the program counter fails
    with [OpDisabled] when the innermost conditional mark is True (and the
    operation count is below its limit); under a False or Skip mark [Step]
    does not execute it and only moves the program counter on.  With
    sigScript = OP_0 and pkScript = OP_IF OP_CAT OP_ENDIF the skipped OP_CAT
    raises nothing, and [Execute] ends with the empty-stack error. *)
Theorem Step_disabled_opcode
    (other : parsedOpcode -> Script -> result Script) (m : Script)
    (scr : list parsedOpcode) (pop : parsedOpcode) :
  index (scripts m) (scriptidx m) = Ok scr ->
  index scr (scriptoff m) = Ok pop ->
  isDisabled pop = true ->
  numOps m < MaxOpsPerScript ->
  match condStack m with
  | OpCondTrue :: _ => Step other m = Err StackErrOpDisabled
  | _ :: _ => Step other m = nextInstruction m
  | [] => Step other m = Panic
  end
  /\ forall (txidx' : Z) (tx' : MsgTx) (pver' : Z) (bip16' : bool)
        (h h' : heap) (m' : Script) (fuel : nat),
      NewScript [OP_0] [OP_IF; OP_CAT; OP_ENDIF] txidx' tx' pver' bip16' h
      = Ok (m', h') ->
      Execute other (4 + fuel) m' = Err ErrStackEmptyAtEnd.
Proof.
  intros Hs Hp Hd Hn. split.
  - unfold Step. rewrite (validPC_Ok m scr pop Hs Hp). rsimpl.
    rewrite Hs. rsimpl. rewrite Hp. rsimpl.
    destruct (condStack m) as [|c0 rest]; [reflexivity|].
    cbn [index Z.leb Z.compare Z.to_nat lookup list_lookup]. rsimpl.
    destruct c0.
    + rewrite (disabled_not_conditional pop Hd). reflexivity.
    + rewrite (exec_disabled other pop m Hd Hn). reflexivity.
    + rewrite (disabled_not_conditional pop Hd). reflexivity.
  - intros txidx' tx' pver' bip16' h h' m' fuel H.
    apply NewScript_Ok in H as (pops0 & pops1 & H0 & H1 & -> & _).
    injection H0 as <-. injection H1 as <-.
    destruct bip16'; reflexivity.
Qed.

Lemma Step_disabled_opcode_witness :
  Step opfuncNone
    (mkScript [[mkPop (mkOpcode OP_CAT 1) []]] 0 0 0 [] [] exampleTx 0 0
       [OpCondTrue] 0 false [])
  = Err StackErrOpDisabled
  /\ exists m h',
       NewScript [OP_0] [OP_IF; OP_CAT; OP_ENDIF] 0 exampleTx 0 false exampleHeap
       = Ok (m, h')
       /\ Execute opfuncNone 4 m = Err ErrStackEmptyAtEnd.
Proof.
  destruct (Step_disabled_opcode opfuncNone
              (mkScript [[mkPop (mkOpcode OP_CAT 1) []]] 0 0 0 [] [] exampleTx
                 0 0 [OpCondTrue] 0 false [])
              [mkPop (mkOpcode OP_CAT 1) []] (mkPop (mkOpcode OP_CAT 1) [])
              eq_refl eq_refl eq_refl) as [HStep Hlit].
  - reflexivity.
  - split; [exact HStep|]. eexists _, _. split; [reflexivity|].
    apply (Hlit 0 exampleTx 0 false exampleHeap _ _ 0%nat eq_refl).
Defined.

(** The claim C2 fails on its own literal input: sigScript = OP_0,
    pkScript = OP_IF OP_CAT OP_ENDIF does not end in [OpDisabled]. *)
Lemma Execute_skipped_OP_CAT_not_OpDisabled :
  exists m h',
    NewScript [OP_0] [OP_IF; OP_CAT; OP_ENDIF] 0 exampleTx 0 false exampleHeap
    = Ok (m, h')
    /\ Execute opfuncNone 100 m = Err ErrStackEmptyAtEnd
    /\ Execute opfuncNone 100 m <> Err StackErrOpDisabled.
Proof.
  eexists _, _. split; [reflexivity|]. split; [reflexivity | discriminate].
Qed.

(** When [Execute] reports [MissingEndif]: the data stack is not empty, its
    top reads as true, and the conditional stack does not hold exactly one
    mark. *)
Lemma finish_MissingEndif (s : Script) :
  finish s = Err StackErrMissingEndif
  <-> exists rest top,
        dstack s = rest ++ [top] /\ asBool top = true
        /\ len (condStack s) <> 1.
Proof.
  unfold finish, Depth, PopBool, PopByteArray.
  destruct (dstack s) as [|x l] eqn:Hd using rev_ind.
  - cbn. split; [discriminate|]. intros (rest & top & H & _).
    destruct rest; discriminate.
  - clear IHl. rewrite last_snoc, len_app.
    destruct (Z.ltb_spec (len l + len [x]) 1) as [Hlt|_].
    { unfold len in Hlt. cbn in Hlt. lia. }
    rsimpl. cbn [condStack set_dstack].
    split.
    + destruct (asBool x) eqn:Hx; cbn [negb]; [|discriminate].
      destruct (Z.eqb_spec (len (condStack s)) 1); cbn [negb]; [discriminate|].
      intros _. exists l, x. auto.
    + intros (rest & top & H & Htop & Hc).
      apply app_inj_tail in H as [<- <-]. rewrite Htop. cbn [negb].
      destruct (Z.eqb_spec (len (condStack s)) 1); [contradiction | reflexivity].
Qed.

Lemma finish_empty_stack (s : Script) :
  dstack s = [] -> finish s = Err ErrStackEmptyAtEnd.
Proof. intros H. unfold finish. rewrite H. reflexivity. Qed.

(** C7, as the code has it.  With sigScript = OP_1 and pkScript = OP_IF,
    OP_IF pops the only stack element, and [Execute], which looks at the
    stack depth before the conditional stack, fails with the empty-stack
    error.  [MissingEndif] is what an unclosed OP_IF gives when a true value
    is left on the stack, as with sigScript = OP_1 OP_1. *)
Theorem Execute_unbalanced_IF
    (other : parsedOpcode -> Script -> result Script) (txidx' : Z)
    (tx' : MsgTx) (pver' : Z) (bip16' : bool) (h h1 h2 : heap)
    (m1 m2 : Script) (fuel : nat) :
  NewScript [OP_1] [OP_IF] txidx' tx' pver' bip16' h = Ok (m1, h1) ->
  NewScript [OP_1; OP_1] [OP_IF] txidx' tx' pver' bip16' h = Ok (m2, h2) ->
  Execute other (2 + fuel) m1 = Err ErrStackEmptyAtEnd
  /\ Execute other (3 + fuel) m2 = Err StackErrMissingEndif.
Proof.
  intros H1 H2.
  apply NewScript_Ok in H1 as (pops0 & pops1 & H0 & H1 & -> & _).
  injection H0 as <-. injection H1 as <-.
  apply NewScript_Ok in H2 as (pops0 & pops1 & H0 & H1 & -> & _).
  injection H0 as <-. injection H1 as <-.
  destruct bip16'; split; reflexivity.
Qed.

Lemma Execute_unbalanced_IF_witness :
  exists m1 h1 m2 h2,
    NewScript [OP_1] [OP_IF] 0 exampleTx 0 false exampleHeap = Ok (m1, h1)
    /\ NewScript [OP_1; OP_1] [OP_IF] 0 exampleTx 0 false exampleHeap
       = Ok (m2, h2)
    /\ Execute opfuncNone 2 m1 = Err ErrStackEmptyAtEnd
    /\ Execute opfuncNone 3 m2 = Err StackErrMissingEndif.
Proof.
  eexists _, _, _, _. split; [reflexivity|]. split; [reflexivity|].
  apply (Execute_unbalanced_IF opfuncNone 0 exampleTx 0 false exampleHeap
           _ _ _ _ 0%nat eq_refl eq_refl).
Defined.

(** The claim C7 fails on its literal input: sigScript = OP_1,
    pkScript = OP_IF does not end in [MissingEndif]. *)
Lemma Execute_unbalanced_IF_not_MissingEndif :
  exists m h',
    NewScript [OP_1] [OP_IF] 0 exampleTx 0 false exampleHeap = Ok (m, h')
    /\ Execute opfuncNone 100 m = Err ErrStackEmptyAtEnd
    /\ Execute opfuncNone 100 m <> Err StackErrMissingEndif.
Proof.
  eexists _, _. split; [reflexivity|]. split; [reflexivity | discriminate].
Qed.

(** ** calcScriptHash *)

Lemma cellsAt_valid_app {A} (cells extra : list A) (ptrs : list nat) :
  validPtrs cells ptrs -> cellsAt (cells ++ extra) ptrs = cellsAt cells ptrs.
Proof.
  unfold validPtrs, cellsAt. induction 1 as [|p rest Hp _ IH]; cbn.
  - reflexivity.
  - rewrite lookup_app_l by exact Hp. rewrite IH. reflexivity.
Qed.

Lemma cellsAt_length {A} (cells : list A) (ptrs : list nat) :
  validPtrs cells ptrs -> length (cellsAt cells ptrs) = length ptrs.
Proof.
  unfold validPtrs, cellsAt. induction 1 as [|p rest Hp _ IH]; cbn.
  - reflexivity.
  - destruct (lookup_lt_is_Some_2 cells p Hp) as [c ->]. cbn. rewrite IH.
    reflexivity.
Qed.

Lemma cellsAt_lookup {A} (cells : list A) (ptrs : list nat) (i p : nat) :
  validPtrs cells ptrs -> ptrs !! i = Some p ->
  cellsAt cells ptrs !! i = cells !! p.
Proof.
  unfold validPtrs, cellsAt. intros Hv. revert i.
  induction Hv as [|q rest Hq _ IH]; intros i; cbn; [easy|].
  destruct (lookup_lt_is_Some_2 cells q Hq) as [c Hc]. rewrite Hc. cbn.
  destruct i as [|i]; cbn.
  - intros [= <-]. symmetry. exact Hc.
  - apply IH.
Qed.

Lemma validPtrs_app {A} (cells extra : list A) (ptrs : list nat) :
  validPtrs cells ptrs -> validPtrs (cells ++ extra) ptrs.
Proof.
  unfold validPtrs. intros H. eapply Forall_impl; [exact H|].
  intros p Hp. cbn beta in *. rewrite length_app. lia.
Qed.

Lemma validPtrs_seq {A} (pre new : list A) :
  validPtrs (pre ++ new) (seq (length pre) (length new)).
Proof.
  unfold validPtrs. apply Forall_forall. intros p Hp.
  apply elem_of_seq in Hp. rewrite length_app. lia.
Qed.

Lemma cellsAt_seq {A} (pre new : list A) :
  cellsAt (pre ++ new) (seq (length pre) (length new)) = new.
Proof.
  unfold cellsAt. revert pre. induction new as [|c new IH]; intros pre; cbn.
  - reflexivity.
  - rewrite list_lookup_middle by reflexivity. cbn. f_equal.
    specialize (IH (pre ++ [c])). rewrite length_app in IH. cbn in IH.
    rewrite Nat.add_1_r, <- app_assoc in IH. exact IH.
Qed.

Lemma derefAll_valid {A} (cells : list A) (ptrs : list nat) :
  validPtrs cells ptrs -> derefAll cells ptrs = Ok (cellsAt cells ptrs).
Proof.
  unfold validPtrs, cellsAt. induction 1 as [|p rest Hp _ IH]; cbn.
  - reflexivity.
  - unfold deref. destruct (lookup_lt_is_Some_2 cells p Hp) as [c ->].
    rsimpl. rewrite IH. reflexivity.
Qed.

Lemma copyCells_valid {A} (ptrs : list nat) (cells : list A) :
  validPtrs cells ptrs ->
  copyCells ptrs cells
  = Ok (seq (length cells) (length ptrs), cells ++ cellsAt cells ptrs).
Proof.
  revert cells. induction ptrs as [|p rest IH]; intros cells Hv; cbn.
  - rewrite app_nil_r. reflexivity.
  - apply Forall_cons in Hv as [Hp Hrest].
    unfold deref. destruct (lookup_lt_is_Some_2 cells p Hp) as [c Hc].
    rewrite Hc. rsimpl.
    rewrite (IH (cells ++ [c])) by (apply validPtrs_app; exact Hrest).
    rsimpl. rewrite length_app, Nat.add_1_r.
    rewrite (cellsAt_valid_app cells [c] rest Hrest), <- app_assoc.
    reflexivity.
Qed.

Lemma resetInputs_valid (i : nat) (txidx' : Z) (sig : list byte)
    (ptrs : list nat) (cells : list TxIn) :
  validPtrs cells ptrs ->
  resetInputs i txidx' sig ptrs cells
  = Ok (seq (length cells) (length ptrs),
        cells ++ resetCells i txidx' sig (cellsAt cells ptrs)).
Proof.
  revert i cells. induction ptrs as [|p rest IH]; intros i cells Hv; cbn.
  - rewrite app_nil_r. reflexivity.
  - apply Forall_cons in Hv as [Hp Hrest].
    unfold deref. destruct (lookup_lt_is_Some_2 cells p Hp) as [c Hc].
    rewrite Hc. rsimpl.
    rewrite IH by (apply validPtrs_app; exact Hrest).
    rsimpl. rewrite length_app, Nat.add_1_r.
    rewrite (cellsAt_valid_app cells _ rest Hrest), <- app_assoc.
    reflexivity.
Qed.

Lemma zeroSequences_fresh (i : nat) (txidx' : Z) (pre new : list TxIn) :
  zeroSequences i txidx' (seq (length pre) (length new)) (pre ++ new)
  = Ok (pre ++ zeroCells i txidx' new).
Proof.
  revert i pre. induction new as [|c new IH]; intros i pre; cbn.
  - reflexivity.
  - specialize (IH (S i)).
    destruct (Z.of_nat i =? txidx'); cbn [negb].
    + specialize (IH (pre ++ [c])). rewrite length_app in IH. cbn in IH.
      rewrite Nat.add_1_r, <- !app_assoc in IH. exact IH.
    + unfold deref. rewrite list_lookup_middle by reflexivity. rsimpl.
      rewrite insert_app_r_alt by lia. rewrite Nat.sub_diag. cbn.
      specialize (IH (pre ++ [setSequence c 0])).
      rewrite length_app in IH. cbn in IH.
      rewrite Nat.add_1_r, <- !app_assoc in IH. exact IH.
Qed.

Lemma resetCells_length (i : nat) (txidx' : Z) (sig : list byte) (cs : list TxIn) :
  length (resetCells i txidx' sig cs) = length cs.
Proof.
  revert i. induction cs as [|c cs IH]; intros i; cbn; [|rewrite IH];
    reflexivity.
Qed.

Lemma zeroCells_length (i : nat) (txidx' : Z) (cs : list TxIn) :
  length (zeroCells i txidx' cs) = length cs.
Proof.
  revert i. induction cs as [|c cs IH]; intros i; cbn; [|rewrite IH];
    reflexivity.
Qed.

Lemma zeroCells_resetCells_lookup (j : nat) (txidx' : Z) (sig : list byte)
    (cs : list TxIn) (i : nat) :
  zeroCells j txidx' (resetCells j txidx' sig cs) !! i
  = noneInput txidx' sig (j + i) <$> cs !! i.
Proof.
  revert j i. induction cs as [|c cs IH]; intros j i; cbn; [reflexivity|].
  destruct i as [|i]; cbn.
  - rewrite Nat.add_0_r. unfold noneInput.
    destruct (Z.of_nat j =? txidx'); reflexivity.
  - rewrite IH. do 2 f_equal. lia.
Qed.

(** The transaction copy of the None mode in closed form. *)
Lemma calcScriptHashCopy_None (s : Script) (script : list parsedOpcode)
    (hashType : byte) (h : heap) :
  Z.land (bval hashType) 31 = SigHashNone ->
  validPtrs (txins h) (tx_TxIn (tx s)) ->
  validPtrs (txouts h) (tx_TxOut (tx s)) ->
  let I0 := cellsAt (txins h) (tx_TxIn (tx s)) in
  let O0 := cellsAt (txouts h) (tx_TxOut (tx s)) in
  let sig := unparseScript (removeOpcode script OP_CODESEPARATOR) in
  let ptrs := seq (length (txins h ++ I0)) (length I0) in
  calcScriptHashCopy s script hashType h
  = (ins ← (if negb (Z.land (bval hashType) SigHashAnyOneCanPay =? 0)
            then slice ptrs (txidx s) (txidx s + 1) else Ok ptrs);
     Ok (mkMsgTx (Version (tx s)) ins [] (LockTime (tx s)),
         mkHeap ((txins h ++ I0)
                  ++ zeroCells 0 (txidx s) (resetCells 0 (txidx s) sig I0))
                ((txouts h ++ O0) ++ O0))).
Proof.
  intros Hmode Hvi Hvo I0 O0 sig ptrs.
  unfold calcScriptHashCopy, Copy.
  rewrite (copyCells_valid _ _ Hvi), (copyCells_valid _ _ Hvo). rsimpl.
  cbn [tx_TxIn tx_TxOut txins txouts Version LockTime].
  fold I0 O0 sig.
  rewrite <- (cellsAt_length _ _ Hvi), <- (cellsAt_length _ _ Hvo).
  fold I0 O0.
  rewrite (resetInputs_valid _ _ _ _ _ (validPtrs_seq (txins h) I0)),
    cellsAt_seq. rsimpl.
  rewrite (copyCells_valid _ _ (validPtrs_seq (txouts h) O0)), cellsAt_seq.
  rsimpl. rewrite Hmode. cbn [Z.eqb SigHashNone Pos.eqb].
  rewrite slice_0_0. rsimpl. rewrite length_seq.
  pose proof (zeroSequences_fresh 0 (txidx s) (txins h ++ I0)
                (resetCells 0 (txidx s) sig I0)) as Hz.
  rewrite resetCells_length in Hz. rewrite Hz. reflexivity.
Qed.

Lemma zeroCells_resetCells_imap (txidx' : Z) (sig : list byte) (cs : list TxIn) :
  zeroCells 0 txidx' (resetCells 0 txidx' sig cs)
  = imap (noneInput txidx' sig) cs.
Proof.
  apply list_eq. intros i.
  rewrite zeroCells_resetCells_lookup, list_lookup_imap. reflexivity.
Qed.

Lemma cellsAt_drop {A} (cells : list A) (ptrs : list nat) (b : nat) :
  validPtrs cells ptrs ->
  cellsAt cells (drop b ptrs) = drop b (cellsAt cells ptrs).
Proof.
  unfold validPtrs, cellsAt. intros Hv. revert b.
  induction Hv as [|p rest Hp _ IH]; intros b; [destruct b; reflexivity|].
  destruct b as [|b]; [reflexivity|]. cbn.
  destruct (lookup_lt_is_Some_2 cells p Hp) as [c ->]. cbn. apply IH.
Qed.

Lemma cellsAt_take {A} (cells : list A) (ptrs : list nat) (a : nat) :
  validPtrs cells ptrs ->
  cellsAt cells (take a ptrs) = take a (cellsAt cells ptrs).
Proof.
  unfold validPtrs, cellsAt. intros Hv. revert a.
  induction Hv as [|p rest Hp _ IH]; intros a; [destruct a; reflexivity|].
  destruct a as [|a]; [reflexivity|]. cbn.
  destruct (lookup_lt_is_Some_2 cells p Hp) as [c ->]. cbn. f_equal. apply IH.
Qed.

Lemma removeOpcode_acc (pkscript acc : list parsedOpcode) (opcode' : byte) :
  fold_left
    (fun retScript pop =>
       if negb (Byte.eqb (op_value (pop_opcode pop)) opcode')
       then retScript ++ [pop] else retScript)
    pkscript acc
  = acc ++ List.filter
             (fun pop => negb (Byte.eqb (op_value (pop_opcode pop)) opcode'))
             pkscript.
Proof.
  revert acc. induction pkscript as [|pop rest IH]; intros acc; cbn.
  - rewrite app_nil_r. reflexivity.
  - rewrite IH. destruct (negb (Byte.eqb (op_value (pop_opcode pop)) opcode')).
    + rewrite <- app_assoc. reflexivity.
    + reflexivity.
Qed.

Lemma removeOpcode_absent (pkscript : list parsedOpcode) (opcode' : byte) :
  Forall (fun pop => op_value (pop_opcode pop) <> opcode') pkscript ->
  removeOpcode pkscript opcode' = pkscript.
Proof.
  intros H. unfold removeOpcode. rewrite removeOpcode_acc. cbn.
  induction H as [|pop rest Hpop _ IH]; cbn; [reflexivity|].
  destruct (Byte.eqb (op_value (pop_opcode pop)) opcode') eqn:E.
  - apply Byte.byte_dec_bl in E. contradiction.
  - cbn. rewrite IH. reflexivity.
Qed.

(** C8. The None mode of [calcScriptHash].  When (hashType & 0x1F) = 2, the
    digest is that of a transaction copy [w] with no outputs whose inputs
    are those of the engine's transaction, with sequence number 0 and an
    empty signature script on every input but [txidx], and on input [txidx]
    the serialized script, OP_CODESEPARATORs removed (the serialized
    subscript itself when it has none); with AnyOneCanPay only input [txidx]
    is kept.  The memory the engine's transaction lives in is only extended:
    the transaction reads back as before. *)
Theorem calcScriptHash_None
    (BtcEncode : wireTx -> Z -> list byte)
    (DoubleSha256 : list byte -> list byte)
    (s : Script) (script : list parsedOpcode) (hashType : byte) (h : heap) :
  Z.land (bval hashType) 31 = SigHashNone ->
  validPtrs (txins h) (tx_TxIn (tx s)) ->
  validPtrs (txouts h) (tx_TxOut (tx s)) ->
  Z.land (bval hashType) SigHashAnyOneCanPay = 0
  \/ 0 <= txidx s < len (tx_TxIn (tx s)) ->
  let sig := unparseScript (removeOpcode script OP_CODESEPARATOR) in
  let inputs :=
    imap (noneInput (txidx s) sig) (cellsAt (txins h) (tx_TxIn (tx s))) in
  exists (w : wireTx) (h' : heap),
    calcScriptHash BtcEncode DoubleSha256 s script hashType h
    = Ok (DoubleSha256 (BtcEncode w (pver s) ++ leBytes 4 (bval hashType)), h')
    /\ w_TxOut w = []
    /\ w_TxIn w
       = (if Z.land (bval hashType) SigHashAnyOneCanPay =? 0 then inputs
          else take 1 (drop (Z.to_nat (txidx s)) inputs))
    /\ length inputs = length (tx_TxIn (tx s))
    /\ (forall (i : nat) (c : TxIn), inputs !! i = Some c ->
          if Z.of_nat i =? txidx s then SignatureScript c = sig
          else SignatureScript c = [] /\ Sequence c = 0)
    /\ w_Version w = Version (tx s) /\ w_LockTime w = LockTime (tx s)
    /\ (Forall (fun pop => op_value (pop_opcode pop) <> OP_CODESEPARATOR) script ->
        sig = unparseScript script)
    /\ readTx h' (tx s) = readTx h (tx s)
    /\ (exists newIns newOuts,
          txins h' = txins h ++ newIns /\ txouts h' = txouts h ++ newOuts).
Proof.
  intros Hmode Hvi Hvo Hacp sig inputs.
  set (I0 := cellsAt (txins h) (tx_TxIn (tx s))).
  set (O0 := cellsAt (txouts h) (tx_TxOut (tx s))).
  set (h' := mkHeap ((txins h ++ I0)
                       ++ zeroCells 0 (txidx s) (resetCells 0 (txidx s) sig I0))
                    ((txouts h ++ O0) ++ O0)).
  assert (HlenI : length I0 = length (tx_TxIn (tx s)))
    by (apply cellsAt_length; exact Hvi).
  assert (Hframe : readTx h' (tx s) = readTx h (tx s)).
  { unfold readTx, h'. cbn [txins txouts].
    rewrite !derefAll_valid
      by (try exact Hvi; try exact Hvo; repeat apply validPtrs_app; assumption).
    rewrite <- !app_assoc.
    rewrite (cellsAt_valid_app _ _ _ Hvi), (cellsAt_valid_app _ _ _ Hvo).
    reflexivity. }
  assert (Hext : exists newIns newOuts,
             txins h' = txins h ++ newIns /\ txouts h' = txouts h ++ newOuts).
  { unfold h'. cbn [txins txouts]. rewrite <- !app_assoc. eauto. }
  assert (Hsig : Forall (fun pop => op_value (pop_opcode pop) <> OP_CODESEPARATOR)
                   script -> sig = unparseScript script).
  { intros Hno. unfold sig. rewrite removeOpcode_absent by exact Hno.
    reflexivity. }
  assert (Hinputs : zeroCells 0 (txidx s) (resetCells 0 (txidx s) sig I0) = inputs)
    by apply zeroCells_resetCells_imap.
  assert (HlenIn : length inputs = length (tx_TxIn (tx s)))
    by (unfold inputs; rewrite length_imap; exact HlenI).
  assert (Hprop : forall (i : nat) (c : TxIn), inputs !! i = Some c ->
            if Z.of_nat i =? txidx s then SignatureScript c = sig
            else SignatureScript c = [] /\ Sequence c = 0).
  { intros i c. unfold inputs. rewrite list_lookup_imap.
    destruct (cellsAt (txins h) (tx_TxIn (tx s)) !! i) as [c0|]; [|easy].
    cbn. intros [= <-]. unfold noneInput.
    destruct (Z.of_nat i =? txidx s); cbn; auto. }
  pose proof (validPtrs_seq (txins h ++ I0)
                (zeroCells 0 (txidx s) (resetCells 0 (txidx s) sig I0))) as Hvnew.
  rewrite zeroCells_length, resetCells_length in Hvnew.
  pose proof (cellsAt_seq (txins h ++ I0)
                (zeroCells 0 (txidx s) (resetCells 0 (txidx s) sig I0))) as Hnew.
  rewrite zeroCells_length, resetCells_length in Hnew.
  unfold calcScriptHash.
  rewrite (calcScriptHashCopy_None s script hashType h Hmode Hvi Hvo).
  fold I0 O0 sig h'.
  destruct (Z.eqb_spec (Z.land (bval hashType) SigHashAnyOneCanPay) 0) as [E|E];
    cbn [negb].
  - rsimpl. unfold readTx. cbn [tx_TxIn tx_TxOut txins txouts h'].
    rewrite (derefAll_valid _ _ Hvnew), Hnew. rsimpl.
    eexists _, h'. split; [reflexivity|]. cbn [w_TxOut w_TxIn w_Version w_LockTime].
    rewrite Hinputs. auto 10.
  - destruct Hacp as [Hacp|Hacp]; [contradiction|].
    assert (Hidx : 0 <= txidx s /\ txidx s + 1 <= len (seq (length (txins h ++ I0)) (length I0))).
    { unfold len in *. rewrite length_seq, HlenI. lia. }
    rewrite slice_in_range by lia. rsimpl.
    replace (Z.to_nat (txidx s + 1 - txidx s)) with 1%nat by lia.
    assert (Hd : derefAll (txins h')
                   (take 1 (drop (Z.to_nat (txidx s))
                              (seq (length (txins h ++ I0)) (length I0))))
                 = Ok (take 1 (drop (Z.to_nat (txidx s)) inputs))).
    { rewrite derefAll_valid
        by (unfold validPtrs; apply Forall_take, Forall_drop; exact Hvnew).
      unfold h'. cbn [txins].
      rewrite cellsAt_take by (unfold validPtrs; apply Forall_drop; exact Hvnew).
      rewrite cellsAt_drop by exact Hvnew.
      rewrite Hnew, Hinputs. reflexivity. }
    unfold readTx. cbn [tx_TxIn tx_TxOut Version LockTime].
    rewrite Hd. rsimpl. cbn [derefAll]. rsimpl.
    eexists _, h'. split; [reflexivity|]. cbn [w_TxOut w_TxIn w_Version w_LockTime].
    auto 10.
Qed.

Lemma calcScriptHash_None_witness :
  exists (w : wireTx) (h' : heap),
    calcScriptHash (fun w _ => concat (map SignatureScript (w_TxIn w)))
      (fun b => b)
      (mkScript [] 0 0 0 [] [] exampleTx 1 0 [OpCondTrue] 0 false [])
      [mkPop (mkOpcode OP_CODESEPARATOR 1) []; mkPop (mkOpcode OP_DUP 1) []]
      x02 exampleHeap
    = Ok (concat (map SignatureScript (w_TxIn w)) ++ leBytes 4 2, h')
    /\ w_TxOut w = []
    /\ w_TxIn w = [mkTxIn (mkOutPoint [x01] 0) [] 0;
                   mkTxIn (mkOutPoint [x02] 1) [OP_DUP] 4294967295]
    /\ readTx h' exampleTx = readTx exampleHeap exampleTx.
Proof.
  destruct (calcScriptHash_None
              (fun w _ => concat (map SignatureScript (w_TxIn w))) (fun b => b)
              (mkScript [] 0 0 0 [] [] exampleTx 1 0 [OpCondTrue] 0 false [])
              [mkPop (mkOpcode OP_CODESEPARATOR 1) []; mkPop (mkOpcode OP_DUP 1) []]
              x02 exampleHeap)
    as (w & h' & Hhash & Houts & Hins & _ & _ & _ & _ & _ & Hframe & _).
  - reflexivity.
  - unfold validPtrs. repeat constructor.
  - unfold validPtrs. repeat constructor.
  - left. reflexivity.
  - exists w, h'. split; [exact Hhash|]. split; [exact Houts|].
    split; [exact Hins | exact Hframe].
Defined.

Lemma copyCells_cases {A} (ptrs : list nat) (cells : list A) :
  copyCells ptrs cells = Panic
  \/ exists ps cells', copyCells ptrs cells = Ok (ps, cells')
                       /\ length ps = length ptrs.
Proof.
  revert cells. induction ptrs as [|p rest IH]; intros cells; cbn.
  - right. eauto.
  - unfold deref. destruct (cells !! p) as [c|]; [|left; reflexivity]. rsimpl.
    destruct (IH (cells ++ [c])) as [->|(ps & cells' & -> & Hl)].
    + left. reflexivity.
    + right. rsimpl. eexists _, _. split; [reflexivity|]. cbn. rewrite Hl.
      reflexivity.
Qed.

Lemma resetInputs_cases (i : nat) (txidx' : Z) (sig : list byte)
    (ptrs : list nat) (cells : list TxIn) :
  resetInputs i txidx' sig ptrs cells = Panic
  \/ exists ps cells', resetInputs i txidx' sig ptrs cells = Ok (ps, cells').
Proof.
  revert i cells. induction ptrs as [|p rest IH]; intros i cells; cbn.
  - right. eauto.
  - unfold deref. destruct (cells !! p) as [c|]; [|left; reflexivity]. rsimpl.
    destruct (IH (S i) (cells ++
        [setSignatureScript c (if Z.of_nat i =? txidx' then sig else [])]))
      as [->|(ps & cells' & ->)].
    + left. reflexivity.
    + right. rsimpl. eauto.
Qed.

(** C9. The Single mode of [calcScriptHash] is partial: when
    (hashType & 0x1F) = 3 and the input index plus one exceeds the number of
    outputs of the transaction, the slice expression [txCopy.TxOut[:txidx+1]]
    is out of range and the call panics: no digest, no error value. *)
Theorem calcScriptHash_Single_panics
    (BtcEncode : wireTx -> Z -> list byte)
    (DoubleSha256 : list byte -> list byte)
    (s : Script) (script : list parsedOpcode) (hashType : byte) (h : heap) :
  Z.land (bval hashType) 31 = SigHashSingle ->
  txidx s + 1 > len (tx_TxOut (tx s)) ->
  calcScriptHash BtcEncode DoubleSha256 s script hashType h = Panic.
Proof.
  intros Hmode Hidx. unfold calcScriptHash.
  assert (Hcopy : calcScriptHashCopy s script hashType h = Panic);
    [|rewrite Hcopy; reflexivity].
  unfold calcScriptHashCopy, Copy.
  destruct (copyCells_cases (tx_TxIn (tx s)) (txins h))
    as [->|(ins & icells & -> & _)]; [reflexivity|]. rsimpl.
  destruct (copyCells_cases (tx_TxOut (tx s)) (txouts h))
    as [->|(outs & ocells & -> & Hlo)]; [reflexivity|]. rsimpl.
  cbn [tx_TxIn tx_TxOut txins txouts].
  destruct (resetInputs_cases 0 (txidx s)
              (unparseScript (removeOpcode script OP_CODESEPARATOR)) ins icells)
    as [->|(ins' & icells' & ->)]; [reflexivity|]. rsimpl.
  destruct (copyCells_cases outs ocells)
    as [->|(outs' & ocells' & -> & Hlo')]; [reflexivity|]. rsimpl.
  rewrite Hmode. cbn [Z.eqb SigHashSingle SigHashNone Pos.eqb].
  assert (Hs : slice outs' 0 (txidx s + 1) = Panic).
  { unfold slice. unfold len in *.
    destruct (Z.leb_spec (txidx s + 1) (Z.of_nat (length outs'))); [lia|].
    rewrite andb_false_r. reflexivity. }
  rewrite Hs. reflexivity.
Qed.

Lemma calcScriptHash_Single_panics_witness :
  calcScriptHash (fun w _ => concat (map SignatureScript (w_TxIn w)))
    (fun b => b)
    (mkScript [] 0 0 0 [] [] singleOutputTx 1 0 [OpCondTrue] 0 false [])
    [mkPop (mkOpcode OP_DUP 1) []] x03 exampleHeap
  = Panic.
Proof.
  apply calcScriptHash_Single_panics.
  - reflexivity.
  - unfold len. cbn. lia.
Defined.

Lemma zeroSequences_returns (i : nat) (txidx' : Z) (ptrs : list nat)
    (cells : list TxIn) :
  validPtrs cells ptrs ->
  exists cells', zeroSequences i txidx' ptrs cells = Ok cells'
                 /\ length cells' = length cells.
Proof.
  unfold validPtrs. revert i cells.
  induction ptrs as [|p rest IH]; intros i cells Hv; cbn; [eauto|].
  apply Forall_cons in Hv as [Hp Hrest].
  destruct (Z.of_nat i =? txidx'); cbn [negb]; [apply IH; exact Hrest|].
  unfold deref. destruct (lookup_lt_is_Some_2 cells p Hp) as [c ->]. rsimpl.
  destruct (IH (S i) (<[p := setSequence c 0]> cells)) as (cells' & -> & Hl).
  - rewrite length_insert. exact Hrest.
  - rewrite length_insert in Hl. eauto.
Qed.

Lemma blankOutputs_returns (i : nat) (txidx' : Z) (ptrs : list nat)
    (cells : list TxOut) :
  validPtrs cells ptrs ->
  txidx' <= Z.of_nat i + len ptrs ->
  exists cells', blankOutputs i txidx' ptrs cells = Ok cells'
                 /\ length cells' = length cells.
Proof.
  unfold validPtrs, len. revert i cells.
  induction ptrs as [|p rest IH]; intros i cells Hv Hn; cbn [blankOutputs].
  - destruct (Z.ltb_spec (Z.of_nat i) txidx'); [cbn in Hn; lia | eauto].
  - destruct (Z.ltb_spec (Z.of_nat i) txidx'); [|eauto].
    apply Forall_cons in Hv as [Hp Hrest].
    unfold deref. destruct (lookup_lt_is_Some_2 cells p Hp) as [c ->]. rsimpl.
    destruct (IH (S i) (<[p := mkTxOut (-1) []]> cells)) as (cells' & -> & Hl).
    + rewrite length_insert. exact Hrest.
    + cbn [length] in Hn. lia.
    + rewrite length_insert in Hl. eauto.
Qed.

Lemma validPtrs_length {A B} (cells : list A) (cells' : list B) (ptrs : list nat) :
  length cells' = length cells -> validPtrs cells ptrs -> validPtrs cells' ptrs.
Proof. unfold validPtrs. intros ->. auto. Qed.

(** The other direction of C9: with an input index inside the outputs (and,
    under AnyOneCanPay, inside the inputs) and valid pointers, the Single
    mode returns a digest. *)
Lemma calcScriptHash_Single_returns
    (BtcEncode : wireTx -> Z -> list byte)
    (DoubleSha256 : list byte -> list byte)
    (s : Script) (script : list parsedOpcode) (hashType : byte) (h : heap) :
  Z.land (bval hashType) 31 = SigHashSingle ->
  validPtrs (txins h) (tx_TxIn (tx s)) ->
  validPtrs (txouts h) (tx_TxOut (tx s)) ->
  0 <= txidx s < len (tx_TxOut (tx s)) ->
  Z.land (bval hashType) SigHashAnyOneCanPay = 0
  \/ txidx s < len (tx_TxIn (tx s)) ->
  exists digest h',
    calcScriptHash BtcEncode DoubleSha256 s script hashType h = Ok (digest, h').
Proof.
  intros Hmode Hvi Hvo Hidx Hacp.
  unfold calcScriptHash, calcScriptHashCopy, Copy.
  rewrite (copyCells_valid _ _ Hvi), (copyCells_valid _ _ Hvo). rsimpl.
  cbn [tx_TxIn tx_TxOut txins txouts Version LockTime].
  set (I0 := cellsAt (txins h) (tx_TxIn (tx s))).
  set (O0 := cellsAt (txouts h) (tx_TxOut (tx s))).
  set (sig := unparseScript (removeOpcode script OP_CODESEPARATOR)).
  rewrite <- (cellsAt_length _ _ Hvi), <- (cellsAt_length _ _ Hvo).
  fold I0 O0.
  assert (HlenI : length I0 = length (tx_TxIn (tx s)))
    by (apply cellsAt_length; exact Hvi).
  assert (HlenO : length O0 = length (tx_TxOut (tx s)))
    by (apply cellsAt_length; exact Hvo).
  rewrite (resetInputs_valid _ _ _ _ _ (validPtrs_seq (txins h) I0)),
    cellsAt_seq. rsimpl.
  rewrite (copyCells_valid _ _ (validPtrs_seq (txouts h) O0)), cellsAt_seq.
  rsimpl. rewrite Hmode. cbn [Z.eqb SigHashSingle SigHashNone Pos.eqb].
  rewrite !length_seq.
  set (iptrs := seq (length (txins h ++ I0)) (length I0)).
  set (optrs := seq (length (txouts h ++ O0)) (length O0)).
  set (icells := (txins h ++ I0) ++ resetCells 0 (txidx s) sig I0).
  set (ocells := (txouts h ++ O0) ++ O0).
  assert (Hvi' : validPtrs icells iptrs).
  { pose proof (validPtrs_seq (txins h ++ I0) (resetCells 0 (txidx s) sig I0)) as H.
    rewrite resetCells_length in H. exact H. }
  assert (Hvo' : validPtrs ocells optrs) by apply validPtrs_seq.
  assert (Hlo : len optrs = len (tx_TxOut (tx s))).
  { unfold len, optrs. rewrite length_seq, HlenO. reflexivity. }
  assert (Hli : len iptrs = len (tx_TxIn (tx s))).
  { unfold len, iptrs. rewrite length_seq, HlenI. reflexivity. }
  rewrite slice_in_range by lia. rsimpl.
  set (outs := take (Z.to_nat (txidx s + 1 - 0)) (drop (Z.to_nat 0) optrs)).
  assert (Hvouts : validPtrs ocells outs).
  { unfold validPtrs, outs. apply Forall_take, Forall_drop. exact Hvo'. }
  destruct (blankOutputs_returns 0 (txidx s) outs ocells Hvouts)
    as (ocells' & -> & Hlo').
  { unfold outs. unfold len in *. rewrite length_take, length_drop. lia. }
  rsimpl.
  destruct (zeroSequences_returns 0 (txidx s) iptrs icells Hvi')
    as (icells' & -> & Hli').
  rsimpl.
  assert (Hins : exists ins,
             (if negb (Z.land (bval hashType) SigHashAnyOneCanPay =? 0)
              then slice iptrs (txidx s) (txidx s + 1) else Ok iptrs) = Ok ins
             /\ validPtrs icells' ins).
  { destruct (Z.eqb_spec (Z.land (bval hashType) SigHashAnyOneCanPay) 0);
      cbn [negb].
    - exists iptrs. split; [reflexivity|].
      apply (validPtrs_length icells); assumption.
    - destruct Hacp as [Hacp|Hacp]; [contradiction|].
      rewrite slice_in_range by lia. eexists. split; [reflexivity|].
      apply (validPtrs_length icells); [exact Hli'|].
      unfold validPtrs. apply Forall_take, Forall_drop. exact Hvi'. }
  destruct Hins as (ins & -> & Hvins). rsimpl.
  unfold readTx. cbn [tx_TxIn tx_TxOut txins txouts Version LockTime].
  rewrite (derefAll_valid _ _ Hvins). rsimpl.
  rewrite (derefAll_valid ocells' outs)
    by (apply (validPtrs_length ocells); assumption).
  rsimpl. eauto.
Qed.

(** * Further properties *)

(** ** Length prefixes, decoded and re-encoded *)

Lemma leValue_range (bs : list byte) :
  0 <= leValue bs < 256 ^ Z.of_nat (length bs).
Proof.
  induction bs as [|b bs IH]; cbn [leValue length].
  - cbn. lia.
  - pose proof (bval_range b). rewrite Nat2Z.inj_succ, Z.pow_succ_r by lia. lia.
Qed.

Lemma leBytes_S (k : nat) (v : Z) :
  leBytes (S k) v = byteOf v :: leBytes k (v / 256).
Proof.
  unfold leBytes. cbn [seq map]. rewrite Z.shiftr_0_r. f_equal.
  rewrite <- seq_shift, map_map. apply map_ext. intros j.
  f_equal. rewrite !Z.shiftr_div_pow2 by lia.
  replace (8 * Z.of_nat (S j)) with (8 + 8 * Z.of_nat j) by lia.
  rewrite Z.pow_add_r by lia. change (2 ^ 8) with 256.
  rewrite Z.div_div by lia. reflexivity.
Qed.

Lemma leBytes_leValue (bs : list byte) :
  leBytes (length bs) (leValue bs) = bs.
Proof.
  induction bs as [|b bs IH]; [reflexivity|].
  cbn [length leValue]. rewrite leBytes_S.
  pose proof (bval_range b). pose proof (leValue_range bs).
  f_equal.
  - apply byteOf_eq. Z.div_mod_to_equations. lia.
  - replace ((bval b + 256 * leValue bs) / 256) with (leValue bs)
      by (Z.div_mod_to_equations; lia).
    exact IH.
Qed.

(** X1. The readers of the length prefix.  Each fails with [ShortScript]
    exactly when the slice has at most K bytes (K = 1, 2, 4), a slice of
    exactly K bytes included; otherwise it returns the little-endian value
    of the first K bytes, a number below 256^K from which [leBytes]
    gives those K bytes back. *)
Theorem scriptUInt_decode (tl : list byte) :
  scriptUInt8 tl = (if len tl <=? 1 then Err StackErrShortScript
                    else Ok (leValue (take 1 tl)))
  /\ scriptUInt16 tl = (if len tl <=? 2 then Err StackErrShortScript
                        else Ok (leValue (take 2 tl)))
  /\ scriptUInt32 tl = (if len tl <=? 4 then Err StackErrShortScript
                        else Ok (leValue (take 4 tl)))
  /\ forall k : nat,
       Z.of_nat k <= len tl ->
       0 <= leValue (take k tl) < 256 ^ Z.of_nat k
       /\ leBytes k (leValue (take k tl)) = take k tl.
Proof.
  pose proof (scriptUInt_value tl 1 ltac:(auto)) as H1.
  pose proof (scriptUInt_value tl 2 ltac:(auto)) as H2.
  pose proof (scriptUInt_value tl 4 ltac:(auto)) as H4.
  cbn [Z.opp Z.eqb Pos.eqb] in H1, H2, H4.
  split; [exact H1|]. split; [exact H2|]. split; [exact H4|].
  intros k Hk.
  assert (Hlen : length (take k tl) = k).
  { rewrite length_take. unfold len in Hk. lia. }
  pose proof (leValue_range (take k tl)) as Hr.
  pose proof (leBytes_leValue (take k tl)) as Hb.
  rewrite Hlen in Hr, Hb. auto.
Qed.

(** ** parseScript: outcomes, shape of the result, concatenation *)

(** One iteration of the loop of [parseScript] without the slicing: what it
    returns by the encoded length of the opcode at [i]. *)
Lemma parseInstr_closed (script : list byte) (i : Z) (instr : byte) :
  0 <= i ->
  script !! Z.to_nat i = Some instr ->
  let L := opcodeLength instr in
  let op := mkOpcode instr L in
  let r := len script - i in
  let Lv := leValue (take (Z.to_nat (- L)) (drop (Z.to_nat (i + 1)) script)) in
  parseInstr script i =
  if L =? 1 then Ok (mkPop op [], i + 1)
  else if L >? 1 then
    if r <? L then Err StackErrShortScript
    else Ok (mkPop op (take (Z.to_nat (L - 1)) (drop (Z.to_nat (i + 1)) script)),
             i + L)
  else if r - 1 <=? - L then Err StackErrShortScript
  else if Lv >? r - 1 - - L then Err StackErrShortScript
  else if Lv >? MaxScriptElementSize then Err StackErrElementTooBig
  else Ok (mkPop op (take (Z.to_nat Lv) (drop (Z.to_nat (i + 1 - L)) script)),
           i + 1 - L + Lv).
Proof.
  intros Hi Hinstr L op r Lv.
  assert (Hlt : i < len script).
  { apply lookup_lt_Some in Hinstr. unfold len. lia. }
  unfold parseInstr.
  rewrite (proj2 (index_Ok script i instr)) by auto.
  cbn [mbind result_bind opcodemap op_length op_value]. fold L op.
  destruct (opcodeLength_cases instr) as [H1|[HN|HK]]; fold L in H1 || fold L in HN || fold L in HK.
  - rewrite H1. reflexivity.
  - destruct (Z.eqb_spec L 1); [lia|]. destruct (Z.gtb_spec L 1); [|lia].
    rewrite sliceFrom_in_range by lia. rsimpl. rewrite len_drop by lia.
    fold r. destruct (Z.ltb_spec r L); [reflexivity|].
    subst r. rewrite slice_in_range by lia. rsimpl.
    replace (i + L - (i + 1)) with (L - 1) by lia. reflexivity.
  - assert (Hk : exists k, (k = 1 \/ k = 2 \/ k = 4) /\ L = - k)
      by (destruct HK as [HK|[HK|HK]]; rewrite HK;
          [exists 1|exists 2|exists 4]; lia).
    destruct Hk as (k & Hk & HL). subst Lv. rewrite !HL.
    destruct (Z.eqb_spec (- k) 1); [lia|].
    destruct (Z.gtb_spec (- k) 1); [lia|].
    destruct (Z.ltb_spec (- k) 0); [|lia].
    rewrite (sliceFrom_in_range script (i + 1)) by lia. rsimpl.
    rewrite (scriptUInt_value _ k Hk). rewrite len_drop by lia.
    replace (- - k) with k by lia. subst r.
    replace (len script - i - 1) with (len script - (i + 1)) by lia.
    destruct (Z.leb_spec (len script - (i + 1)) k); [reflexivity|]. rsimpl.
    rewrite sliceFrom_in_range by lia. rsimpl. rewrite len_drop by lia.
    replace (len script - (i + 1 - - k)) with (len script - (i + 1) - k) by lia.
    set (Lv := leValue (take (Z.to_nat k) (drop (Z.to_nat (i + 1)) script))).
    assert (0 <= Lv) by (apply leValue_range).
    destruct (Z.gtb_spec Lv (len script - (i + 1) - k)); [reflexivity|].
    destruct (Z.gtb_spec Lv MaxScriptElementSize); [reflexivity|].
    rewrite slice_in_range by lia. rsimpl.
    replace (i + 1 - - k + Lv - (i + 1 - - k)) with Lv by lia. reflexivity.
Qed.

Lemma parseInstr_outcome (script : list byte) (i : Z) :
  0 <= i < len script ->
  parseInstr script i = Err StackErrShortScript
  \/ parseInstr script i = Err StackErrElementTooBig
  \/ exists pop i', parseInstr script i = Ok (pop, i')
                    /\ i < i' <= len script /\ parsedShape pop.
Proof.
  intros Hi. destruct (index_in_range script i Hi) as (instr & _ & Hinstr).
  rewrite (parseInstr_closed script i instr) by (lia || assumption).
  cbv zeta.
  set (L := opcodeLength instr).
  set (Lv := leValue _).
  assert (0 <= Lv) by apply leValue_range.
  unfold parsedShape.
  destruct (opcodeLength_cases instr) as [H1|[HN|HK]];
    fold L in H1 || fold L in HN || fold L in HK.
  - rewrite H1. right. right. eexists _, _. split; [reflexivity|].
    cbn. split; [lia|]. unfold opcodemap. fold L. rewrite H1.
    repeat split; auto; lia.
  - destruct (Z.eqb_spec L 1); [lia|]. destruct (Z.gtb_spec L 1); [|lia].
    destruct (Z.ltb_spec (len script - i) L); [auto|].
    right. right. eexists _, _. split; [reflexivity|].
    cbn. split; [lia|]. unfold opcodemap. fold L.
    repeat split; try lia.
    intros _. rewrite len_take by (rewrite len_drop; lia). reflexivity.
  - destruct (Z.eqb_spec L 1); [lia|]. destruct (Z.gtb_spec L 1); [lia|].
    destruct (Z.leb_spec (len script - i - 1) (- L)); [auto|].
    destruct (Z.gtb_spec Lv (len script - i - 1 - - L)); [auto|].
    destruct (Z.gtb_spec Lv MaxScriptElementSize); [auto|].
    right. right. eexists _, _. split; [reflexivity|].
    cbn. split; [lia|]. unfold opcodemap. fold L.
    repeat split; try lia.
    intros _. rewrite len_take by (rewrite len_drop; lia). lia.
Qed.

Lemma parseLoop_outcome (fuel : nat) (script : list byte) (i : Z)
    (retScript : list parsedOpcode) :
  0 <= i <= len script -> len script - i <= Z.of_nat fuel ->
  Forall parsedShape retScript ->
  parseLoop fuel script i retScript = Err StackErrShortScript
  \/ parseLoop fuel script i retScript = Err StackErrElementTooBig
  \/ exists pops, parseLoop fuel script i retScript = Ok pops
                  /\ Forall parsedShape pops
                  /\ len pops <= len retScript + (len script - i).
Proof.
  revert i retScript. induction fuel as [|fuel IH]; intros i ret Hi Hf Hret;
    cbn [parseLoop].
  - destruct (Z.ltb_spec i (len script)); [lia|].
    right. right. exists ret. split; [reflexivity|]. split; [exact Hret | lia].
  - destruct (Z.ltb_spec i (len script)).
    + destruct (parseInstr_outcome script i ltac:(lia))
        as [->|[->|(pop & i' & -> & Hi' & Hpop)]]; auto.
      rsimpl.
      destruct (IH i' (ret ++ [pop])) as [->|[->|(pops & -> & Hp & Hl)]];
        auto; try lia.
      { apply Forall_app. split; [exact Hret|]. constructor; auto. }
      right. right. exists pops. split; [reflexivity|]. split; [exact Hp|].
      rewrite len_app in Hl. change (len [pop]) with 1 in Hl. lia.
    + right. right. exists ret. split; [reflexivity|]. split; [exact Hret | lia].
Qed.

(** X2. [parseScript] returns on every byte string: it has no index out of
    range, and its only errors are [ShortScript] and [ElementTooBig] (with a
    table that holds all 256 values, [InvalidOpcode] cannot come up). *)
Theorem parseScript_outcomes (script : list byte) :
  parseScript script = Err StackErrShortScript
  \/ parseScript script = Err StackErrElementTooBig
  \/ exists pops, parseScript script = Ok pops.
Proof.
  destruct (parseLoop_outcome (length script) script 0 [])
    as [H|[H|(pops & H & _)]]; auto.
  - pose proof (len_nonneg script). lia.
  - unfold len. lia.
  - right. right. eauto.
Qed.

(** X3. The shape of a parsed script: every opcode carries the table's
    descriptor for its byte value and data of the length its descriptor
    calls for (none, N-1 bytes, or at most 520 bytes behind a length
    prefix), and there are at most as many opcodes as the script has
    bytes. *)
Theorem parseScript_shape (script : list byte) (pops : list parsedOpcode) :
  parseScript script = Ok pops ->
  Forall parsedShape pops /\ len pops <= len script.
Proof.
  intros H. unfold parseScript in H.
  assert (H0 : 0 <= 0 <= len script) by (pose proof (len_nonneg script); lia).
  assert (H1 : len script - 0 <= Z.of_nat (length script)) by (unfold len; lia).
  destruct (parseLoop_outcome (length script) script 0 [] H0 H1
              (List.Forall_nil _))
    as [H'|[H'|(pops' & H' & Hs & Hl)]]; rewrite H in H'; try discriminate.
  injection H' as <-. split; [exact Hs|].
  change (len (@nil parsedOpcode)) with 0 in Hl. lia.
Qed.

Lemma parseScript_shape_witness :
  Forall parsedShape
    [mkPop (mkOpcode x02 3) [x00; x51]; mkPop (mkOpcode x4d (-2)) [x09];
     mkPop (mkOpcode x61 1) []]
  /\ len [mkPop (mkOpcode x02 3) [x00; x51]; mkPop (mkOpcode x4d (-2)) [x09];
          mkPop (mkOpcode x61 1) []]
     <= len [x02; x00; x51; x4d; x01; x00; x09; x61].
Proof.
  apply (parseScript_shape [x02; x00; x51; x4d; x01; x00; x09; x61]).
  reflexivity.
Defined.

Lemma drop_app_len {A} (a b : list A) (n : Z) :
  0 <= n -> drop (Z.to_nat (len a + n)) (a ++ b) = drop (Z.to_nat n) b.
Proof.
  intros Hn. unfold len.
  replace (Z.to_nat (Z.of_nat (length a) + n)) with (length a + Z.to_nat n)%nat
    by lia.
  apply drop_app_add.
Qed.

Lemma take_drop_app_l {A} (a b : list A) (n k : Z) :
  0 <= n -> 0 <= k -> n + k <= len a ->
  take (Z.to_nat k) (drop (Z.to_nat n) (a ++ b))
  = take (Z.to_nat k) (drop (Z.to_nat n) a).
Proof.
  intros Hn Hk Hl. unfold len in Hl.
  rewrite drop_app_le by lia. apply take_app_le. rewrite length_drop. lia.
Qed.

Lemma parseInstr_app_l (a b : list byte) (i i' : Z) (pop : parsedOpcode) :
  0 <= i < len a ->
  parseInstr a i = Ok (pop, i') ->
  parseInstr (a ++ b) i = Ok (pop, i').
Proof.
  intros Hi. destruct (index_in_range a i Hi) as (instr & _ & Hinstr).
  assert (Hinstr' : (a ++ b) !! Z.to_nat i = Some instr)
    by (apply lookup_app_l_Some; exact Hinstr).
  rewrite (parseInstr_closed a i instr), (parseInstr_closed (a ++ b) i instr)
    by (lia || assumption).
  cbv zeta. rewrite len_app. pose proof (len_nonneg b) as Hb.
  set (L := opcodeLength instr).
  destruct (opcodeLength_cases instr) as [H1|[HN|HK]];
    fold L in H1 || fold L in HN || fold L in HK.
  - rewrite H1. cbn. auto.
  - destruct (Z.eqb_spec L 1); [lia|]. destruct (Z.gtb_spec L 1); [|lia].
    destruct (Z.ltb_spec (len a - i) L); [discriminate|].
    destruct (Z.ltb_spec (len a + len b - i) L); [lia|].
    rewrite take_drop_app_l by lia. auto.
  - destruct (Z.eqb_spec L 1); [lia|]. destruct (Z.gtb_spec L 1); [lia|].
    destruct (Z.leb_spec (len a - i - 1) (- L)); [discriminate|].
    destruct (Z.leb_spec (len a + len b - i - 1) (- L)); [lia|].
    rewrite (take_drop_app_l a b (i + 1) (- L)) by lia.
    set (Lv := leValue _).
    assert (0 <= Lv) by apply leValue_range.
    destruct (Z.gtb_spec Lv (len a - i - 1 - - L)); [discriminate|].
    destruct (Z.gtb_spec Lv (len a + len b - i - 1 - - L)); [lia|].
    destruct (Z.gtb_spec Lv MaxScriptElementSize); [discriminate|].
    rewrite take_drop_app_l by lia. auto.
Qed.

(** An outcome of [parseInstr] with the next offset moved by [n]. *)
Lemma parseInstr_app_r (a b : list byte) (j : Z) :
  0 <= j < len b ->
  parseInstr (a ++ b) (len a + j)
  = '(pop, j') ← parseInstr b j; Ok (pop, len a + j').
Proof.
  intros Hj. destruct (index_in_range b j Hj) as (instr & _ & Hinstr).
  pose proof (len_nonneg a) as Ha.
  assert (Hinstr' : (a ++ b) !! Z.to_nat (len a + j) = Some instr).
  { unfold len. rewrite lookup_app_r by lia.
    replace (Z.to_nat (Z.of_nat (length a) + j) - length a)%nat
      with (Z.to_nat j) by lia. exact Hinstr. }
  rewrite (parseInstr_closed b j instr),
    (parseInstr_closed (a ++ b) (len a + j) instr) by (lia || assumption).
  cbv zeta. rewrite len_app.
  replace (len a + len b - (len a + j)) with (len b - j) by lia.
  replace (len a + j + 1) with (len a + (j + 1)) by lia.
  replace (len a + (j + 1) - opcodeLength instr)
    with (len a + (j + 1 - opcodeLength instr)) by lia.
  set (L := opcodeLength instr).
  destruct (opcodeLength_cases instr) as [H1|[HN|HK]];
    fold L in H1 || fold L in HN || fold L in HK.
  - rewrite H1. cbn. first [reflexivity | do 2 f_equal; lia].
  - destruct (Z.eqb_spec L 1); [lia|]. destruct (Z.gtb_spec L 1); [|lia].
    destruct (Z.ltb_spec (len b - j) L); [reflexivity|].
    rewrite drop_app_len by lia. rsimpl.
    first [reflexivity | do 2 f_equal; lia].
  - destruct (Z.eqb_spec L 1); [lia|]. destruct (Z.gtb_spec L 1); [lia|].
    destruct (Z.leb_spec (len b - j - 1) (- L)); [reflexivity|].
    rewrite (drop_app_len a b (j + 1)) by lia.
    set (Lv := leValue _).
    destruct (Z.gtb_spec Lv (len b - j - 1 - - L)); [reflexivity|].
    destruct (Z.gtb_spec Lv MaxScriptElementSize); [reflexivity|].
    rewrite drop_app_len by lia. rsimpl.
    first [reflexivity | do 2 f_equal; lia].
Qed.

Lemma parseLoop_more_fuel_gen (fuel fuel' : nat) (script : list byte) (i : Z)
    (retScript : list parsedOpcode) :
  parseLoop fuel script i retScript <> OutOfFuel -> (fuel <= fuel')%nat ->
  parseLoop fuel' script i retScript = parseLoop fuel script i retScript.
Proof.
  revert fuel' i retScript.
  induction fuel as [|fuel IH]; intros fuel' i ret; cbn [parseLoop].
  - destruct (Z.ltb_spec i (len script)); [congruence|]. intros _ _.
    destruct fuel'; cbn [parseLoop];
      destruct (Z.ltb_spec i (len script)); try lia; reflexivity.
  - destruct (Z.ltb_spec i (len script)) as [Hlt|Hge].
    + intros Hr Hf. destruct fuel' as [|fuel']; [lia|]. cbn [parseLoop].
      destruct (Z.ltb_spec i (len script)); [|lia].
      destruct (parseInstr script i) as [[pop i']| | |]; try reflexivity.
      rsimpl. apply IH; [exact Hr | lia].
    + intros _ _. destruct fuel'; cbn [parseLoop];
        destruct (Z.ltb_spec i (len script)); try lia; reflexivity.
Qed.

Lemma parseLoop_more_fuel (fuel fuel' : nat) (script : list byte) (i : Z)
    (retScript pops : list parsedOpcode) :
  parseLoop fuel script i retScript = Ok pops -> (fuel <= fuel')%nat ->
  parseLoop fuel' script i retScript = Ok pops.
Proof.
  intros H Hf. rewrite <- H. apply parseLoop_more_fuel_gen; [|exact Hf].
  rewrite H. discriminate.
Qed.

(** The loop over the first part of a concatenation: once it has parsed the
    first part, it goes on at the start of the second. *)
Lemma parseLoop_app_l (b : list byte) (fuel : nat) (a : list byte) (i : Z)
    (retScript pops : list parsedOpcode) :
  0 <= i <= len a ->
  parseLoop fuel a i retScript = Ok pops ->
  forall fuel',
    parseLoop fuel' (a ++ b) (len a) pops <> OutOfFuel ->
    parseLoop (fuel + fuel') (a ++ b) i retScript
    = parseLoop fuel' (a ++ b) (len a) pops.
Proof.
  revert i retScript. induction fuel as [|fuel IH]; intros i ret Hi;
    cbn [parseLoop].
  - destruct (Z.ltb_spec i (len a)); [discriminate|]. intros [= <-].
    intros fuel' Hr. replace i with (len a) by lia. reflexivity.
  - destruct (Z.ltb_spec i (len a)) as [Hlt|Hge].
    + destruct (parseInstr a i) as [[pop i']| | |] eqn:Hp; try discriminate.
      rsimpl. intros Hloop fuel' Hr.
      cbn [Nat.add parseLoop]. rewrite len_app.
      pose proof (len_nonneg b).
      destruct (Z.ltb_spec i (len a + len b)); [|lia].
      rewrite (parseInstr_app_l a b i i' pop) by (lia || exact Hp). rsimpl.
      apply parseInstr_Ok in Hp as [Hi' _]; [|lia].
      apply (IH i' (ret ++ [pop])); [lia | exact Hloop | exact Hr].
    + intros [= <-] fuel' Hr. replace i with (len a) by lia.
      apply parseLoop_more_fuel_gen; [exact Hr | lia].
Qed.

(** The loop over the second part of a concatenation does what it does on
    the second part alone, errors included. *)
Lemma parseLoop_app_r_gen (a : list byte) (pre : list parsedOpcode) (fuel : nat)
    (b : list byte) (j : Z) (retScript : list parsedOpcode) :
  0 <= j ->
  parseLoop fuel (a ++ b) (len a + j) (pre ++ retScript)
  = (pops ← parseLoop fuel b j retScript; Ok (pre ++ pops)).
Proof.
  revert j retScript. induction fuel as [|fuel IH]; intros j ret Hj;
    cbn [parseLoop]; rewrite len_app.
  - destruct (Z.ltb_spec j (len b));
      destruct (Z.ltb_spec (len a + j) (len a + len b)); try lia; reflexivity.
  - destruct (Z.ltb_spec j (len b)) as [Hlt|Hge].
    + destruct (Z.ltb_spec (len a + j) (len a + len b)); [|lia].
      rewrite parseInstr_app_r by lia.
      destruct (parseInstr b j) as [[pop j']| | |] eqn:Hp; try reflexivity.
      rsimpl. apply parseInstr_Ok in Hp as [Hj' _]; [|lia].
      rewrite <- app_assoc. apply IH. lia.
    + destruct (Z.ltb_spec (len a + j) (len a + len b)); [lia | reflexivity].
Qed.

Lemma parseLoop_app_r (a : list byte) (pre : list parsedOpcode) (fuel : nat)
    (b : list byte) (j : Z) (retScript pops : list parsedOpcode) :
  0 <= j ->
  parseLoop fuel b j retScript = Ok pops ->
  parseLoop fuel (a ++ b) (len a + j) (pre ++ retScript) = Ok (pre ++ pops).
Proof.
  intros Hj H. rewrite parseLoop_app_r_gen by exact Hj. rewrite H. reflexivity.
Qed.

Lemma parseScript_not_OutOfFuel (script : list byte) :
  parseScript script <> OutOfFuel.
Proof.
  pose proof (parseScript_returns script) as H. intros E. rewrite E in H.
  exact H.
Qed.

(** X4. Scripts concatenate: behind a byte string that parses, a second
    byte string is parsed as it is on its own; the concatenation parses to
    the concatenation of the two opcode sequences, and fails as the second
    string does. *)
Theorem parseScript_app (a b : list byte) (pa : list parsedOpcode) :
  parseScript a = Ok pa ->
  parseScript (a ++ b) = (pb ← parseScript b; Ok (pa ++ pb)).
Proof.
  intros Ha. unfold parseScript in *. rewrite length_app.
  pose proof (parseLoop_app_r_gen a pa (length b) b 0 [] ltac:(lia)) as Hr.
  rewrite Z.add_0_r, app_nil_r in Hr.
  rewrite (parseLoop_app_l b (length a) a 0 [] pa); [exact Hr | | exact Ha |].
  - pose proof (len_nonneg a). lia.
  - rewrite Hr. pose proof (parseScript_not_OutOfFuel b) as Hb.
    unfold parseScript in Hb.
    destruct (parseLoop (length b) b 0 []); rsimpl; congruence.
Qed.

Lemma parseScript_app_witness :
  parseScript ([OP_DATA_1; x07] ++ [OP_DUP; OP_PUSHDATA1; x01; x09; OP_CHECKSIG])
  = (pb ← parseScript [OP_DUP; OP_PUSHDATA1; x01; x09; OP_CHECKSIG];
     Ok ([mkPop (mkOpcode OP_DATA_1 2) [x07]] ++ pb)).
Proof.
  apply parseScript_app. reflexivity.
Defined.

(** ** Serialize, then parse *)

Lemma leValue_leBytes (k : nat) (v : Z) :
  0 <= v < 256 ^ Z.of_nat k -> leValue (leBytes k v) = v.
Proof.
  revert v. induction k as [|k IH]; intros v Hv.
  - cbn in *. lia.
  - rewrite leBytes_S. cbn [leValue]. rewrite bval_byteOf.
    rewrite Nat2Z.inj_succ, Z.pow_succ_r in Hv by lia.
    rewrite IH by (Z.div_mod_to_equations; lia).
    Z.div_mod_to_equations. lia.
Qed.

Lemma length_leBytes (k : nat) (v : Z) : length (leBytes k v) = k.
Proof. unfold leBytes. rewrite length_map, length_seq. reflexivity. Qed.

Lemma bytes_nonempty (pop : parsedOpcode) : 0 < len (bytes pop).
Proof.
  unfold bytes, len. cbv zeta.
  destruct (op_length (pop_opcode pop) =? 1); [cbn; lia|].
  destruct (op_length (pop_opcode pop) >? 1); cbn [length]; lia.
Qed.

Lemma parseInstr_bytes (pop : parsedOpcode) (rest : list byte) :
  reparsable pop ->
  (op_length (pop_opcode pop) < 0 -> data pop <> [] \/ rest <> []) ->
  parseInstr (bytes pop ++ rest) 0 = Ok (pop, len (bytes pop)).
Proof.
  destruct pop as [[v L] d]. unfold reparsable. cbn [pop_opcode op_value op_length data].
  intros (Hop & H1 & HN & HK) Hend.
  unfold opcodemap in Hop. injection Hop as HL.
  assert (Hhd : (bytes (mkPop (mkOpcode v L) d) ++ rest) !! Z.to_nat 0 = Some v).
  { unfold bytes. cbn [pop_opcode op_value op_length data].
    destruct (L =? 1); [reflexivity|]. destruct (L >? 1); reflexivity. }
  rewrite (parseInstr_closed _ 0 v) by (lia || exact Hhd).
  cbv zeta. rewrite HL. rewrite len_app.
  pose proof (len_nonneg rest) as Hr. pose proof (len_nonneg d) as Hd.
  unfold bytes. cbn [pop_opcode op_value op_length data].
  destruct (opcodeLength_cases v) as [E1|[EN|EK]]; rewrite HL in *.
  - rewrite E1. cbn [Z.eqb Pos.eqb]. rewrite (H1 E1). reflexivity.
  - destruct (Z.eqb_spec L 1); [lia|]. destruct (Z.gtb_spec L 1); [|lia].
    specialize (HN ltac:(lia)).
    change (len (v :: d)) with (Z.of_nat (S (length d))).
    unfold len in *.
    destruct (Z.ltb_spec (Z.of_nat (S (length d)) + Z.of_nat (length rest) - 0) L);
      [lia|].
    change (Z.to_nat (0 + 1)) with 1%nat. cbn [app drop]. rewrite drop_0.
    replace (Z.to_nat (L - 1)) with (length d) by lia.
    rewrite take_app_length. do 2 f_equal. lia.
  - destruct (Z.eqb_spec L 1); [lia|]. destruct (Z.gtb_spec L 1); [lia|].
    destruct (HK ltac:(lia)) as [Hmax Hfit].
    specialize (Hend ltac:(lia)).
    assert (Hne : 0 < len d + len rest).
    { destruct Hend as [Hne|Hne]; [destruct d | destruct rest];
        try contradiction; unfold len in *; cbn [length] in *; lia. }
    set (k := Z.to_nat (- L)).
    assert (Hk : - L = Z.of_nat k) by (unfold k; lia).
    rewrite Hk in Hfit.
    change (Z.to_nat (0 + 1)) with 1%nat.
    replace (Z.to_nat (0 + 1 - L)) with (S k) by lia.
    cbn [app drop]. rewrite drop_0.
    assert (Hlb : len (v :: leBytes k (len d) ++ d) = 1 + Z.of_nat k + len d).
    { unfold len. cbn [length]. rewrite length_app, length_leBytes. lia. }
    rewrite Hlb, <- app_assoc.
    rewrite (take_app_length' (leBytes k (len d)) (d ++ rest) k)
      by (symmetry; apply length_leBytes).
    rewrite (drop_app_length' (leBytes k (len d)) (d ++ rest) k)
      by (symmetry; apply length_leBytes).
    rewrite leValue_leBytes by lia.
    destruct (Z.leb_spec (1 + Z.of_nat k + len d + len rest - 0 - 1) (- L));
      [lia|].
    destruct (Z.gtb_spec (len d) (1 + Z.of_nat k + len d + len rest - 0 - 1 - - L));
      [lia|].
    destruct (Z.gtb_spec (len d) MaxScriptElementSize); [lia|].
    unfold len at 1. rewrite Nat2Z.id, take_app_length.
    do 2 f_equal. lia.
Qed.

Lemma endsInData_cons (pop : parsedOpcode) (pops : list parsedOpcode) :
  endsInData (pop :: pops) ->
  (op_length (pop_opcode pop) < 0 -> data pop <> [] \/ unparseScript pops <> [])
  /\ endsInData pops.
Proof.
  unfold endsInData. destruct pops as [|pop' pops].
  - cbn. auto.
  - rewrite last_cons. destruct (last (pop' :: pops)) as [l|] eqn:E.
    + intros H. split; [|exact H]. intros _. right.
      rewrite unparseScript_cons. pose proof (bytes_nonempty pop').
      destruct (bytes pop'); [unfold len in *; cbn in *; lia | discriminate].
    + apply last_None in E. discriminate.
Qed.

(** One serialized opcode in front of a byte string: it is parsed back, and
    the rest is parsed as it is on its own. *)
Lemma parseScript_bytes_app (pop : parsedOpcode) (rest : list byte) :
  reparsable pop ->
  (op_length (pop_opcode pop) < 0 -> data pop <> [] \/ rest <> []) ->
  parseScript (bytes pop ++ rest) = (pops ← parseScript rest; Ok (pop :: pops)).
Proof.
  intros Hpop Hend. unfold parseScript.
  pose proof (bytes_nonempty pop) as Hb.
  pose proof (parseLoop_app_r_gen (bytes pop) [pop] (length rest) rest 0 []
                ltac:(lia)) as Hr.
  rewrite Z.add_0_r, app_nil_r in Hr. cbn [app] in Hr.
  remember (length (bytes pop ++ rest)) as fuel eqn:Hf.
  rewrite length_app in Hf. destruct fuel as [|fuel]; [unfold len in Hb; lia|].
  cbn [parseLoop]. rewrite len_app. pose proof (len_nonneg rest).
  destruct (Z.ltb_spec 0 (len (bytes pop) + len rest)); [|lia].
  rewrite (parseInstr_bytes pop _ Hpop Hend). rsimpl. cbn [app].
  rewrite <- Hr. apply parseLoop_more_fuel_gen; [|unfold len in Hb; lia].
  rewrite Hr. pose proof (parseScript_not_OutOfFuel rest) as Hn.
  unfold parseScript in Hn.
  destruct (parseLoop (length rest) rest 0 []); rsimpl; congruence.
Qed.

Lemma unparse_then_parse (pops : list parsedOpcode) :
  Forall reparsable pops -> endsInData pops ->
  parseScript (unparseScript pops) = Ok pops.
Proof.
  induction 1 as [|pop pops Hpop _ IH]; intros Hend; [reflexivity|].
  apply endsInData_cons in Hend as [Hend Hend'].
  rewrite unparseScript_cons, (parseScript_bytes_app pop _ Hpop Hend).
  rewrite (IH Hend'). reflexivity.
Qed.

Lemma unparse_then_parse_short (pops : list parsedOpcode) :
  Forall reparsable pops -> ~ endsInData pops ->
  parseScript (unparseScript pops) = Err StackErrShortScript.
Proof.
  induction 1 as [|pop pops Hpop Hpops IH]; intros Hend.
  - exfalso. apply Hend. exact I.
  - rewrite unparseScript_cons. destruct pops as [|pop' pops].
    + (* the last opcode: a length-prefixed push of the empty string *)
      assert (Hlast : op_length (pop_opcode pop) < 0 /\ data pop = []).
      { unfold endsInData in Hend. cbn in Hend.
        destruct (Z_lt_dec (op_length (pop_opcode pop)) 0) as [Hl|Hl];
          [|exfalso; apply Hend; intros; lia].
        split; [exact Hl|]. destruct (data pop); [reflexivity|].
        exfalso. apply Hend. intros _. discriminate. }
      destruct Hlast as [HL Hd]. clear IH Hend Hpops.
      destruct pop as [[v L] d]. cbn [pop_opcode op_length data] in *. subst d.
      destruct Hpop as (Hop & _). unfold opcodemap in Hop.
      cbn [pop_opcode op_value op_length] in Hop. injection Hop as Hop.
      change (unparseScript []) with (@nil byte). rewrite app_nil_r.
      assert (Hk : L = -1 \/ L = -2 \/ L = -4).
      { destruct (opcodeLength_cases v) as [?|[?|?]]; rewrite Hop in *;
          try lia; assumption. }
      assert (Hb : bytes (mkPop (mkOpcode v L) [])
                   = v :: leBytes (Z.to_nat (- L)) 0).
      { unfold bytes. cbn [pop_opcode op_value op_length data].
        destruct (Z.eqb_spec L 1); [lia|]. destruct (Z.gtb_spec L 1); [lia|].
        rewrite app_nil_r. reflexivity. }
      rewrite Hb. unfold parseScript.
      cbn [length parseLoop]. rewrite length_leBytes.
      assert (Hlen : len (v :: leBytes (Z.to_nat (- L)) 0) = 1 - L).
      { unfold len. cbn [length]. rewrite length_leBytes. lia. }
      rewrite Hlen. destruct (Z.ltb_spec 0 (1 - L)); [|lia].
      rewrite (parseInstr_closed _ 0 v) by (lia || reflexivity).
      cbv zeta. rewrite Hop, Hlen.
      destruct (Z.eqb_spec L 1); [lia|]. destruct (Z.gtb_spec L 1); [lia|].
      destruct (Z.leb_spec (1 - L - 0 - 1) (- L)); [reflexivity | lia].
    + assert (Hend' : ~ endsInData (pop' :: pops)).
      { intros H. apply Hend. unfold endsInData in *.
        rewrite last_cons. destruct (last (pop' :: pops)) eqn:E; [exact H|].
        apply last_None in E. discriminate. }
      rewrite (parseScript_bytes_app pop _ Hpop).
      * rewrite (IH Hend'). reflexivity.
      * intros _. right. rewrite unparseScript_cons.
        pose proof (bytes_nonempty pop').
        destruct (bytes pop'); [unfold len in *; cbn in *; lia | discriminate].
Qed.

(** X5. Serialize, then parse.  For a sequence of opcodes that carry the
    table's descriptors and data of the length the descriptor calls for (at
    most 520 bytes and fitting the prefix behind a length prefix),
    [parseScript] gives the sequence back from its serialization, unless the
    last opcode is a length-prefixed push of the empty string: then the
    script is turned down with [ShortScript]. *)
Theorem unparseScript_parseScript (pops : list parsedOpcode) :
  Forall reparsable pops ->
  (endsInData pops -> parseScript (unparseScript pops) = Ok pops)
  /\ (~ endsInData pops ->
      parseScript (unparseScript pops) = Err StackErrShortScript).
Proof.
  intros Hre. split.
  - apply unparse_then_parse. exact Hre.
  - apply unparse_then_parse_short. exact Hre.
Qed.

Lemma unparseScript_parseScript_witness :
  parseScript
    (unparseScript
       [mkPop (mkOpcode OP_PUSHDATA1 (-1)) []; mkPop (mkOpcode OP_DATA_1 2) [x07];
        mkPop (mkOpcode OP_PUSHDATA2 (-2)) [x09; x0a]; mkPop (mkOpcode OP_DUP 1) []])
  = Ok [mkPop (mkOpcode OP_PUSHDATA1 (-1)) []; mkPop (mkOpcode OP_DATA_1 2) [x07];
        mkPop (mkOpcode OP_PUSHDATA2 (-2)) [x09; x0a]; mkPop (mkOpcode OP_DUP 1) []].
Proof.
  apply unparseScript_parseScript.
  - repeat constructor; cbn; try reflexivity; try discriminate; try lia.
  - unfold endsInData. cbn. lia.
Defined.

(** ** removeOpcode and removeOpcodeByData *)

Lemma removeOpcode_filter (pkscript : list parsedOpcode) (opcode' : byte) :
  removeOpcode pkscript opcode'
  = List.filter (fun pop => negb (Byte.eqb (op_value (pop_opcode pop)) opcode'))
      pkscript.
Proof. unfold removeOpcode. apply removeOpcode_acc. Qed.

Lemma removeOpcodeByData_filter (pkscript : list parsedOpcode) (d : list byte) :
  removeOpcodeByData pkscript d
  = List.filter (fun pop => negb (bytesEqual (data pop) d)) pkscript.
Proof. unfold removeOpcodeByData. apply removeOpcodeByData_acc. Qed.

Lemma filter_filter_same {A} (f : A -> bool) (l : list A) :
  List.filter f (List.filter f l) = List.filter f l.
Proof.
  induction l as [|x l IH]; cbn; [reflexivity|].
  destruct (f x) eqn:E; cbn; [rewrite E, IH|]; auto.
Qed.

Lemma filter_filter_comm {A} (f g : A -> bool) (l : list A) :
  List.filter f (List.filter g l) = List.filter g (List.filter f l).
Proof.
  induction l as [|x l IH]; cbn; [reflexivity|].
  destruct (f x) eqn:Ef, (g x) eqn:Eg; cbn; rewrite ?Ef, ?Eg, IH; reflexivity.
Qed.

Lemma byte_eqb_false (a b : byte) : Byte.eqb a b = false <-> a <> b.
Proof.
  split.
  - intros E Heq. apply Byte.byte_dec_lb in Heq. congruence.
  - intros Hne. destruct (Byte.eqb a b) eqn:E; [|reflexivity].
    apply Byte.byte_dec_bl in E. contradiction.
Qed.

(** X6. [removeOpcode] keeps, in order, exactly the parsed opcodes whose
    byte value differs from the one given, whatever their data: nothing of
    that value is left, everything else stays, a second removal changes
    nothing, and the removal from a concatenation is the concatenation of
    the removals. *)
Theorem removeOpcode_keeps_the_others (opcode' : byte) :
  (forall pkscript (pop : parsedOpcode),
      In pop (removeOpcode pkscript opcode')
      <-> In pop pkscript /\ op_value (pop_opcode pop) <> opcode')
  /\ (forall pkscript,
        removeOpcode pkscript opcode'
        = List.filter
            (fun pop => negb (Byte.eqb (op_value (pop_opcode pop)) opcode'))
            pkscript)
  /\ (forall pkscript,
        removeOpcode (removeOpcode pkscript opcode') opcode'
        = removeOpcode pkscript opcode')
  /\ (forall a b,
        removeOpcode (a ++ b) opcode'
        = removeOpcode a opcode' ++ removeOpcode b opcode')
  /\ (forall pkscript, len (removeOpcode pkscript opcode') <= len pkscript).
Proof.
  split; [|split; [|split; [|split]]].
  - intros pkscript pop. rewrite removeOpcode_filter, filter_In, negb_true_iff.
    rewrite byte_eqb_false. reflexivity.
  - intros. apply removeOpcode_filter.
  - intros. rewrite !removeOpcode_filter. apply filter_filter_same.
  - intros. rewrite !removeOpcode_filter. apply List.filter_app.
  - intros. rewrite removeOpcode_filter. unfold len.
    pose proof (List.filter_length_le
                  (fun pop => negb (Byte.eqb (op_value (pop_opcode pop)) opcode'))
                  pkscript). lia.
Qed.

(** X7. The two removals do not interfere: removing an opcode value and
    removing the opcodes with a given data give the same result in either
    order, and a second removal by the same data changes nothing. *)
Theorem removeOpcode_removeOpcodeByData_commute
    (pkscript : list parsedOpcode) (opcode' : byte) (d : list byte) :
  removeOpcode (removeOpcodeByData pkscript d) opcode'
  = removeOpcodeByData (removeOpcode pkscript opcode') d
  /\ removeOpcodeByData (removeOpcodeByData pkscript d) d
     = removeOpcodeByData pkscript d.
Proof.
  rewrite !removeOpcode_filter, !removeOpcodeByData_filter. split.
  - apply filter_filter_comm.
  - apply filter_filter_same.
Qed.

(** ** Removal on serialized scripts *)

Lemma parseScript_reparsable (script : list byte) (pops : list parsedOpcode) :
  parseScript script = Ok pops -> Forall reparsable pops.
Proof.
  intros H. pose proof (parseScript_bytesChecked script pops H) as Hc.
  assert (Hs : Forall parsedShape pops).
  { unfold parseScript in H.
    assert (H0 : 0 <= 0 <= len script) by (pose proof (len_nonneg script); lia).
    assert (H1 : len script - 0 <= Z.of_nat (length script)) by (unfold len; lia).
    destruct (parseLoop_outcome (length script) script 0 [] H0 H1
                (List.Forall_nil _))
      as [H'|[H'|(pops' & H' & Hs & _)]]; rewrite H in H'; try discriminate.
    injection H' as <-. exact Hs. }
  apply Forall_forall. intros pop Hin.
  rewrite Forall_forall in Hc, Hs. specialize (Hc pop Hin). specialize (Hs pop Hin).
  destruct Hs as (Hop & H1 & HN & HK). unfold reparsable.
  split; [exact Hop|]. split; [exact H1|]. split; [exact HN|].
  intros Hneg. split; [apply HK; exact Hneg|].
  unfold bytesChecked in Hc. cbv zeta in Hc.
  destruct (Z.eqb_spec (op_length (pop_opcode pop)) 1); [lia|].
  destruct (Z.gtb_spec (op_length (pop_opcode pop)) 1); [lia|].
  destruct (Z.ltb_spec (len (data pop)) (2 ^ (8 * - op_length (pop_opcode pop))));
    [|discriminate].
  rewrite Z.pow_mul_r in * by lia. assumption.
Qed.

Lemma filter_reparsable (f : parsedOpcode -> bool) (pops : list parsedOpcode) :
  Forall reparsable pops -> Forall reparsable (List.filter f pops).
Proof.
  induction 1 as [|pop pops Hpop _ IH]; cbn; [constructor|].
  destruct (f pop); [constructor; assumption | assumption].
Qed.

Lemma unparseScript_filter_len (f : parsedOpcode -> bool) (pops : list parsedOpcode) :
  len (unparseScript (List.filter f pops)) <= len (unparseScript pops).
Proof.
  induction pops as [|pop pops IH]; cbn [List.filter]; [lia|].
  pose proof (bytes_nonempty pop).
  destruct (f pop); rewrite !unparseScript_cons, ?len_app; lia.
Qed.

Lemma filter_all {A} (f : A -> bool) (l : list A) :
  Forall (fun x => f x = true) l -> List.filter f l = l.
Proof.
  induction 1 as [|x l Hx _ IH]; cbn; [reflexivity|]. rewrite Hx, IH. reflexivity.
Qed.

(** X8. Removal on the serialized script ([TstRemoveOpcode] and
    [TstRemoveOpcodeByData]: parse, remove, serialize).  On a script that
    parses, both return a script that is no longer than the one given and
    equal to it when nothing is to be removed; the script returned parses to
    the opcodes kept, unless the last opcode kept is a length-prefixed push
    of the empty string: then it does not parse any more.  On a script that
    does not parse they fail as [parseScript] does. *)
Theorem TstRemoveOpcode_on_bytes (pkscript : list byte) :
  (forall pops, parseScript pkscript = Ok pops ->
     (forall opcode',
        exists out,
          TstRemoveOpcode pkscript opcode' = Ok out
          /\ len out <= len pkscript
          /\ (Forall (fun pop => op_value (pop_opcode pop) <> opcode') pops ->
              out = pkscript)
          /\ (endsInData (removeOpcode pops opcode') ->
              parseScript out = Ok (removeOpcode pops opcode'))
          /\ (~ endsInData (removeOpcode pops opcode') ->
              parseScript out = Err StackErrShortScript))
     /\ (forall d,
           exists out,
             TstRemoveOpcodeByData pkscript d = Ok out
             /\ len out <= len pkscript
             /\ (Forall (fun pop => data pop <> d) pops -> out = pkscript)
             /\ (endsInData (removeOpcodeByData pops d) ->
                 parseScript out = Ok (removeOpcodeByData pops d))
             /\ (~ endsInData (removeOpcodeByData pops d) ->
                 parseScript out = Err StackErrShortScript)))
  /\ (forall e, parseScript pkscript = Err e ->
        (forall opcode', TstRemoveOpcode pkscript opcode' = Err e)
        /\ (forall d, TstRemoveOpcodeByData pkscript d = Err e)).
Proof.
  split.
  - intros pops Hp.
    assert (Hu : unparseScript pops = pkscript).
    { apply parseLoop_Ok in Hp as [Hu _]; [exact Hu|].
      pose proof (len_nonneg pkscript). lia. }
    pose proof (parseScript_reparsable pkscript pops Hp) as Hre.
    split.
    + intros opcode'. unfold TstRemoveOpcode. rewrite Hp. rsimpl.
      eexists. split; [reflexivity|]. rewrite removeOpcode_filter.
      split; [rewrite <- Hu; apply unparseScript_filter_len|].
      split; [|split].
      * intros Hno. rewrite filter_all; [exact Hu|].
        eapply Forall_impl; [exact Hno|]. cbn beta. intros pop Hne.
        apply negb_true_iff, byte_eqb_false. exact Hne.
      * intros Hend. apply unparse_then_parse; [|exact Hend].
        apply filter_reparsable. exact Hre.
      * intros Hend. apply unparse_then_parse_short; [|exact Hend].
        apply filter_reparsable. exact Hre.
    + intros d. unfold TstRemoveOpcodeByData. rewrite Hp. rsimpl.
      eexists. split; [reflexivity|]. rewrite removeOpcodeByData_filter.
      split; [rewrite <- Hu; apply unparseScript_filter_len|].
      split; [|split].
      * intros Hno. rewrite filter_all; [exact Hu|].
        eapply Forall_impl; [exact Hno|]. cbn beta. intros pop Hne.
        apply negb_true_iff. rewrite <- not_true_iff_false, bytesEqual_spec.
        exact Hne.
      * intros Hend. apply unparse_then_parse; [|exact Hend].
        apply filter_reparsable. exact Hre.
      * intros Hend. apply unparse_then_parse_short; [|exact Hend].
        apply filter_reparsable. exact Hre.
  - intros e He. unfold TstRemoveOpcode, TstRemoveOpcodeByData. rewrite He.
    split; reflexivity.
Qed.

(** ** The standard script patterns *)

Ltac zbools :=
  repeat match goal with
         | H : (_ >? _) = true |- _ => apply Z.gtb_lt in H
         | H : (_ <? _) = true |- _ => apply Z.ltb_lt in H
         | H : (_ <=? _) = true |- _ => apply Z.leb_le in H
         | H : (_ =? _) = true |- _ => apply Z.eqb_eq in H
         end.

Lemma valueTest_Some (pops : list parsedOpcode) (i : nat) (f : Z -> bool) :
  valueTest pops i f = true ->
  exists pop, pops !! i = Some pop /\ f (bval (op_value (pop_opcode pop))) = true.
Proof.
  unfold valueTest, valueAt. destruct (pops !! i) as [pop|]; cbn; [eauto|discriminate].
Qed.

Lemma isPubkey_pattern (pops : list parsedOpcode) :
  isPubkey pops = true
  <-> exists p0 p1,
        pops = [p0; p1]
        /\ 0 < bval (op_value (pop_opcode p0)) <= 75
        /\ op_value (pop_opcode p1) = OP_CHECKSIG.
Proof.
  unfold isPubkey. rewrite !andb_true_iff. split.
  - intros [[[Hl H0] H0'] H1]. apply Z.eqb_eq in Hl.
    destruct pops as [|p0 [|p1 [|p2 rest]]]; unfold len in Hl; cbn [length] in Hl;
      try lia.
    exists p0, p1. split; [reflexivity|].
    unfold valueTest, valueAt in *. cbn in H0, H0', H1.
    zbools. split; [lia|]. apply bval_inj. assumption.
  - intros (p0 & p1 & -> & H0 & H1). unfold valueTest, valueAt. cbn.
    rewrite H1.
    repeat split; try reflexivity; [apply Z.gtb_lt | apply Z.leb_le]; lia.
Qed.

Lemma isPubkeyHash_pattern (pops : list parsedOpcode) :
  isPubkeyHash pops = true
  <-> exists p0 p1 p2 p3 p4,
        pops = [p0; p1; p2; p3; p4]
        /\ op_value (pop_opcode p0) = OP_DUP
        /\ op_value (pop_opcode p1) = OP_HASH160
        /\ op_value (pop_opcode p2) = OP_DATA_20
        /\ op_value (pop_opcode p3) = OP_EQUALVERIFY
        /\ op_value (pop_opcode p4) = OP_CHECKSIG.
Proof.
  unfold isPubkeyHash. rewrite !andb_true_iff. split.
  - intros [[[[[Hl H0] H1] H2] H3] H4]. apply Z.eqb_eq in Hl.
    destruct pops as [|p0 [|p1 [|p2 [|p3 [|p4 [|p5 rest]]]]]];
      unfold len in Hl; cbn [length] in Hl; try lia.
    exists p0, p1, p2, p3, p4. split; [reflexivity|].
    unfold valueTest, valueAt in *. cbn in H0, H1, H2, H3, H4.
    zbools. repeat split; apply bval_inj; assumption.
  - intros (p0 & p1 & p2 & p3 & p4 & -> & H0 & H1 & H2 & H3 & H4).
    unfold valueTest, valueAt. cbn. rewrite H0, H1, H2, H3, H4.
    repeat split; reflexivity.
Qed.

Lemma isMultiSig_first (pops : list parsedOpcode) :
  isMultiSig pops = true ->
  4 <= len pops
  /\ exists p0 rest, pops = p0 :: rest
       /\ bval OP_1 <= bval (op_value (pop_opcode p0)) <= bval OP_16.
Proof.
  unfold isMultiSig. cbv zeta.
  destruct (Z.ltb_spec (len pops) 4) as [|Hl]; [discriminate|].
  destruct pops as [|p0 rest]; [unfold len in Hl; cbn in Hl; lia|].
  unfold valueTest at 1, valueAt at 1. cbn [lookup list_lookup fmap option_fmap option_map].
  destruct (Z.ltb_spec (bval (op_value (pop_opcode p0))) (bval OP_1));
    cbn [orb]; [discriminate|].
  destruct (Z.gtb_spec (bval (op_value (pop_opcode p0))) (bval OP_16));
    [discriminate|].
  intros _. split; [exact Hl|]. exists p0, rest. split; [reflexivity | lia].
Qed.

(** X9. The four standard patterns exclude one another, so the order of the
    tests in [typeOfScript] is immaterial: the type returned is the one
    pattern that matches, and non-standard when none does. *)
Theorem typeOfScript_exclusive (pops : list parsedOpcode) :
  (typeOfScript pops = pubKeyTy <-> isPubkey pops = true)
  /\ (typeOfScript pops = pubKeyHashTy <-> isPubkeyHash pops = true)
  /\ (typeOfScript pops = scriptHashTy <-> isScriptHash pops = true)
  /\ (typeOfScript pops = multiSigTy <-> isMultiSig pops = true)
  /\ (typeOfScript pops = nonStandardTy
      <-> isPubkey pops = false /\ isPubkeyHash pops = false
          /\ isScriptHash pops = false /\ isMultiSig pops = false).
Proof.
  assert (Hpk : isPubkey pops = true -> len pops = 2).
  { intros H. apply isPubkey_pattern in H as (p0 & p1 & -> & _). reflexivity. }
  assert (Hpkh : isPubkeyHash pops = true ->
                 len pops = 5 /\ exists p0 rest, pops = p0 :: rest
                   /\ op_value (pop_opcode p0) = OP_DUP).
  { intros H. apply isPubkeyHash_pattern in H
      as (p0 & p1 & p2 & p3 & p4 & -> & H0 & _).
    split; [reflexivity|]. eauto. }
  assert (Hsh : isScriptHash pops = true -> len pops = 3).
  { intros H. apply isScriptHash_pattern in H as (p0 & p1 & p2 & -> & _).
    reflexivity. }
  pose proof (isMultiSig_first pops) as Hms.
  assert (Hx : isPubkeyHash pops = true -> isMultiSig pops = true -> False).
  { intros H1 H2. destruct (Hpkh H1) as (_ & p0 & rest & -> & Hv).
    destruct (Hms H2) as (_ & p0' & rest' & [= <- <-] & Hr).
    rewrite Hv in Hr. change (bval OP_DUP) with 118 in Hr.
    change (bval OP_1) with 81 in Hr. change (bval OP_16) with 96 in Hr. lia. }
  unfold typeOfScript.
  destruct (isPubkey pops) eqn:E1, (isPubkeyHash pops) eqn:E2,
    (isScriptHash pops) eqn:E3, (isMultiSig pops) eqn:E4;
    try (exfalso; apply Hx; reflexivity);
    try (specialize (Hpk eq_refl)); try (destruct (Hpkh eq_refl) as [Hpkh' _]);
    try (specialize (Hsh eq_refl)); try (destruct (Hms eq_refl) as [Hms' _]);
    try lia;
    repeat split; intros; try discriminate; try reflexivity;
    repeat match goal with H : _ /\ _ |- _ => destruct H end; discriminate.
Qed.

Lemma parseScript_parsedShape (script : list byte) (pops : list parsedOpcode) :
  parseScript script = Ok pops -> Forall parsedShape pops.
Proof.
  intros H. apply parseScript_reparsable in H.
  eapply Forall_impl; [exact H|]. cbn beta.
  intros pop (Hop & H1 & HN & HK). unfold parsedShape. repeat split; auto.
  intros Hneg. apply HK. exact Hneg.
Qed.

Lemma parsedShape_plain (pop : parsedOpcode) (v : byte) :
  parsedShape pop -> op_value (pop_opcode pop) = v -> opcodeLength v = 1 ->
  pop = mkPop (mkOpcode v 1) [].
Proof.
  destruct pop as [[v' L] d]. unfold parsedShape, opcodemap. cbn.
  intros ([= HL] & H1 & _) -> Hv. rewrite Hv in HL. subst L.
  rewrite H1 by reflexivity. reflexivity.
Qed.

Lemma parsedShape_data (pop : parsedOpcode) (v : byte) :
  parsedShape pop -> op_value (pop_opcode pop) = v -> opcodeLength v > 1 ->
  pop = mkPop (mkOpcode v (opcodeLength v)) (data pop)
  /\ len (data pop) = opcodeLength v - 1.
Proof.
  destruct pop as [[v' L] d]. unfold parsedShape, opcodemap. cbn.
  intros ([= HL] & _ & HN & _) -> Hv. subst L. auto.
Qed.

Lemma parseScript_Ok_unparseScript (script : list byte) (pops : list parsedOpcode) :
  parseScript script = Ok pops -> unparseScript pops = script.
Proof.
  intros H. apply parseLoop_Ok in H as [H _]; [exact H|].
  pose proof (len_nonneg script). lia.
Qed.

Lemma opcodeLength_data (v : byte) :
  0 < bval v <= 75 -> opcodeLength v = bval v + 1.
Proof.
  intros Hv. unfold opcodeLength. cbv zeta.
  destruct (Z.leb_spec 1 (bval v)); [|lia].
  destruct (Z.leb_spec (bval v) 75); [|lia]. reflexivity.
Qed.

(** X10. The standard patterns, read on the bytes.  For a script that
    parses: it is pay-to-script-hash exactly when its bytes are OP_HASH160,
    0x14, twenty bytes, OP_EQUAL; pay-to-pubkey-hash exactly when they are
    OP_DUP, OP_HASH160, 0x14, twenty bytes, OP_EQUALVERIFY, OP_CHECKSIG; and
    pay-to-pubkey exactly when they are a direct push of 1 to 75 bytes of
    any content followed by OP_CHECKSIG. *)
Theorem standard_patterns_on_bytes (script : list byte) (pops : list parsedOpcode) :
  parseScript script = Ok pops ->
  (isScriptHash pops = true
   <-> exists hash, length hash = 20%nat
         /\ script = [OP_HASH160; OP_DATA_20] ++ hash ++ [OP_EQUAL])
  /\ (isPubkeyHash pops = true
      <-> exists hash, length hash = 20%nat
            /\ script = [OP_DUP; OP_HASH160; OP_DATA_20] ++ hash
                        ++ [OP_EQUALVERIFY; OP_CHECKSIG])
  /\ (isPubkey pops = true
      <-> exists key, 1 <= len key <= 75
            /\ script = byteOf (len key) :: key ++ [OP_CHECKSIG]).
Proof.
  intros Hp.
  pose proof (parseScript_parsedShape script pops Hp) as Hs.
  pose proof (parseScript_Ok_unparseScript script pops Hp) as Hu.
  split; [|split]; split.
  - intros H. apply isScriptHash_pattern in H as (p0 & p1 & p2 & -> & H0 & H1 & H2).
    apply Forall_cons in Hs as [S0 Hs]. apply Forall_cons in Hs as [S1 Hs].
    apply Forall_cons in Hs as [S2 _].
    pose proof (parsedShape_plain _ _ S0 H0 eq_refl) as ES0.
    pose proof (parsedShape_plain _ _ S2 H2 eq_refl) as ES2.
    destruct (parsedShape_data _ _ S1 H1) as [E1 Hl]; [reflexivity|].
    exists (data p1). split.
    + change (opcodeLength OP_DATA_20) with 21 in Hl. unfold len in Hl. lia.
    + rewrite <- Hu, !unparseScript_cons, ES0, ES2, E1. reflexivity.
  - intros (hash & Hl & Hscript).
    assert (Hp' : parseScript script
                  = Ok [mkPop (mkOpcode OP_HASH160 1) [];
                        mkPop (mkOpcode OP_DATA_20 21) hash;
                        mkPop (mkOpcode OP_EQUAL 1) []]).
    { rewrite Hscript.
      pose proof (unparse_then_parse
               [mkPop (mkOpcode OP_HASH160 1) [];
                mkPop (mkOpcode OP_DATA_20 21) hash;
                mkPop (mkOpcode OP_EQUAL 1) []]) as Hr.
      rewrite !unparseScript_cons in Hr. apply Hr.
      - repeat constructor; cbn; try reflexivity; try discriminate; try lia.
        intros _. unfold len. lia.
      - unfold endsInData. cbn. lia. }
    rewrite Hp in Hp'. injection Hp' as ->. reflexivity.
  - intros H. apply isPubkeyHash_pattern in H
      as (p0 & p1 & p2 & p3 & p4 & -> & H0 & H1 & H2 & H3 & H4).
    apply Forall_cons in Hs as [S0 Hs]. apply Forall_cons in Hs as [S1 Hs].
    apply Forall_cons in Hs as [S2 Hs]. apply Forall_cons in Hs as [S3 Hs].
    apply Forall_cons in Hs as [S4 _].
    pose proof (parsedShape_plain _ _ S0 H0 eq_refl) as ES0.
    pose proof (parsedShape_plain _ _ S1 H1 eq_refl) as ES1.
    pose proof (parsedShape_plain _ _ S3 H3 eq_refl) as ES3.
    pose proof (parsedShape_plain _ _ S4 H4 eq_refl) as ES4.
    destruct (parsedShape_data _ _ S2 H2) as [E2 Hl]; [reflexivity|].
    exists (data p2). split.
    + change (opcodeLength OP_DATA_20) with 21 in Hl. unfold len in Hl. lia.
    + rewrite <- Hu, !unparseScript_cons, ES0, ES1, ES3, ES4, E2. reflexivity.
  - intros (hash & Hl & Hscript).
    assert (Hp' : parseScript script
                  = Ok [mkPop (mkOpcode OP_DUP 1) [];
                        mkPop (mkOpcode OP_HASH160 1) [];
                        mkPop (mkOpcode OP_DATA_20 21) hash;
                        mkPop (mkOpcode OP_EQUALVERIFY 1) [];
                        mkPop (mkOpcode OP_CHECKSIG 1) []]).
    { rewrite Hscript.
      pose proof (unparse_then_parse
               [mkPop (mkOpcode OP_DUP 1) [];
                mkPop (mkOpcode OP_HASH160 1) [];
                mkPop (mkOpcode OP_DATA_20 21) hash;
                mkPop (mkOpcode OP_EQUALVERIFY 1) [];
                mkPop (mkOpcode OP_CHECKSIG 1) []]) as Hr.
      rewrite !unparseScript_cons in Hr. apply Hr.
      - repeat constructor; cbn; try reflexivity; try discriminate; try lia.
        intros _. unfold len. lia.
      - unfold endsInData. cbn. lia. }
    rewrite Hp in Hp'. injection Hp' as ->. reflexivity.
  - intros H. apply isPubkey_pattern in H as (p0 & p1 & -> & H0 & H1).
    apply Forall_cons in Hs as [S0 Hs]. apply Forall_cons in Hs as [S1 _].
    pose proof (parsedShape_plain _ _ S1 H1 eq_refl) as ES1.
    pose proof (opcodeLength_data _ H0) as HL.
    destruct (parsedShape_data _ _ S0 eq_refl) as [E0 Hl]; [lia|].
    rewrite HL in E0, Hl.
    exists (data p0). split; [lia|].
    rewrite <- Hu, !unparseScript_cons, ES1, E0. unfold unparseScript, bytes. cbn.
    destruct (Z.eqb_spec (bval (op_value (pop_opcode p0)) + 1) 1); [lia|].
    destruct (Z.gtb_spec (bval (op_value (pop_opcode p0)) + 1) 1); [|lia].
    cbn. f_equal. replace (len (data p0)) with (bval (op_value (pop_opcode p0)))
      by lia. symmetry. apply byteOf_bval.
  - intros (key & Hl & Hscript).
    assert (Hv : bval (byteOf (len key)) = len key).
    { rewrite bval_byteOf. apply Z.mod_small. lia. }
    assert (HL : opcodeLength (byteOf (len key)) = len key + 1).
    { rewrite opcodeLength_data; rewrite Hv; lia. }
    assert (Hp' : parseScript script
                  = Ok [mkPop (mkOpcode (byteOf (len key)) (len key + 1)) key;
                        mkPop (mkOpcode OP_CHECKSIG 1) []]).
    { rewrite Hscript.
      pose proof (unparse_then_parse
               [mkPop (mkOpcode (byteOf (len key)) (len key + 1)) key;
                mkPop (mkOpcode OP_CHECKSIG 1) []]) as Hr.
      rewrite !unparseScript_cons in Hr.
      assert (Hb : bytes (mkPop (mkOpcode (byteOf (len key)) (len key + 1)) key)
                   = byteOf (len key) :: key).
      { unfold bytes. cbn [pop_opcode op_length op_value data].
        destruct (Z.eqb_spec (len key + 1) 1); [lia|].
        destruct (Z.gtb_spec (len key + 1) 1); [reflexivity | lia]. }
      rewrite Hb in Hr. apply Hr.
      - repeat constructor; cbn in *; try reflexivity; try discriminate;
          try lia.
        unfold opcodemap. rewrite HL. reflexivity.
      - unfold endsInData. cbn. lia. }
    rewrite Hp in Hp'. injection Hp' as ->.
    apply isPubkey_pattern. eexists _, _. split; [reflexivity|].
    cbn. rewrite Hv. split; [lia | reflexivity].
Qed.

Lemma standard_patterns_on_bytes_witness :
  (isScriptHash
     [mkPop (mkOpcode OP_HASH160 1) [];
      mkPop (mkOpcode OP_DATA_20 21) (replicate 20 x00);
      mkPop (mkOpcode OP_EQUAL 1) []] = true
   <-> exists hash, length hash = 20%nat
         /\ p2shPkScript = [OP_HASH160; OP_DATA_20] ++ hash ++ [OP_EQUAL])
  /\ (isPubkeyHash
        [mkPop (mkOpcode OP_HASH160 1) [];
         mkPop (mkOpcode OP_DATA_20 21) (replicate 20 x00);
         mkPop (mkOpcode OP_EQUAL 1) []] = true
      <-> exists hash, length hash = 20%nat
            /\ p2shPkScript = [OP_DUP; OP_HASH160; OP_DATA_20] ++ hash
                              ++ [OP_EQUALVERIFY; OP_CHECKSIG])
  /\ (isPubkey
        [mkPop (mkOpcode OP_HASH160 1) [];
         mkPop (mkOpcode OP_DATA_20 21) (replicate 20 x00);
         mkPop (mkOpcode OP_EQUAL 1) []] = true
      <-> exists key, 1 <= len key <= 75
            /\ p2shPkScript = byteOf (len key) :: key ++ [OP_CHECKSIG]).
Proof.
  apply (standard_patterns_on_bytes p2shPkScript). reflexivity.
Defined.

(** X11. [isPushOnly] tests the upper bound alone: a script is push-only
    exactly when no opcode value exceeds OP_16, since no byte value is below
    OP_FALSE; OP_1NEGATE and OP_RESERVED therefore pass.  A concatenation is
    push-only exactly when both parts are. *)
Theorem isPushOnly_upper_bound (a b : list parsedOpcode) :
  (isPushOnly a = true
   <-> Forall (fun pop => bval (op_value (pop_opcode pop)) <= bval OP_16) a)
  /\ isPushOnly (a ++ b) = isPushOnly a && isPushOnly b
  /\ ((forall pop, In pop a ->
         op_value (pop_opcode pop) = OP_1NEGATE
         \/ op_value (pop_opcode pop) = OP_RESERVED) ->
      isPushOnly a = true).
Proof.
  assert (Hiff : forall l, isPushOnly l = true
            <-> Forall (fun pop => bval (op_value (pop_opcode pop)) <= bval OP_16) l).
  { intros l. rewrite isPushOnly_Forall. unfold opValue. split; intros H;
      (eapply Forall_impl; [exact H|]); cbn beta; intros pop Hp.
    - lia.
    - pose proof (bval_range (op_value (pop_opcode pop))).
      change (bval OP_0) with 0. lia. }
  split; [apply Hiff|]. split.
  - induction a as [|pop a IH]; [reflexivity|]. cbn [app isPushOnly].
    destruct (_ || _); [reflexivity | exact IH].
  - intros H. apply Hiff, Forall_forall. intros pop Hin.
    apply list_elem_of_In in Hin. destruct (H pop Hin) as [-> | ->]; cbn; lia.
Qed.

(** ** The program counter *)

Lemma samePC_refl (s : Script) : samePC s s.
Proof. unfold samePC. auto. Qed.

Lemma samePC_trans (s1 s2 s3 : Script) : samePC s1 s2 -> samePC s2 s3 -> samePC s1 s3.
Proof. unfold samePC. intros (-> & -> & -> & ->) (-> & -> & -> & ->). auto. Qed.

Lemma push_samePC (so : list byte) (s s' : Script) : push so s = Ok s' -> samePC s s'.
Proof.
  unfold push. destruct (PushByteArray (dstack s) so); try discriminate.
  rsimpl. intros [= <-]. (unfold samePC; cbn; auto).
Qed.

Lemma pushInt_samePC (v : Z) (s s' : Script) :
  (ds ← PushInt (dstack s) v; Ok (set_dstack ds s)) = Ok s' -> samePC s s'.
Proof.
  destruct (PushInt (dstack s) v); try discriminate.
  rsimpl. intros [= <-]. (unfold samePC; cbn; auto).
Qed.

Lemma opcodeIf_samePC (invert : bool) (s s' : Script) :
  opcodeIf invert s = Ok s' -> samePC s s'.
Proof.
  unfold opcodeIf. destruct (index (condStack s) 0) as [c0| | |]; try discriminate.
  rsimpl. destruct c0; try (intros [= <-]; (unfold samePC; cbn; auto)).
  destruct (PopBool (dstack s)) as [[v ds]| | |]; try discriminate.
  rsimpl. intros [= <-]. (unfold samePC; cbn; auto).
Qed.

Lemma opcodeElse_samePC (s s' : Script) : opcodeElse s = Ok s' -> samePC s s'.
Proof.
  unfold opcodeElse. destruct (condStack s); try discriminate.
  intros [= <-]. (unfold samePC; cbn; auto).
Qed.

Lemma opcodeEndif_samePC (s s' : Script) : opcodeEndif s = Ok s' -> samePC s s'.
Proof.
  unfold opcodeEndif. destruct (condStack s); try discriminate.
  intros [= <-]. (unfold samePC; cbn; auto).
Qed.

Lemma opcodeVerify_samePC (s s' : Script) : opcodeVerify s = Ok s' -> samePC s s'.
Proof.
  unfold opcodeVerify. destruct (PopBool (dstack s)) as [[v ds]| | |]; try discriminate.
  rsimpl. destruct v; cbn [negb]; try discriminate.
  intros [= <-]. (unfold samePC; cbn; auto).
Qed.

Lemma opfunc_samePC (other : parsedOpcode -> Script -> result Script)
    (pop : parsedOpcode) (s s' : Script) :
  keepsPC other -> opfunc other pop s = Ok s' -> samePC s s'.
Proof.
  intros Hk. unfold opfunc. cbv zeta.
  repeat match goal with
         | |- (if ?c then _ else _) = _ -> _ => destruct c
         end;
    try discriminate;
    first [ apply push_samePC | apply pushInt_samePC | apply opcodeIf_samePC
          | apply opcodeElse_samePC | apply opcodeEndif_samePC
          | apply opcodeVerify_samePC | apply Hk
          | (intros [= <-]; (unfold samePC; cbn; auto)) ].
Qed.

Lemma exec_samePC (other : parsedOpcode -> Script -> result Script)
    (pop : parsedOpcode) (s s' : Script) :
  keepsPC other -> exec other pop s = Ok s' -> samePC s s'.
Proof.
  intros Hk. unfold exec.
  destruct (opValue pop >? bval OP_16).
  - cbv zeta. destruct (numOps (set_numOps (numOps s + 1) s) >? MaxOpsPerScript);
      [discriminate|]. rsimpl. intros H.
    apply (opfunc_samePC other pop _ _ Hk) in H.
    eapply samePC_trans; [|exact H]. unfold samePC. cbn. auto.
  - rsimpl. apply opfunc_samePC. exact Hk.
Qed.

(** What [Step] does to the program counter once the opcode has run. *)
Lemma nextInstruction_Ok (m m' : Script) (done : bool) :
  nextInstruction m = Ok (done, m') ->
  exists scr,
    index (scripts m) (scriptidx m) = Ok scr
    /\ ((scriptoff m + 1 < len scr /\ done = false
         /\ m' = set_scriptoff (scriptoff m + 1) m)
        \/ (len scr <= scriptoff m + 1
            /\ scriptoff m' = 0 /\ lastcodesep m' = 0
            /\ bip16 m' = bip16 m
            /\ done = bool_decide (scriptidx m' >= len (scripts m'))
            /\ (scripts m' = scripts m
                \/ (scriptidx m = 1 /\ bip16 m = true
                    /\ exists pops, scripts m' = scripts m ++ [pops]))
            /\ (scriptidx m' = scriptidx m + 1
                \/ (scriptidx m' = scriptidx m + 2
                    /\ scripts m' !! Z.to_nat (scriptidx m + 1) = Some [])))).
Proof.
  unfold nextInstruction. cbv zeta.
  cbn [scripts scriptidx scriptoff set_scriptoff].
  destruct (index (scripts m) (scriptidx m)) as [scr| | |] eqn:Hscr;
    try discriminate.
  rsimpl. intros H. exists scr. split; [reflexivity|].
  destruct (Z.geb_spec (scriptoff m + 1) (len scr)) as [Hge|Hlt].
  2:{ injection H as <- <-. left. auto. }
  right. split; [lia|].
  set (m0 := set_scriptoff 0 (set_scriptoff (scriptoff m + 1) m)) in *.
  assert (Hm0 : scripts m0 = scripts m /\ scriptidx m0 = scriptidx m
                /\ scriptoff m0 = 0 /\ bip16 m0 = bip16 m) by (cbn; auto).
  destruct Hm0 as (Hs0 & Hi0 & Ho0 & Hb0).
  (* the hand-over *)
  match type of H with
  | (?X ≫= _) = _ => destruct X as [m1| | |] eqn:Hm1; try discriminate
  end.
  assert (H1 : scriptidx m1 = scriptidx m /\ scriptoff m1 = 0
               /\ bip16 m1 = bip16 m
               /\ (scripts m1 = scripts m
                   \/ (scriptidx m = 1 /\ bip16 m = true
                       /\ exists pops, scripts m1 = scripts m ++ [pops]))).
  { match type of Hm1 with
    | (if ?c then _ else _) = _ => destruct c eqn:E0
    end.
    - injection Hm1 as <-. cbn. auto.
    - match type of Hm1 with
      | (if ?c then _ else _) = _ => destruct c eqn:E1
      end.
      + apply andb_true_iff in E1 as [Ei Eb]. apply Z.eqb_eq in Ei.
        destruct (PopBool (dstack m0)) as [[v ds]| | |]; try discriminate.
        rsimpl. destruct v; cbn [negb] in Hm1; try discriminate.
        match type of Hm1 with
        | (?X ≫= _) = _ => destruct X as [script| | |]; try discriminate
        end. rsimpl.
        destruct (parseScript script) as [pops| | |]; try discriminate. rsimpl.
        match type of Hm1 with
        | (?X ≫= _) = _ => destruct X as [rest| | |]; try discriminate
        end. rsimpl.
        injection Hm1 as <-. cbn. repeat split; auto.
        right. rewrite <- Hi0, <- Hb0. repeat split; auto. eauto.
      + injection Hm1 as <-. auto. }
  destruct H1 as (Hi1 & Ho1 & Hb1 & Hs1). rsimpl.
  set (m2 := set_scriptidx (scriptidx m1 + 1) m1) in *.
  match type of H with
  | (?X ≫= _) = _ => destruct X as [m3| | |] eqn:Hm3; try discriminate
  end.
  rsimpl. injection H as <- <-.
  cbn [scriptoff lastcodesep bip16 scripts scriptidx set_lastcodesep].
  assert (H3 : scriptoff m3 = 0 /\ bip16 m3 = bip16 m /\ scripts m3 = scripts m1
               /\ (scriptidx m3 = scriptidx m + 1
                   \/ (scriptidx m3 = scriptidx m + 2
                       /\ scripts m1 !! Z.to_nat (scriptidx m + 1) = Some []))).
  { destruct (Z.ltb_spec (scriptidx m2) (len (scripts m2))).
    - destruct (index (scripts m2) (scriptidx m2)) as [scr'| | |] eqn:Hscr';
        try discriminate.
      rsimpl. destruct (Z.geb_spec (scriptoff m2) (len scr')) as [Hz|Hz];
        injection Hm3 as <-; cbn; rewrite ?Hi1; repeat split; auto.
      right. split; [lia|].
      apply index_Ok in Hscr' as [_ Hl]. cbn in Hl. rewrite Hi1 in Hl.
      rewrite Hl. f_equal. cbn in Hz. rewrite Ho1 in Hz.
      destruct scr'; [reflexivity | unfold len in Hz; cbn in Hz; lia].
    - injection Hm3 as <-. cbn. rewrite Hi1. auto. }
  destruct H3 as (Ho3 & Hb3 & Hs3 & Hi3).
  rewrite Hs3. repeat split; auto.
Qed.

(** What a successful [Step] went through. *)
Lemma Step_Ok (other : parsedOpcode -> Script -> result Script)
    (m m' : Script) (done : bool) :
  Step other m = Ok (done, m') ->
  exists scr pop m1,
    index (scripts m) (scriptidx m) = Ok scr
    /\ index scr (scriptoff m) = Ok pop
    /\ (m1 = m \/ exec other pop m = Ok m1)
    /\ nextInstruction m1 = Ok (done, m').
Proof.
  unfold Step. intros H.
  destruct (validPC m); try discriminate. rsimpl.
  destruct (index (scripts m) (scriptidx m)) as [scr| | |] eqn:Hscr;
    try discriminate.
  rsimpl.
  destruct (index scr (scriptoff m)) as [pop| | |] eqn:Hpop; try discriminate.
  rsimpl.
  destruct (index (condStack m) 0) as [c0| | |]; try discriminate. rsimpl.
  cbv zeta in H.
  match type of H with
  | (?X ≫= _) = _ => destruct X as [m1| | |] eqn:Hm1; try discriminate
  end.
  rsimpl. exists scr, pop, m1.
  split; [reflexivity|]. split; [exact Hpop|]. split; [|exact H].
  match type of Hm1 with
  | (if ?c then _ else _) = _ => destruct c
  end; [right; exact Hm1 | left; congruence].
Qed.

Lemma validPC_past (m : Script) :
  scriptidx m >= len (scripts m) -> validPC m = Err ErrPastInputScripts.
Proof.
  intros H. unfold validPC.
  destruct (Z.geb_spec (scriptidx m) (len (scripts m))); [reflexivity | lia].
Qed.

(** X12. The program counter is checked for the upper bounds alone.
    [validPC] accepts exactly a script index inside the scripts with an
    offset below the length of that script; it fails with the past-input-
    scripts error when the index or the offset is too large, and a negative
    script index is an index out of range.  A negative offset passes the
    check (it can be set with [TstSetPC]), and [Step] then indexes the script
    out of range. *)
Theorem validPC_checks_upper_bounds (m : Script) :
  (validPC m = Ok tt
   <-> exists scr, 0 <= scriptidx m
         /\ scripts m !! Z.to_nat (scriptidx m) = Some scr
         /\ scriptoff m < len scr)
  /\ (validPC m = Panic <-> scriptidx m < 0)
  /\ (validPC m = Err ErrPastInputScripts
      <-> len (scripts m) <= scriptidx m
          \/ exists scr, 0 <= scriptidx m
               /\ scripts m !! Z.to_nat (scriptidx m) = Some scr
               /\ len scr <= scriptoff m)
  /\ (forall other script off,
        validPC (TstSetPC script off m) = Ok tt -> off < 0 ->
        Step other (TstSetPC script off m) = Panic)
  /\ (curPC m = Ok (scriptidx m, scriptoff m) <-> validPC m = Ok tt).
Proof.
  assert (Hcases :
    (scriptidx m < 0 /\ validPC m = Panic)
    \/ (len (scripts m) <= scriptidx m /\ validPC m = Err ErrPastInputScripts)
    \/ exists scr, 0 <= scriptidx m < len (scripts m)
         /\ scripts m !! Z.to_nat (scriptidx m) = Some scr
         /\ index (scripts m) (scriptidx m) = Ok scr
         /\ validPC m = (if scriptoff m >=? len scr
                         then Err ErrPastInputScripts else Ok tt)).
  { unfold validPC.
    destruct (Z.geb_spec (scriptidx m) (len (scripts m))) as [Hge|Hlt]; [auto|].
    destruct (Z.ltb_spec (scriptidx m) 0) as [Hneg|Hpos].
    - left. split; [exact Hneg|]. unfold index.
      destruct (Z.leb_spec 0 (scriptidx m)); [lia | reflexivity].
    - right. right.
      destruct (index_in_range (scripts m) (scriptidx m) ltac:(lia))
        as (scr & Hidx & Hl).
      exists scr. rewrite Hidx. rsimpl. repeat split; auto; lia. }
  split; [|split; [|split; [|split]]].
  - destruct Hcases as [[Hn ->]|[[Hp ->]|(scr & Hr & Hl & _ & ->)]].
    + split; [discriminate|]. intros (scr & H0 & _). lia.
    + split; [discriminate|]. intros (scr & H0 & Hl & _).
      apply lookup_lt_Some in Hl. unfold len in Hp. lia.
    + destruct (Z.geb_spec (scriptoff m) (len scr)); split; try discriminate.
      * intros (scr' & _ & Hl' & Ho). rewrite Hl in Hl'. injection Hl' as <-. lia.
      * intros _. exists scr. repeat split; auto; lia.
      * reflexivity.
  - destruct Hcases as [[Hn ->]|[[Hp ->]|(scr & Hr & Hl & _ & ->)]].
    + tauto.
    + split; [discriminate|]. pose proof (len_nonneg (scripts m)). lia.
    + destruct (Z.geb_spec (scriptoff m) (len scr)); split; try discriminate; lia.
  - destruct Hcases as [[Hn ->]|[[Hp ->]|(scr & Hr & Hl & _ & ->)]].
    + split; [discriminate|]. pose proof (len_nonneg (scripts m)).
      intros [Hx|(scr & Hx & _)]; lia.
    + split; auto.
    + destruct (Z.geb_spec (scriptoff m) (len scr)); split; try discriminate.
      * intros _. right. exists scr. repeat split; auto; lia.
      * reflexivity.
      * intros [Hx|(scr' & _ & Hl' & Ho)]; [lia|].
        rewrite Hl in Hl'. injection Hl' as <-. lia.
  - clear Hcases. intros other script off Hv Hoff. unfold Step. rewrite Hv.
    rsimpl. unfold validPC in Hv.
    destruct (_ >=? _) in Hv; [discriminate|].
    destruct (index (scripts (TstSetPC script off m))
                (scriptidx (TstSetPC script off m))) as [scr| | |];
      try discriminate.
    rsimpl. cbn [scriptoff TstSetPC set_scriptoff].
    assert (Hp : index scr off = Panic)
      by (unfold index; destruct (Z.leb_spec 0 off); [lia | reflexivity]).
    rewrite Hp. reflexivity.
  - unfold curPC. destruct (validPC m) as [[]| | |]; rsimpl; split;
      try discriminate; reflexivity.
Qed.

(** X13. Done is final.  When [Step] reports that the last opcode has been
    executed, the script index is past the scripts: a further [Step] fails
    with the past-input-scripts error, and so does [curPC]. *)
Theorem Step_after_done (other : parsedOpcode -> Script -> result Script)
    (m m' : Script) :
  Step other m = Ok (true, m') ->
  scriptidx m' >= len (scripts m')
  /\ Step other m' = Err ErrPastInputScripts
  /\ curPC m' = Err ErrPastInputScripts.
Proof.
  intros H. apply Step_Ok in H as (scr & pop & m1 & _ & _ & _ & H).
  apply nextInstruction_Ok in H as (scr' & _ & [(_ & Hd & _)|H]);
    [discriminate|].
  destruct H as (_ & _ & _ & _ & Hd & _).
  symmetry in Hd. apply bool_decide_eq_true in Hd.
  pose proof (validPC_past m' Hd) as Hv.
  split; [exact Hd|]. unfold Step, curPC. rewrite Hv. auto.
Qed.

Lemma Step_after_done_witness :
  scriptidx (mkScript [[mkPop (mkOpcode OP_1 1) []]] 1 0 0 [[x01]] []
               exampleTx 0 0 [OpCondTrue] 0 false [])
  >= len (scripts (mkScript [[mkPop (mkOpcode OP_1 1) []]] 1 0 0 [[x01]] []
                     exampleTx 0 0 [OpCondTrue] 0 false []))
  /\ Step opfuncNone
       (mkScript [[mkPop (mkOpcode OP_1 1) []]] 1 0 0 [[x01]] []
          exampleTx 0 0 [OpCondTrue] 0 false [])
     = Err ErrPastInputScripts
  /\ curPC (mkScript [[mkPop (mkOpcode OP_1 1) []]] 1 0 0 [[x01]] []
              exampleTx 0 0 [OpCondTrue] 0 false [])
     = Err ErrPastInputScripts.
Proof.
  apply (Step_after_done opfuncNone
           (mkScript [[mkPop (mkOpcode OP_1 1) []]] 0 0 0 [] []
              exampleTx 0 0 [OpCondTrue] 0 false [])).
  vm_compute. reflexivity.
Defined.

(** ** Termination of the engine *)

Lemma bind_not_OutOfFuel {A B} (r : result A) (k : A -> result B) :
  r <> OutOfFuel -> (forall a, k a <> OutOfFuel) -> (r ≫= k) <> OutOfFuel.
Proof. destruct r; rsimpl; cbn; auto; discriminate. Qed.

Lemma index_not_OutOfFuel {A} (s : list A) (i : Z) : index s i <> OutOfFuel.
Proof.
  unfold index. destruct (0 <=? i); [|discriminate].
  destruct (s !! Z.to_nat i); discriminate.
Qed.

Lemma slice_not_OutOfFuel {A} (s : list A) (lo hi : Z) : slice s lo hi <> OutOfFuel.
Proof. unfold slice. destruct (_ && _); discriminate. Qed.

Lemma PushByteArray_not_OutOfFuel (s : Stack) (so : list byte) :
  PushByteArray s so <> OutOfFuel.
Proof. unfold PushByteArray. destruct (_ >? _); discriminate. Qed.

Lemma PopBool_not_OutOfFuel (s : Stack) : PopBool s <> OutOfFuel.
Proof.
  unfold PopBool, PopByteArray. destruct (last s); rsimpl; discriminate.
Qed.

Lemma opfunc_not_OutOfFuel (other : parsedOpcode -> Script -> result Script)
    (pop : parsedOpcode) (s : Script) :
  (forall pop s, other pop s <> OutOfFuel) ->
  opfunc other pop s <> OutOfFuel.
Proof.
  intros Ho. unfold opfunc. cbv zeta.
  repeat match goal with
         | |- (if ?c then _ else _) <> _ => destruct c
         end;
    try discriminate; try apply Ho;
    unfold push, PushInt, opcodeIf, opcodeElse, opcodeEndif, opcodeVerify;
    repeat first
      [ apply PushByteArray_not_OutOfFuel | apply PopBool_not_OutOfFuel
      | apply index_not_OutOfFuel
      | apply bind_not_OutOfFuel
      | discriminate
      | match goal with
        | |- forall _ : _ * _, _ => intros [? ?]
        | |- forall _, _ => intro
        end
      | match goal with
        | |- (if ?c then _ else _) <> _ => destruct c
        | |- match ?x with _ => _ end <> _ => destruct x
        end ].
Qed.

Lemma exec_not_OutOfFuel (other : parsedOpcode -> Script -> result Script)
    (pop : parsedOpcode) (s : Script) :
  (forall pop s, other pop s <> OutOfFuel) ->
  exec other pop s <> OutOfFuel.
Proof.
  intros Ho. unfold exec. apply bind_not_OutOfFuel.
  - cbv zeta. destruct (_ >? _); [|discriminate].
    destruct (_ >? _); discriminate.
  - intros s'. apply opfunc_not_OutOfFuel. exact Ho.
Qed.

Lemma nextInstruction_not_OutOfFuel (m : Script) :
  nextInstruction m <> OutOfFuel.
Proof.
  unfold nextInstruction. cbv zeta.
  apply bind_not_OutOfFuel; [apply index_not_OutOfFuel|]. intros scr.
  destruct (_ >=? _); [|discriminate].
  apply bind_not_OutOfFuel.
  - destruct (_ && _); [discriminate|]. destruct (_ && _); [|discriminate].
    apply bind_not_OutOfFuel; [apply PopBool_not_OutOfFuel|]. intros [v ds].
    destruct (negb v); [discriminate|].
    apply bind_not_OutOfFuel; [apply index_not_OutOfFuel|]. intros script.
    apply bind_not_OutOfFuel; [apply parseScript_not_OutOfFuel|]. intros pops.
    apply bind_not_OutOfFuel; [apply slice_not_OutOfFuel|]. discriminate.
  - intros m1. apply bind_not_OutOfFuel; [|discriminate].
    destruct (_ <? _); [|discriminate].
    apply bind_not_OutOfFuel; [apply index_not_OutOfFuel|]. intros scr'.
    destruct (_ >=? _); discriminate.
Qed.

Lemma Step_not_OutOfFuel (other : parsedOpcode -> Script -> result Script)
    (m : Script) :
  (forall pop s, other pop s <> OutOfFuel) ->
  Step other m <> OutOfFuel.
Proof.
  intros Ho. unfold Step.
  apply bind_not_OutOfFuel.
  { unfold validPC. destruct (_ >=? _); [discriminate|].
    apply bind_not_OutOfFuel; [apply index_not_OutOfFuel|]. intros scr.
    destruct (_ >=? _); discriminate. }
  intros _. apply bind_not_OutOfFuel; [apply index_not_OutOfFuel|]. intros scr.
  apply bind_not_OutOfFuel; [apply index_not_OutOfFuel|]. intros pop.
  apply bind_not_OutOfFuel; [apply index_not_OutOfFuel|]. intros c0.
  cbv zeta. apply bind_not_OutOfFuel.
  - destruct (match c0 with OpCondTrue => true | _ => _ end);
      [apply exec_not_OutOfFuel; exact Ho | discriminate].
  - intros m1. apply nextInstruction_not_OutOfFuel.
Qed.

Lemma finish_not_OutOfFuel (s : Script) : finish s <> OutOfFuel.
Proof.
  unfold finish. destruct (_ <? _); [discriminate|].
  apply bind_not_OutOfFuel; [apply PopBool_not_OutOfFuel|]. intros [v ds].
  cbv zeta. destruct (negb v); [discriminate|]. destruct (negb _); discriminate.
Qed.

Lemma len_concat_drop_S {A} (l : list (list A)) (n : nat) (x : list A) :
  l !! n = Some x ->
  len (concat (drop n l)) = len x + len (concat (drop (S n) l)).
Proof.
  intros H. rewrite (drop_S l x n H). cbn [concat]. apply len_app.
Qed.

Lemma len_concat_drop_le {A} (l : list (list A)) (n : nat) :
  len (concat (drop n l)) <= len (concat l).
Proof.
  rewrite <- (take_drop n l) at 2. rewrite concat_app, len_app.
  pose proof (len_nonneg (concat (take n l))). lia.
Qed.

(** A step that is not the last one leaves fewer opcodes to run, unless it
    is the hand-over to a pay-to-script-hash script. *)
Lemma Step_progress (other : parsedOpcode -> Script -> result Script)
    (m m' : Script) :
  keepsPC other ->
  Step other m = Ok (false, m') ->
  0 <= remaining m'
  /\ (pastHandOver m' \/ remaining m' = remaining m - 1)
  /\ (pastHandOver m -> pastHandOver m' /\ remaining m' = remaining m - 1).
Proof.
  intros Hk H. apply Step_Ok in H as (scr & pop & m1 & Hscr & Hpop & Hm1 & H).
  assert (Hsame : samePC m m1).
  { destruct Hm1 as [->|Hm1]; [apply samePC_refl|].
    apply (exec_samePC other pop m m1 Hk Hm1). }
  destruct Hsame as (Hs & Hi & Ho & Hb).
  apply index_Ok in Hscr as [Hi0 Hl]. apply index_Ok_range in Hpop.
  pose proof (len_concat_drop_S _ _ _ Hl) as Hcat.
  assert (Hrem : remaining m
                 = len scr + len (concat (drop (S (Z.to_nat (scriptidx m)))
                                            (scripts m))) - scriptoff m).
  { unfold remaining. rewrite Hcat. reflexivity. }
  pose proof (len_nonneg (concat (drop (S (Z.to_nat (scriptidx m))) (scripts m)))).
  apply nextInstruction_Ok in H as (scr1 & Hscr1 & H).
  rewrite Hs, Hi in Hscr1. apply index_Ok in Hscr1 as [_ Hl1].
  rewrite Hl in Hl1. injection Hl1 as <-. rewrite Ho in H.
  destruct H as [(Hlt & _ & ->)|(Hge & Ho' & _ & Hb' & _ & Hs' & Hi')].
  - assert (Hr' : remaining (set_scriptoff (scriptoff m + 1) m1)
                  = remaining m - 1).
    { unfold remaining. cbn [scriptidx scripts scriptoff set_scriptoff].
      rewrite Hs, Hi. lia. }
    rewrite Hr'. unfold pastHandOver.
    cbn [bip16 scriptidx set_scriptoff]. rewrite Hb, Hi.
    repeat split; auto; lia.
  - assert (Hr0 : 0 <= remaining m').
    { unfold remaining. rewrite Ho'. pose proof (len_nonneg
        (concat (drop (Z.to_nat (scriptidx m')) (scripts m')))). lia. }
    split; [exact Hr0|].
    rewrite Hi in Hi'. rewrite Hi, Hb, Hs in Hs'. rewrite Hb in Hb'.
    assert (Hidx : scriptidx m < scriptidx m') by (destruct Hi' as [?|[? _]]; lia).
    destruct Hs' as [Hs'|(Hi1 & Hb1 & pops & Hs')].
    + assert (Hr' : remaining m' = remaining m - 1).
      { rewrite Hrem. unfold remaining. rewrite Ho', Hs'.
        destruct Hi' as [->|[-> Hempty]].
        - replace (Z.to_nat (scriptidx m + 1)) with (S (Z.to_nat (scriptidx m)))
            by lia. lia.
        - rewrite Hs' in Hempty.
          replace (Z.to_nat (scriptidx m + 1)) with (S (Z.to_nat (scriptidx m)))
            in Hempty by lia.
          rewrite (len_concat_drop_S _ _ _ Hempty).
          replace (Z.to_nat (scriptidx m + 2))
            with (S (S (Z.to_nat (scriptidx m)))) by lia.
          change (len (@nil parsedOpcode)) with 0. lia. }
      split; [right; exact Hr'|].
      unfold pastHandOver. rewrite Hb'. intros [Hp|Hp]; split; auto.
      right. lia.
    + split; [left; right; lia|].
      unfold pastHandOver. intros [Hp|Hp]; [congruence | lia].
Qed.

Lemma stepLoop_pastHandOver (other : parsedOpcode -> Script -> result Script)
    (fuel : nat) (m : Script) :
  keepsPC other -> (forall pop s, other pop s <> OutOfFuel) ->
  pastHandOver m -> (0 < fuel)%nat -> remaining m < Z.of_nat fuel ->
  stepLoop other fuel m <> OutOfFuel.
Proof.
  intros Hk Ho. revert m. induction fuel as [|fuel IH]; intros m Hp Hf Hr; [lia|].
  cbn [stepLoop].
  destruct (Step other m) as [[done m']| | |] eqn:HS; rsimpl; try discriminate.
  - destruct done; cbn [negb]; [discriminate|].
    destruct (Step_progress other m m' Hk HS) as (H0 & _ & H1).
    destruct (H1 Hp) as [Hp' Hr']. apply IH; [exact Hp' | lia | lia].
  - exfalso. exact (Step_not_OutOfFuel other m Ho HS).
Qed.

Lemma stepLoop_terminates (other : parsedOpcode -> Script -> result Script)
    (n : nat) (m : Script) :
  keepsPC other -> (forall pop s, other pop s <> OutOfFuel) ->
  (Z.to_nat (remaining m) <= n)%nat ->
  exists fuel, forall fuel', (fuel <= fuel')%nat ->
    stepLoop other fuel' m <> OutOfFuel.
Proof.
  intros Hk Ho. revert m. induction n as [|n IH]; intros m Hn.
  - destruct (Step other m) as [[[|] m']| | |] eqn:HS.
    + exists 1%nat. intros [|f] Hf; [lia|]. cbn [stepLoop]. rewrite HS.
      discriminate.
    + destruct (Step_progress other m m' Hk HS) as (H0 & [Hp|Hr] & _); [|lia].
      exists (S (S (Z.to_nat (remaining m')))). intros [|f] Hf; [lia|].
      cbn [stepLoop]. rewrite HS. rsimpl. cbn [negb].
      apply stepLoop_pastHandOver; auto; lia.
    + exists 1%nat. intros [|f] Hf; [lia|]. cbn [stepLoop]. rewrite HS.
      discriminate.
    + exists 1%nat. intros [|f] Hf; [lia|]. cbn [stepLoop]. rewrite HS.
      discriminate.
    + exfalso. exact (Step_not_OutOfFuel other m Ho HS).
  - destruct (Step other m) as [[[|] m']| | |] eqn:HS.
    + exists 1%nat. intros [|f] Hf; [lia|]. cbn [stepLoop]. rewrite HS.
      discriminate.
    + destruct (Step_progress other m m' Hk HS) as (H0 & [Hp|Hr] & _).
      * exists (S (S (Z.to_nat (remaining m')))). intros [|f] Hf; [lia|].
        cbn [stepLoop]. rewrite HS. rsimpl. cbn [negb].
        apply stepLoop_pastHandOver; auto; lia.
      * destruct (IH m' ltac:(lia)) as [fuel Hfuel].
        exists (S fuel). intros [|f] Hf; [lia|].
        cbn [stepLoop]. rewrite HS. rsimpl. cbn [negb]. apply Hfuel. lia.
    + exists 1%nat. intros [|f] Hf; [lia|]. cbn [stepLoop]. rewrite HS.
      discriminate.
    + exists 1%nat. intros [|f] Hf; [lia|]. cbn [stepLoop]. rewrite HS.
      discriminate.
    + exfalso. exact (Step_not_OutOfFuel other m Ho HS).
Qed.

(** X14. [Execute] terminates.  With executors that leave the scripts, the
    program counter and the pay-to-script-hash flag to [Step] (and that
    themselves return), the loop of [Execute] is left after finitely many
    steps from every state: each step that is not the last leaves one opcode
    less to run, and a script is appended at most once, at the
    pay-to-script-hash hand-over.  Outside pay-to-script-hash mode, or beyond
    the pubkey script, more steps than there are opcodes in the scripts are
    never taken. *)
Theorem Execute_terminates (other : parsedOpcode -> Script -> result Script)
    (s : Script) :
  keepsPC other -> (forall pop s, other pop s <> OutOfFuel) ->
  (exists fuel, forall fuel', (fuel <= fuel')%nat ->
     Execute other fuel' s <> OutOfFuel)
  /\ (pastHandOver s -> 0 <= scriptoff s ->
      forall fuel, len (concat (scripts s)) < Z.of_nat fuel ->
        Execute other fuel s <> OutOfFuel).
Proof.
  intros Hk Ho.
  assert (HE : forall fuel, stepLoop other fuel s <> OutOfFuel ->
                            Execute other fuel s <> OutOfFuel).
  { intros fuel H. unfold Execute. apply bind_not_OutOfFuel; [exact H|].
    intros s'. apply finish_not_OutOfFuel. }
  split.
  - destruct (stepLoop_terminates other _ s Hk Ho (Nat.le_refl _)) as [fuel H].
    exists fuel. intros fuel' Hf. apply HE, H, Hf.
  - intros Hp Hoff fuel Hf. apply HE.
    pose proof (len_nonneg (concat (scripts s))).
    pose proof (len_concat_drop_le (scripts s) (Z.to_nat (scriptidx s))).
    apply stepLoop_pastHandOver; auto; [lia|]. unfold remaining. lia.
Qed.

Lemma Execute_terminates_witness :
  (exists fuel, forall fuel', (fuel <= fuel')%nat ->
     Execute (fun _ s => Ok s) fuel'
       (mkScript [[mkPop (mkOpcode OP_1 1) []];
                  [mkPop (mkOpcode OP_DUP 1) []; mkPop (mkOpcode OP_VERIFY 1) []]]
          0 0 0 [] [] exampleTx 0 0 [OpCondTrue] 0 false [])
     <> OutOfFuel)
  /\ Execute (fun _ s => Ok s) 4
       (mkScript [[mkPop (mkOpcode OP_1 1) []];
                  [mkPop (mkOpcode OP_DUP 1) []; mkPop (mkOpcode OP_VERIFY 1) []]]
          0 0 0 [] [] exampleTx 0 0 [OpCondTrue] 0 false [])
     <> OutOfFuel.
Proof.
  destruct (Execute_terminates (fun _ s => Ok s)
              (mkScript [[mkPop (mkOpcode OP_1 1) []];
                         [mkPop (mkOpcode OP_DUP 1) [];
                          mkPop (mkOpcode OP_VERIFY 1) []]]
                 0 0 0 [] [] exampleTx 0 0 [OpCondTrue] 0 false []))
    as [H1 H2].
  - intros pop s s' [= <-]. apply samePC_refl.
  - intros pop s. discriminate.
  - split; [exact H1|]. apply H2.
    + left. reflexivity.
    + cbn. lia.
    + unfold len. cbn. lia.
Defined.

(** ** The engine as NewScript returns it *)

Lemma parseScript_nonempty (script : list byte) (pops : list parsedOpcode) :
  parseScript script = Ok pops -> script <> [] -> 0 < len pops.
Proof.
  intros H Hne. apply parseScript_Ok_unparseScript in H.
  destruct pops; [cbn in H; congruence|]. unfold len. cbn [length]. lia.
Qed.

(** X15. The outcomes of [NewScript] on a transaction whose input pointers
    are valid.  An error of parsing the signature script comes first; the
    only errors are [ShortScript], [ElementTooBig] and the
    pay-to-script-hash push-only error; there is no index out of range.  The
    engine returned has empty stacks, the conditional stack [OpCondTrue], no
    operation counted, and a program counter at offset 0 of script 0, of
    script 1 when the signature script is empty, and of script 2 when the
    pubkey script is empty; with a pubkey script that is not empty the
    program counter is valid. *)
Theorem NewScript_outcomes (scriptSig scriptPubKey : list byte) (txidx' : Z)
    (tx' : MsgTx) (pver' : Z) (bip16' : bool) (h : heap) :
  validPtrs (txins h) (tx_TxIn tx') ->
  let r := NewScript scriptSig scriptPubKey txidx' tx' pver' bip16' h in
  (forall e, parseScript scriptSig = Err e -> r = Err e)
  /\ (r = Err StackErrShortScript \/ r = Err StackErrElementTooBig
      \/ r = Err ErrPayToScriptHashNonPushOnly
      \/ exists m h',
           r = Ok (m, h')
           /\ scriptoff m = 0 /\ lastcodesep m = 0
           /\ dstack m = [] /\ astack m = [] /\ condStack m = [OpCondTrue]
           /\ numOps m = 0 /\ tx m = tx' /\ txidx m = txidx' /\ pver m = pver'
           /\ scriptidx m = (if len scriptPubKey =? 0 then 2
                             else if len scriptSig =? 0 then 1 else 0)
           /\ (scriptPubKey <> [] -> validPC m = Ok tt)).
Proof.
  intros Hv r. split.
  - intros e He. unfold r, NewScript, parseScripts. rewrite He. reflexivity.
  - destruct (parseScript_outcomes scriptSig) as [H0|[H0|[pops0 H0]]].
    { left. unfold r, NewScript, parseScripts. rewrite H0. reflexivity. }
    { right. left. unfold r, NewScript, parseScripts. rewrite H0. reflexivity. }
    destruct (parseScript_outcomes scriptPubKey) as [H1|[H1|[pops1 H1]]].
    { left. unfold r, NewScript, parseScripts. rewrite H0. rsimpl.
      rewrite H1. reflexivity. }
    { right. left. unfold r, NewScript, parseScripts. rewrite H0. rsimpl.
      rewrite H1. reflexivity. }
    unfold r. rewrite (NewScript_parsed _ _ _ _ _ _ _ _ _ H0 H1).
    destruct (bip16' && isScriptHash pops1 && negb (isPushOnly pops0)); [auto|].
    destruct (blankSignatureScripts_spec _ _ Hv) as (cells & -> & _).
    rsimpl. right. right. right. eexists _, _. split; [reflexivity|].
    cbn [scriptoff lastcodesep dstack astack condStack numOps tx txidx pver
         scriptidx].
    repeat split; auto.
    intros Hpk. unfold validPC. cbn [scriptidx scripts scriptoff].
    destruct (Z.eqb_spec (len scriptPubKey) 0) as [E|E].
    { destruct scriptPubKey; [congruence | unfold len in E; cbn in E; lia]. }
    pose proof (parseScript_nonempty _ _ H1 Hpk) as Hl1.
    destruct (Z.eqb_spec (len scriptSig) 0) as [E0|E0].
    + change (len [pops0; pops1]) with 2. cbn [Z.geb Z.compare Pos.compare].
      unfold index. cbn. znat_consts. cbn. rsimpl.
      destruct (Z.geb_spec 0 (len pops1)); [lia | reflexivity].
    + assert (Hsig : scriptSig <> []) by (intros ->; apply E0; reflexivity).
      pose proof (parseScript_nonempty _ _ H0 Hsig) as Hl0.
      change (len [pops0; pops1]) with 2. cbn [Z.geb Z.compare Pos.compare].
      unfold index. cbn. znat_consts. cbn. rsimpl.
      destruct (Z.geb_spec 0 (len pops0)); [lia | reflexivity].
Qed.

Lemma NewScript_outcomes_witness :
  (forall e, parseScript [OP_1] = Err e ->
     NewScript [OP_1] [OP_DUP] 0 exampleTx 0 true exampleHeap = Err e)
  /\ exists m h',
       NewScript [OP_1] [OP_DUP] 0 exampleTx 0 true exampleHeap = Ok (m, h')
       /\ scriptidx m = 0 /\ validPC m = Ok tt.
Proof.
  destruct (NewScript_outcomes [OP_1] [OP_DUP] 0 exampleTx 0 true exampleHeap)
    as [H1 H2].
  - unfold validPtrs. repeat constructor.
  - split; [exact H1|].
    destruct H2 as [H2|[H2|[H2|(m & h' & H2 & _ & _ & _ & _ & _ & _ & _ & _ & _
                                   & Hi & Hv)]]];
      try discriminate H2.
    exists m, h'. split; [exact H2|]. split; [exact Hi|].
    apply Hv. discriminate.
Defined.

(** ** calcScriptHash on values *)

Lemma blankCells_ge (i : nat) (txidx' : Z) (cs : list TxOut) :
  txidx' <= Z.of_nat i -> blankCells i txidx' cs = cs.
Proof.
  revert i. induction cs as [|c cs IH]; intros i Hi; cbn; [reflexivity|].
  destruct (Z.ltb_spec (Z.of_nat i) txidx'); [lia|].
  rewrite IH by lia. reflexivity.
Qed.

Lemma blankCells_length (i : nat) (txidx' : Z) (cs : list TxOut) :
  length (blankCells i txidx' cs) = length cs.
Proof.
  revert i. induction cs as [|c cs IH]; intros i; cbn; [|rewrite IH];
    reflexivity.
Qed.

Lemma blankOutputs_fresh (n i : nat) (txidx' : Z) (pre new : list TxOut) :
  (n <= length new)%nat -> txidx' <= Z.of_nat (i + n) ->
  blankOutputs i txidx' (seq (length pre) n) (pre ++ new)
  = Ok (pre ++ blankCells i txidx' new).
Proof.
  revert i pre new. induction n as [|n IH]; intros i pre new Hn Ht.
  - cbn [seq blankOutputs].
    destruct (Z.ltb_spec (Z.of_nat i) txidx'); [lia|].
    rewrite blankCells_ge by lia. reflexivity.
  - destruct new as [|c new]; [cbn in Hn; lia|].
    cbn [seq blankOutputs blankCells].
    destruct (Z.ltb_spec (Z.of_nat i) txidx').
    + unfold deref. rewrite list_lookup_middle by reflexivity. rsimpl.
      rewrite insert_app_r_alt by lia. rewrite Nat.sub_diag. cbn [insert list_insert].
      specialize (IH (S i) (pre ++ [mkTxOut (-1) []]) new).
      rewrite length_app in IH. cbn [length] in IH.
      rewrite Nat.add_1_r, <- !app_assoc in IH. cbn [app] in IH.
      apply IH; [cbn in Hn; lia | lia].
    + rewrite blankCells_ge by lia. reflexivity.
Qed.

Lemma take_seq_le (a n k : nat) : (k <= n)%nat -> take k (seq a n) = seq a k.
Proof. intros H. rewrite take_seq. f_equal. lia. Qed.

Lemma slice_same_length {A B} (s : list A) (s' : list B) (lo hi : Z) :
  length s = length s' ->
  (exists r r', slice s lo hi = Ok r /\ slice s' lo hi = Ok r'
                /\ 0 <= lo <= hi /\ hi <= len s
                /\ r = take (Z.to_nat (hi - lo)) (drop (Z.to_nat lo) s)
                /\ r' = take (Z.to_nat (hi - lo)) (drop (Z.to_nat lo) s'))
  \/ (slice s lo hi = Panic /\ slice s' lo hi = Panic).
Proof.
  intros Hl. unfold slice, len. rewrite Hl.
  destruct (Z.leb_spec 0 lo), (Z.leb_spec lo hi),
    (Z.leb_spec hi (Z.of_nat (length s'))); cbn [andb]; auto.
  left. eexists _, _. repeat split; auto; lia.
Qed.

(** [calcScriptHash] on values: with valid pointers the digest is that of
    [hashedTx] on the inputs and outputs of the engine's transaction, and
    the memory is extended by the copies. *)
Lemma calcScriptHash_values
    (BtcEncode : wireTx -> Z -> list byte)
    (DoubleSha256 : list byte -> list byte)
    (s : Script) (script : list parsedOpcode) (hashType : byte) (h : heap) :
  validPtrs (txins h) (tx_TxIn (tx s)) ->
  validPtrs (txouts h) (tx_TxOut (tx s)) ->
  let I0 := cellsAt (txins h) (tx_TxIn (tx s)) in
  let O0 := cellsAt (txouts h) (tx_TxOut (tx s)) in
  let sig := unparseScript (removeOpcode script OP_CODESEPARATOR) in
  exists newIns newOuts,
    calcScriptHash BtcEncode DoubleSha256 s script hashType h
    = (w ← hashedTx (Version (tx s)) (LockTime (tx s)) (txidx s) sig hashType
            I0 O0;
       Ok (DoubleSha256 (BtcEncode w (pver s) ++ leBytes 4 (bval hashType)),
           mkHeap (txins h ++ newIns) (txouts h ++ newOuts))).
Proof.
  intros Hvi Hvo I0 O0 sig.
  unfold calcScriptHash, calcScriptHashCopy, Copy, hashedTx.
  rewrite (copyCells_valid _ _ Hvi), (copyCells_valid _ _ Hvo). rsimpl.
  cbn [tx_TxIn tx_TxOut txins txouts Version LockTime].
  fold I0 O0 sig.
  rewrite <- (cellsAt_length _ _ Hvi), <- (cellsAt_length _ _ Hvo).
  fold I0 O0.
  rewrite (resetInputs_valid _ _ _ _ _ (validPtrs_seq (txins h) I0)),
    cellsAt_seq. rsimpl.
  rewrite (copyCells_valid _ _ (validPtrs_seq (txouts h) O0)), cellsAt_seq.
  rsimpl. rewrite !length_seq.
  set (t := txidx s).
  set (rc := resetCells 0 t sig I0).
  set (zc := zeroCells 0 t rc).
  set (iptrs := seq (length (txins h ++ I0)) (length I0)).
  set (optrs := seq (length (txouts h ++ O0)) (length O0)).
  assert (Hlrc : length rc = length I0) by apply resetCells_length.
  assert (Hlzc : length zc = length I0)
    by (unfold zc; rewrite zeroCells_length; exact Hlrc).
  assert (Hzero : zeroSequences 0 t iptrs ((txins h ++ I0) ++ rc)
                  = Ok ((txins h ++ I0) ++ zc)).
  { pose proof (zeroSequences_fresh 0 t (txins h ++ I0) rc) as Hz.
    rewrite Hlrc in Hz. exact Hz. }
  (* reading the inputs back *)
  assert (Hins : forall (cells : list TxIn),
             length cells = length I0 ->
             (ins ← (if negb (Z.land (bval hashType) SigHashAnyOneCanPay =? 0)
                     then slice iptrs t (t + 1) else Ok iptrs);
              derefAll ((txins h ++ I0) ++ cells) ins)
             = (if negb (Z.land (bval hashType) SigHashAnyOneCanPay =? 0)
                then slice cells t (t + 1) else Ok cells)).
  { intros cells Hlc.
    pose proof (validPtrs_seq (txins h ++ I0) cells) as Hvc.
    pose proof (cellsAt_seq (txins h ++ I0) cells) as Hcc.
    rewrite Hlc in Hvc, Hcc. fold iptrs in Hvc, Hcc.
    destruct (negb _).
    - destruct (slice_same_length iptrs cells t (t + 1))
        as [(r & r' & -> & -> & _ & _ & -> & ->)|[-> ->]];
        [unfold iptrs; rewrite length_seq; auto | | reflexivity].
      rsimpl. rewrite derefAll_valid
        by (unfold validPtrs; apply Forall_take, Forall_drop; exact Hvc).
      rewrite cellsAt_take by (unfold validPtrs; apply Forall_drop; exact Hvc).
      rewrite cellsAt_drop by exact Hvc. rewrite Hcc. reflexivity.
    - rsimpl. rewrite (derefAll_valid _ _ Hvc), Hcc. reflexivity. }
  destruct (Z.land (bval hashType) 31 =? SigHashNone).
  - (* None *)
    rewrite slice_0_0. rsimpl. rewrite Hzero. rsimpl.
    exists (I0 ++ zc), (O0 ++ O0). rewrite <- ?app_assoc.
    specialize (Hins zc Hlzc).
    destruct (negb _).
    + destruct (slice iptrs t (t + 1)) as [ins| | |] eqn:Hs; rsimpl;
        rewrite <- Hins; rsimpl; try reflexivity.
      unfold readTx. cbn [tx_TxIn tx_TxOut txins txouts Version LockTime].
      rewrite <- ?app_assoc.
      destruct (derefAll _ ins); reflexivity.
    + rsimpl. unfold readTx.
      cbn [tx_TxIn tx_TxOut txins txouts Version LockTime derefAll].
      rewrite <- ?app_assoc in Hins. rsimpl. rewrite <- ?app_assoc.
      rewrite Hins. reflexivity.
  - destruct (Z.land (bval hashType) 31 =? SigHashSingle).
    + (* Single *)
      destruct (slice_same_length optrs (blankCells 0 t O0) 0 (t + 1))
        as [(r & r' & -> & -> & Hr0 & Hr1 & -> & ->)|[-> ->]].
      { unfold optrs. rewrite length_seq, blankCells_length. reflexivity. }
      2:{ rsimpl. exists [], []. reflexivity. }
      rsimpl. rewrite !drop_0. rewrite Z.sub_0_r.
      assert (Hk : (Z.to_nat (t + 1) <= length O0)%nat).
      { unfold len, optrs in Hr1. rewrite length_seq in Hr1. lia. }
      unfold optrs at 1 2. rewrite (take_seq_le _ _ _ Hk).
      rewrite blankOutputs_fresh by lia. rsimpl. rewrite Hzero. rsimpl.
      exists (I0 ++ zc), (O0 ++ blankCells 0 t O0). rewrite <- ?app_assoc.
      specialize (Hins zc Hlzc).
      assert (Houts : derefAll (txouts h ++ O0 ++ blankCells 0 t O0)
                        (seq (length (txouts h ++ O0)) (Z.to_nat (t + 1)))
                      = Ok (take (Z.to_nat (t + 1)) (blankCells 0 t O0))).
      { pose proof (validPtrs_seq (txouts h ++ O0) (blankCells 0 t O0)) as Hvb.
        pose proof (cellsAt_seq (txouts h ++ O0) (blankCells 0 t O0)) as Hcb.
        rewrite blankCells_length in Hvb, Hcb.
        rewrite <- (take_seq_le _ (length O0) _ Hk).
        rewrite <- ?app_assoc in Hvb, Hcb.
        rewrite derefAll_valid
          by (unfold validPtrs; apply Forall_take; exact Hvb).
        rewrite cellsAt_take by exact Hvb. rewrite Hcb. reflexivity. }
      rewrite <- ?app_assoc in Hins.
      destruct (negb _).
      * destruct (slice iptrs t (t + 1)) as [ins| | |] eqn:Hs; rsimpl;
          rewrite <- Hins; rsimpl; try reflexivity.
        unfold readTx. cbn [tx_TxIn tx_TxOut txins txouts Version LockTime].
        destruct (derefAll _ ins); rsimpl; try reflexivity.
        rewrite Houts. reflexivity.
      * rsimpl. unfold readTx.
        cbn [tx_TxIn tx_TxOut txins txouts Version LockTime].
        rsimpl. rewrite Hins. rsimpl. rewrite Houts. reflexivity.
    + (* All, Old and the undefined hash types *)
      rsimpl. exists (I0 ++ rc), (O0 ++ O0). rewrite <- ?app_assoc.
      specialize (Hins rc Hlrc). rewrite <- ?app_assoc in Hins.
      assert (Houts : derefAll (txouts h ++ O0 ++ O0) optrs = Ok O0).
      { pose proof (validPtrs_seq (txouts h ++ O0) O0) as Hvb.
        pose proof (cellsAt_seq (txouts h ++ O0) O0) as Hcb.
        rewrite <- ?app_assoc in Hvb, Hcb.
        unfold optrs. rewrite (derefAll_valid _ _ Hvb), Hcb. reflexivity. }
      destruct (negb _).
      * destruct (slice iptrs t (t + 1)) as [ins| | |] eqn:Hs; rsimpl;
          rewrite <- Hins; rsimpl; try reflexivity.
        unfold readTx. cbn [tx_TxIn tx_TxOut txins txouts Version LockTime].
        destruct (derefAll _ ins); rsimpl; try reflexivity.
        rewrite Houts. reflexivity.
      * rsimpl. unfold readTx.
        cbn [tx_TxIn tx_TxOut txins txouts Version LockTime].
        rsimpl. rewrite Hins. rsimpl. rewrite Houts. reflexivity.
Qed.

Lemma readTx_extend (h : heap) (t : MsgTx) (newIns : list TxIn)
    (newOuts : list TxOut) :
  validPtrs (txins h) (tx_TxIn t) -> validPtrs (txouts h) (tx_TxOut t) ->
  readTx (mkHeap (txins h ++ newIns) (txouts h ++ newOuts)) t = readTx h t.
Proof.
  intros Hvi Hvo. unfold readTx. cbn [txins txouts].
  rewrite !derefAll_valid
    by (try exact Hvi; try exact Hvo; apply validPtrs_app; assumption).
  rewrite (cellsAt_valid_app _ _ _ Hvi), (cellsAt_valid_app _ _ _ Hvo).
  reflexivity.
Qed.

Lemma resetCells_lookup (j : nat) (txidx' : Z) (sig : list byte)
    (cs : list TxIn) (i : nat) :
  resetCells j txidx' sig cs !! i = allInput txidx' sig (j + i) <$> cs !! i.
Proof.
  revert j i. induction cs as [|c cs IH]; intros j i; cbn; [reflexivity|].
  destruct i as [|i]; cbn.
  - rewrite Nat.add_0_r. reflexivity.
  - rewrite IH. do 2 f_equal. lia.
Qed.

Lemma resetCells_imap (txidx' : Z) (sig : list byte) (cs : list TxIn) :
  resetCells 0 txidx' sig cs = imap (allInput txidx' sig) cs.
Proof.
  apply list_eq. intros i. rewrite resetCells_lookup, list_lookup_imap.
  reflexivity.
Qed.

Lemma blankCells_lookup (j : nat) (txidx' : Z) (cs : list TxOut) (i : nat) :
  blankCells j txidx' cs !! i
  = (fun c => if Z.of_nat (j + i) <? txidx' then mkTxOut (-1) [] else c)
      <$> cs !! i.
Proof.
  revert j i. induction cs as [|c cs IH]; intros j i; cbn; [reflexivity|].
  destruct i as [|i]; cbn.
  - rewrite Nat.add_0_r. reflexivity.
  - rewrite IH. destruct (cs !! i); cbn; [|reflexivity].
    replace (S (j + i))%nat with (j + S i)%nat by lia. reflexivity.
Qed.

Lemma slice_one {A} (s : list A) (t : Z) :
  0 <= t < len s ->
  slice s t (t + 1) = Ok (take 1 (drop (Z.to_nat t) s)).
Proof.
  intros Ht. rewrite slice_in_range by lia.
  replace (Z.to_nat (t + 1 - t)) with 1%nat by lia. reflexivity.
Qed.

(** X16. The default mode of [calcScriptHash].  When (hashType & 0x1F) is
    neither 2 (None) nor 3 (Single), be it All, Old or an undefined value,
    the digest is that of a copy of the engine's transaction with all
    outputs as they are and with the inputs changed in their signature
    scripts alone: the serialized script, OP_CODESEPARATORs removed, on
    input [txidx], and the empty script elsewhere; with AnyOneCanPay only
    input [txidx] is kept.  The memory of the engine's transaction is only
    extended. *)
Theorem calcScriptHash_All_mode
    (BtcEncode : wireTx -> Z -> list byte)
    (DoubleSha256 : list byte -> list byte)
    (s : Script) (script : list parsedOpcode) (hashType : byte) (h : heap) :
  Z.land (bval hashType) 31 <> SigHashNone ->
  Z.land (bval hashType) 31 <> SigHashSingle ->
  validPtrs (txins h) (tx_TxIn (tx s)) ->
  validPtrs (txouts h) (tx_TxOut (tx s)) ->
  Z.land (bval hashType) SigHashAnyOneCanPay = 0
  \/ 0 <= txidx s < len (tx_TxIn (tx s)) ->
  let sig := unparseScript (removeOpcode script OP_CODESEPARATOR) in
  let inputs :=
    imap (allInput (txidx s) sig) (cellsAt (txins h) (tx_TxIn (tx s))) in
  exists (w : wireTx) (h' : heap),
    calcScriptHash BtcEncode DoubleSha256 s script hashType h
    = Ok (DoubleSha256 (BtcEncode w (pver s) ++ leBytes 4 (bval hashType)), h')
    /\ w_TxOut w = cellsAt (txouts h) (tx_TxOut (tx s))
    /\ w_TxIn w
       = (if Z.land (bval hashType) SigHashAnyOneCanPay =? 0 then inputs
          else take 1 (drop (Z.to_nat (txidx s)) inputs))
    /\ (forall (i : nat) (c : TxIn), inputs !! i = Some c ->
          exists c0, cellsAt (txins h) (tx_TxIn (tx s)) !! i = Some c0
            /\ PreviousOutpoint c = PreviousOutpoint c0
            /\ Sequence c = Sequence c0
            /\ SignatureScript c = if Z.of_nat i =? txidx s then sig else [])
    /\ w_Version w = Version (tx s) /\ w_LockTime w = LockTime (tx s)
    /\ readTx h' (tx s) = readTx h (tx s)
    /\ (exists newIns newOuts,
          txins h' = txins h ++ newIns /\ txouts h' = txouts h ++ newOuts).
Proof.
  intros HnN HnS Hvi Hvo Hacp sig inputs.
  destruct (calcScriptHash_values BtcEncode DoubleSha256 s script hashType h
              Hvi Hvo) as (newIns & newOuts & ->).
  fold sig. unfold hashedTx.
  destruct (Z.eqb_spec (Z.land (bval hashType) 31) SigHashNone); [contradiction|].
  destruct (Z.eqb_spec (Z.land (bval hashType) 31) SigHashSingle);
    [contradiction|].
  rsimpl. rewrite resetCells_imap. fold inputs.
  assert (Hlen : len inputs = len (tx_TxIn (tx s))).
  { unfold len, inputs. rewrite length_imap, (cellsAt_length _ _ Hvi).
    reflexivity. }
  assert (Hin : forall (i : nat) (c : TxIn), inputs !! i = Some c ->
            exists c0, cellsAt (txins h) (tx_TxIn (tx s)) !! i = Some c0
              /\ PreviousOutpoint c = PreviousOutpoint c0
              /\ Sequence c = Sequence c0
              /\ SignatureScript c = if Z.of_nat i =? txidx s then sig else []).
  { intros i c. unfold inputs. rewrite list_lookup_imap.
    destruct (cellsAt (txins h) (tx_TxIn (tx s)) !! i) as [c0|]; [|easy].
    cbn. intros [= <-]. exists c0. auto. }
  pose proof (readTx_extend h (tx s) newIns newOuts Hvi Hvo) as Hframe.
  destruct (Z.eqb_spec (Z.land (bval hashType) SigHashAnyOneCanPay) 0) as [E|E];
    cbn [negb].
  - rsimpl. eexists _, _. split; [reflexivity|].
    cbn [w_TxOut w_TxIn w_Version w_LockTime txins txouts].
    repeat split; eauto.
  - destruct Hacp as [Hacp|Hacp]; [contradiction|].
    rewrite slice_one by lia. rsimpl. eexists _, _. split; [reflexivity|].
    cbn [w_TxOut w_TxIn w_Version w_LockTime txins txouts].
    repeat split; eauto.
Qed.

Lemma calcScriptHash_All_mode_witness :
  exists (w : wireTx) (h' : heap),
    calcScriptHash (fun w _ => concat (map SignatureScript (w_TxIn w)))
      (fun b => b)
      (mkScript [] 0 0 0 [] [] exampleTx 1 0 [OpCondTrue] 0 false [])
      [mkPop (mkOpcode OP_CODESEPARATOR 1) []; mkPop (mkOpcode OP_DUP 1) []]
      x01 exampleHeap
    = Ok (concat (map SignatureScript (w_TxIn w)) ++ leBytes 4 1, h')
    /\ w_TxOut w = [mkTxOut 5000 [OP_1]; mkTxOut 7000 [OP_DUP]]
    /\ w_TxIn w = [mkTxIn (mkOutPoint [x01] 0) [] 4294967295;
                   mkTxIn (mkOutPoint [x02] 1) [OP_DUP] 4294967295]
    /\ readTx h' exampleTx = readTx exampleHeap exampleTx.
Proof.
  destruct (calcScriptHash_All_mode
              (fun w _ => concat (map SignatureScript (w_TxIn w))) (fun b => b)
              (mkScript [] 0 0 0 [] [] exampleTx 1 0 [OpCondTrue] 0 false [])
              [mkPop (mkOpcode OP_CODESEPARATOR 1) []; mkPop (mkOpcode OP_DUP 1) []]
              x01 exampleHeap)
    as (w & h' & Hhash & Houts & Hins & _ & _ & _ & Hframe & _).
  - discriminate.
  - discriminate.
  - unfold validPtrs. repeat constructor.
  - unfold validPtrs. repeat constructor.
  - left. reflexivity.
  - exists w, h'. split; [exact Hhash|]. split; [exact Houts|].
    split; [exact Hins | exact Hframe].
Defined.

(** X17. The Single mode of [calcScriptHash] when it returns.  When
    (hashType & 0x1F) = 3 and [txidx] is the index of an output, the digest
    is that of a transaction copy with the outputs up to and including
    [txidx], of which those before [txidx] hold the value -1 and an empty
    script and output [txidx] is as it is, and with the inputs of the None
    mode: sequence number 0 and an empty signature script on every input but
    [txidx], the serialized script on input [txidx]; with AnyOneCanPay only
    input [txidx] is kept.  The memory of the engine's transaction is only
    extended. *)
Theorem calcScriptHash_Single_mode
    (BtcEncode : wireTx -> Z -> list byte)
    (DoubleSha256 : list byte -> list byte)
    (s : Script) (script : list parsedOpcode) (hashType : byte) (h : heap) :
  Z.land (bval hashType) 31 = SigHashSingle ->
  validPtrs (txins h) (tx_TxIn (tx s)) ->
  validPtrs (txouts h) (tx_TxOut (tx s)) ->
  0 <= txidx s < len (tx_TxOut (tx s)) ->
  Z.land (bval hashType) SigHashAnyOneCanPay = 0
  \/ txidx s < len (tx_TxIn (tx s)) ->
  let sig := unparseScript (removeOpcode script OP_CODESEPARATOR) in
  let inputs :=
    imap (noneInput (txidx s) sig) (cellsAt (txins h) (tx_TxIn (tx s))) in
  exists (w : wireTx) (h' : heap),
    calcScriptHash BtcEncode DoubleSha256 s script hashType h
    = Ok (DoubleSha256 (BtcEncode w (pver s) ++ leBytes 4 (bval hashType)), h')
    /\ len (w_TxOut w) = txidx s + 1
    /\ (forall i : nat, Z.of_nat i < txidx s ->
          w_TxOut w !! i = Some (mkTxOut (-1) []))
    /\ w_TxOut w !! Z.to_nat (txidx s)
       = cellsAt (txouts h) (tx_TxOut (tx s)) !! Z.to_nat (txidx s)
    /\ w_TxIn w
       = (if Z.land (bval hashType) SigHashAnyOneCanPay =? 0 then inputs
          else take 1 (drop (Z.to_nat (txidx s)) inputs))
    /\ w_Version w = Version (tx s) /\ w_LockTime w = LockTime (tx s)
    /\ readTx h' (tx s) = readTx h (tx s)
    /\ (exists newIns newOuts,
          txins h' = txins h ++ newIns /\ txouts h' = txouts h ++ newOuts).
Proof.
  intros Hmode Hvi Hvo Hidx Hacp sig inputs.
  destruct (calcScriptHash_values BtcEncode DoubleSha256 s script hashType h
              Hvi Hvo) as (newIns & newOuts & ->).
  fold sig. unfold hashedTx. rewrite Hmode.
  cbn [Z.eqb SigHashSingle SigHashNone Pos.eqb].
  set (O0 := cellsAt (txouts h) (tx_TxOut (tx s))).
  assert (HlO : length O0 = length (tx_TxOut (tx s)))
    by (apply cellsAt_length; exact Hvo).
  rewrite slice_in_range
    by (unfold len in *; rewrite ?blankCells_length, ?HlO; lia).
  rsimpl. rewrite zeroCells_resetCells_imap. fold inputs.
  rewrite drop_0, Z.sub_0_r.
  set (outs := take (Z.to_nat (txidx s + 1)) (blankCells 0 (txidx s) O0)).
  assert (Hlo : len outs = txidx s + 1).
  { unfold outs, len in *. rewrite length_take, blankCells_length, HlO. lia. }
  assert (Hblank : forall i : nat, Z.of_nat i < txidx s ->
                     outs !! i = Some (mkTxOut (-1) [])).
  { intros i Hi. unfold outs. rewrite lookup_take_lt by lia.
    rewrite blankCells_lookup. cbn [Nat.add].
    destruct (lookup_lt_is_Some_2 O0 i) as [c ->];
      [unfold len in *; lia|].
    cbn. destruct (Z.ltb_spec (Z.of_nat i) (txidx s)); [reflexivity | lia]. }
  assert (Hkeep : outs !! Z.to_nat (txidx s) = O0 !! Z.to_nat (txidx s)).
  { unfold outs. rewrite lookup_take_lt by lia.
    rewrite blankCells_lookup. cbn [Nat.add].
    destruct (O0 !! Z.to_nat (txidx s)) as [c|]; [|reflexivity].
    cbn. destruct (Z.ltb_spec (Z.of_nat (Z.to_nat (txidx s))) (txidx s));
      [lia | reflexivity]. }
  assert (Hlen : len inputs = len (tx_TxIn (tx s))).
  { unfold len, inputs. rewrite length_imap, (cellsAt_length _ _ Hvi).
    reflexivity. }
  pose proof (readTx_extend h (tx s) newIns newOuts Hvi Hvo) as Hframe.
  destruct (Z.eqb_spec (Z.land (bval hashType) SigHashAnyOneCanPay) 0) as [E|E];
    cbn [negb].
  - rsimpl. eexists _, _. split; [reflexivity|].
    cbn [w_TxOut w_TxIn w_Version w_LockTime txins txouts].
    repeat split; eauto.
  - destruct Hacp as [Hacp|Hacp]; [contradiction|].
    rewrite slice_one by lia. rsimpl. eexists _, _. split; [reflexivity|].
    cbn [w_TxOut w_TxIn w_Version w_LockTime txins txouts].
    repeat split; eauto.
Qed.

Lemma calcScriptHash_Single_mode_witness :
  exists (w : wireTx) (h' : heap),
    calcScriptHash (fun w _ => concat (map SignatureScript (w_TxIn w)))
      (fun b => b)
      (mkScript [] 0 0 0 [] [] exampleTx 1 0 [OpCondTrue] 0 false [])
      [mkPop (mkOpcode OP_DUP 1) []] x03 exampleHeap
    = Ok (concat (map SignatureScript (w_TxIn w)) ++ leBytes 4 3, h')
    /\ len (w_TxOut w) = 2
    /\ w_TxOut w !! 0%nat = Some (mkTxOut (-1) [])
    /\ w_TxOut w !! 1%nat = Some (mkTxOut 7000 [OP_DUP])
    /\ w_TxIn w = [mkTxIn (mkOutPoint [x01] 0) [] 0;
                   mkTxIn (mkOutPoint [x02] 1) [OP_DUP] 4294967295].
Proof.
  destruct (calcScriptHash_Single_mode
              (fun w _ => concat (map SignatureScript (w_TxIn w))) (fun b => b)
              (mkScript [] 0 0 0 [] [] exampleTx 1 0 [OpCondTrue] 0 false [])
              [mkPop (mkOpcode OP_DUP 1) []] x03 exampleHeap)
    as (w & h' & Hhash & Hlen & Hblank & Hkeep & Hins & _).
  - reflexivity.
  - unfold validPtrs. repeat constructor.
  - unfold validPtrs. repeat constructor.
  - unfold len. cbn. lia.
  - left. reflexivity.
  - exists w, h'. split; [exact Hhash|]. split; [exact Hlen|].
    split; [apply Hblank; cbn; lia|]. split; [exact Hkeep | exact Hins].
Defined.

(** ** What the digest does not depend on *)

Lemma resetCells_blind (i : nat) (txidx' : Z) (sig : list byte)
    (cs cs' : list TxIn) :
  map (fun c => setSignatureScript c []) cs
  = map (fun c => setSignatureScript c []) cs' ->
  resetCells i txidx' sig cs = resetCells i txidx' sig cs'.
Proof.
  revert i cs'. induction cs as [|c cs IH]; intros i [|c' cs']; cbn;
    try discriminate; [reflexivity|].
  intros [= Ho Hs Hrest]. rewrite (IH (S i) cs' Hrest). f_equal.
  destruct c, c'. cbn in *. unfold setSignatureScript. cbn. congruence.
Qed.

(** X18. What the digest does not depend on.  With valid pointers, the
    outcome of [calcScriptHash], digest or panic alike, is the same for two
    memories in which the transaction has the same outputs and the same
    inputs up to their signature scripts: the signature scripts stored in
    the transaction play no part.  Nor do the OP_CODESEPARATORs of the
    script: removing them beforehand changes nothing. *)
Theorem calcScriptHash_blind
    (BtcEncode : wireTx -> Z -> list byte)
    (DoubleSha256 : list byte -> list byte)
    (s : Script) (script : list parsedOpcode) (hashType : byte)
    (h1 h2 : heap) :
  validPtrs (txins h1) (tx_TxIn (tx s)) ->
  validPtrs (txouts h1) (tx_TxOut (tx s)) ->
  validPtrs (txins h2) (tx_TxIn (tx s)) ->
  validPtrs (txouts h2) (tx_TxOut (tx s)) ->
  map (fun c => setSignatureScript c []) (cellsAt (txins h1) (tx_TxIn (tx s)))
  = map (fun c => setSignatureScript c []) (cellsAt (txins h2) (tx_TxIn (tx s))) ->
  cellsAt (txouts h1) (tx_TxOut (tx s)) = cellsAt (txouts h2) (tx_TxOut (tx s)) ->
  digestOf (calcScriptHash BtcEncode DoubleSha256 s script hashType h1)
  = digestOf (calcScriptHash BtcEncode DoubleSha256 s script hashType h2)
  /\ calcScriptHash BtcEncode DoubleSha256 s
       (removeOpcode script OP_CODESEPARATOR) hashType h1
     = calcScriptHash BtcEncode DoubleSha256 s script hashType h1.
Proof.
  intros Hvi1 Hvo1 Hvi2 Hvo2 Hins Houts. split.
  - destruct (calcScriptHash_values BtcEncode DoubleSha256 s script hashType h1
                Hvi1 Hvo1) as (ni1 & no1 & ->).
    destruct (calcScriptHash_values BtcEncode DoubleSha256 s script hashType h2
                Hvi2 Hvo2) as (ni2 & no2 & ->).
    rewrite Houts.
    assert (Hh : forall O0,
              hashedTx (Version (tx s)) (LockTime (tx s)) (txidx s)
                (unparseScript (removeOpcode script OP_CODESEPARATOR)) hashType
                (cellsAt (txins h1) (tx_TxIn (tx s))) O0
              = hashedTx (Version (tx s)) (LockTime (tx s)) (txidx s)
                  (unparseScript (removeOpcode script OP_CODESEPARATOR)) hashType
                  (cellsAt (txins h2) (tx_TxIn (tx s))) O0).
    { intros O0. unfold hashedTx.
      rewrite (resetCells_blind 0 (txidx s) _ _ _ Hins). reflexivity. }
    rewrite Hh. destruct (hashedTx _ _ _ _ _ _ _); reflexivity.
  - assert (Hidem : removeOpcode (removeOpcode script OP_CODESEPARATOR)
                      OP_CODESEPARATOR
                    = removeOpcode script OP_CODESEPARATOR).
    { rewrite !removeOpcode_filter. apply filter_filter_same. }
    unfold calcScriptHash, calcScriptHashCopy. cbv zeta. rewrite Hidem.
    reflexivity.
Qed.

Lemma calcScriptHash_blind_witness :
  digestOf
    (calcScriptHash (fun w _ => concat (map SignatureScript (w_TxIn w)))
       (fun b => b)
       (mkScript [] 0 0 0 [] [] exampleTx 1 0 [OpCondTrue] 0 false [])
       [mkPop (mkOpcode OP_CODESEPARATOR 1) []; mkPop (mkOpcode OP_DUP 1) []]
       x01 exampleHeap)
  = digestOf
      (calcScriptHash (fun w _ => concat (map SignatureScript (w_TxIn w)))
         (fun b => b)
         (mkScript [] 0 0 0 [] [] exampleTx 1 0 [OpCondTrue] 0 false [])
         [mkPop (mkOpcode OP_CODESEPARATOR 1) []; mkPop (mkOpcode OP_DUP 1) []]
         x01
         (mkHeap [mkTxIn (mkOutPoint [x01] 0) [OP_DUP; OP_DUP] 4294967295;
                  mkTxIn (mkOutPoint [x02] 1) [] 4294967295]
                 [mkTxOut 5000 [OP_1]; mkTxOut 7000 [OP_DUP]]))
  /\ calcScriptHash (fun w _ => concat (map SignatureScript (w_TxIn w)))
       (fun b => b)
       (mkScript [] 0 0 0 [] [] exampleTx 1 0 [OpCondTrue] 0 false [])
       (removeOpcode
          [mkPop (mkOpcode OP_CODESEPARATOR 1) []; mkPop (mkOpcode OP_DUP 1) []]
          OP_CODESEPARATOR)
       x01 exampleHeap
     = calcScriptHash (fun w _ => concat (map SignatureScript (w_TxIn w)))
         (fun b => b)
         (mkScript [] 0 0 0 [] [] exampleTx 1 0 [OpCondTrue] 0 false [])
         [mkPop (mkOpcode OP_CODESEPARATOR 1) []; mkPop (mkOpcode OP_DUP 1) []]
         x01 exampleHeap.
Proof.
  apply calcScriptHash_blind;
    first [ reflexivity | unfold validPtrs; repeat constructor ].
Defined.

(** X19. AnyOneCanPay is partial too: with the AnyOneCanPay bit set and an
    input index that is not the index of an input of the transaction, the
    slice expression [txCopy.TxIn[txidx:txidx+1]] is out of range and the
    call panics, whatever the mode. *)
Theorem calcScriptHash_AnyOneCanPay_panics
    (BtcEncode : wireTx -> Z -> list byte)
    (DoubleSha256 : list byte -> list byte)
    (s : Script) (script : list parsedOpcode) (hashType : byte) (h : heap) :
  validPtrs (txins h) (tx_TxIn (tx s)) ->
  validPtrs (txouts h) (tx_TxOut (tx s)) ->
  Z.land (bval hashType) SigHashAnyOneCanPay <> 0 ->
  ~ (0 <= txidx s < len (tx_TxIn (tx s))) ->
  calcScriptHash BtcEncode DoubleSha256 s script hashType h = Panic.
Proof.
  intros Hvi Hvo Hacp Hidx.
  destruct (calcScriptHash_values BtcEncode DoubleSha256 s script hashType h
              Hvi Hvo) as (newIns & newOuts & ->).
  set (I0 := cellsAt (txins h) (tx_TxIn (tx s))).
  assert (HlI : length I0 = length (tx_TxIn (tx s)))
    by (apply cellsAt_length; exact Hvi).
  assert (Hs : forall cells : list TxIn,
             length cells = length I0 ->
             slice cells (txidx s) (txidx s + 1) = Panic).
  { intros cells Hl. unfold slice, len in *. rewrite Hl, HlI.
    destruct (Z.leb_spec 0 (txidx s)),
      (Z.leb_spec (txidx s + 1) (Z.of_nat (length (tx_TxIn (tx s)))));
      cbn [andb]; rewrite ?andb_false_r; try reflexivity; lia. }
  unfold hashedTx.
  destruct (Z.eqb_spec (Z.land (bval hashType) SigHashAnyOneCanPay) 0);
    [contradiction|]. cbn [negb].
  destruct (_ =? SigHashNone).
  - rsimpl. rewrite Hs by (rewrite zeroCells_length, resetCells_length; reflexivity).
    reflexivity.
  - destruct (_ =? SigHashSingle).
    + assert (Hb : forall (A : Type) (l : list A) lo hi,
                slice l lo hi = Panic \/ exists r, slice l lo hi = Ok r)
        by (intros; unfold slice; destruct (_ && _); eauto).
      destruct (Hb _ (blankCells 0 (txidx s)
                        (cellsAt (txouts h) (tx_TxOut (tx s)))) 0 (txidx s + 1))
        as [->|[r ->]]; rsimpl; try reflexivity.
      rewrite Hs by (rewrite zeroCells_length, resetCells_length; reflexivity).
      reflexivity.
    + rsimpl. rewrite Hs by (rewrite resetCells_length; reflexivity).
      reflexivity.
Qed.

Lemma calcScriptHash_AnyOneCanPay_panics_witness :
  calcScriptHash (fun w _ => concat (map SignatureScript (w_TxIn w)))
    (fun b => b)
    (mkScript [] 0 0 0 [] [] exampleTx 2 0 [OpCondTrue] 0 false [])
    [mkPop (mkOpcode OP_DUP 1) []] x81 exampleHeap
  = Panic.
Proof.
  apply calcScriptHash_AnyOneCanPay_panics.
  - unfold validPtrs. repeat constructor.
  - unfold validPtrs. repeat constructor.
  - discriminate.
  - unfold len. cbn. lia.
Defined.
